(** * Matrix conversions of NetworkX graphs: [networkx/convert_matrix.py]

    A shallow embedding of [to_numpy_matrix], [from_numpy_matrix],
    [to_numpy_recarray], [to_scipy_sparse_matrix] and
    [from_scipy_sparse_matrix], and the properties of the conversion core:
    node ordering, parallel-edge weight combination, self-loop encoding,
    nonedge values and the errors raised on the way.

    Conventions of the embedding:
    - node identifiers are natural numbers;
    - edge attribute dictionaries are [gmap string Z]: weights are the
      integer-valued numbers, on which float arithmetic is exact;
    - a dense float cell is [nan] or [fin z];
    - Python exceptions are values of [exn]; a function that may raise or
      allocate a matrix lives in the monad [py], whose state counts the
      matrix objects allocated so far. *)

From Stdlib Require Import ZArith Lia.
From stdpp Require Import gmap strings list fin_maps.

Local Open Scope Z_scope.
#[local] Set Warnings "-clear-no-such-hyp".

(** ** Exceptions and the [py] monad *)

Inductive exn : Type :=
  | NetworkXError (msg : string)
  | NetworkXNotImplemented (msg : string)
  | ValueError (msg : string)
  | TypeError (msg : string)
  | KeyError (key : string)
  | IndexError.

Inductive res (A : Type) : Type :=
  | Ok (a : A)
  | Raise (e : exn).
Arguments Ok {A} a.
Arguments Raise {A} e.

(** The state threaded through a call is the number of matrix objects
    ([np.zeros], [sparse.coo_matrix]) allocated so far. *)
Definition py (A : Type) : Type := nat → nat * res A.

Definition py_ret {A} (a : A) : py A := λ k, (k, Ok a).
Definition py_raise {A} (e : exn) : py A := λ k, (k, Raise e).
Definition py_bind {A B} (c : py A) (f : A → py B) : py B :=
  λ k, match c k with
       | (k', Ok a) => f a k'
       | (k', Raise e) => (k', Raise e)
       end.
Definition py_alloc {A} (a : A) : py A := λ k, (S k, Ok a).

(** Running a call from a state where nothing has been allocated. *)
Definition run {A} (c : py A) : nat * res A := c 0%nat.

Notation "'do' x <- c ; k" := (py_bind c (λ x, k))
  (at level 10, x name, c at level 100, k at level 200,
   format "'[v' 'do'  x  <-  c ; '/' k ']'").

(** ** Numbers, dense matrices *)

Inductive cell : Type :=
  | nan
  | fin (z : Z).

Global Instance cell_eq_dec : EqDecision cell.
Proof. solve_decision. Defined.

Definition isnan (c : cell) : bool :=
  match c with nan => true | fin _ => false end.

Abbreviation matrix := (list (list cell)).

(** [M[i, j]] and [M[i, j] = x] on a dense array.  The indices produced by
    the conversions are always in range. *)
Definition getitem (M : matrix) (i j : nat) : cell :=
  match M !! i with
  | Some row => default nan (row !! j)
  | None => nan
  end.

Definition setitem (M : matrix) (i j : nat) (x : cell) : matrix :=
  alter (λ row, <[j := x]> row) i M.

(** [np.zeros((n, m)) + np.nan] *)
Definition nan_array (n m : nat) : matrix := replicate n (replicate m nan).

(** [M[np.isnan(M)] = nonedge] *)
Definition fill_nan (nonedge : cell) (M : matrix) : matrix :=
  map (map (λ c, if isnan c then nonedge else c)) M.

(** [np.nansum], [np.nanmin], [np.nanmax] on a flat sequence. *)
Definition nansum (l : list cell) : cell :=
  fin (foldr (λ c acc, match c with fin z => z + acc | nan => acc end) 0 l).

Definition nanmin (l : list cell) : cell :=
  foldr (λ c acc, match c, acc with
                  | nan, _ => acc
                  | fin z, nan => fin z
                  | fin z, fin a => fin (Z.min z a)
                  end) nan l.

Definition nanmax (l : list cell) : cell :=
  foldr (λ c acc, match c, acc with
                  | nan, _ => acc
                  | fin z, nan => fin z
                  | fin z, fin a => fin (Z.max z a)
                  end) nan l.

(** The values a caller can pass as [multigraph_weight]: the builtins
    [sum], [min], [max], or any other object. *)
Inductive pyfun : Type :=
  | py_sum
  | py_min
  | py_max
  | py_other (name : string).

(** [operator = {sum: np.nansum, min: np.nanmin, max: np.nanmax}] and its
    lookup [operator[multigraph_weight]]. *)
Definition operator (f : pyfun) : option (list cell → cell) :=
  match f with
  | py_sum => Some nansum
  | py_min => Some nanmin
  | py_max => Some nanmax
  | py_other _ => None
  end.

(** ** The graph container *)

Abbreviation node := nat.
Abbreviation edge := (node * node * gmap string Z)%type.

(** Modelled from the spec: the graph container (the classes [Graph],
    [DiGraph], [MultiGraph], [MultiDiGraph]) is an external collaborator
    consumed through [nodes], [edges], [is_directed], [is_multigraph],
    [selfloop_edges], [number_of_edges] and the [add_*] methods.  A graph
    is its two flags, its nodes in iteration order and its edges, each
    edge stored once with its attribute dictionary. *)
Record graph : Type := Graph {
  is_directed : bool;
  is_multigraph : bool;
  nodes : list node;
  edges : list edge
}.

(** [G.adj[n]]: the neighbours of [n] with the edge data, one entry per
    edge.  An undirected edge is seen from both endpoints, a self-loop
    once. *)
Definition nbrs (directed : bool) (n : node) (e : edge)
    : list (node * gmap string Z) :=
  let '(a, b, d) := e in
  if decide (a = n) then [(b, d)]
  else if negb directed && bool_decide (b = n) then [(a, d)]
  else [].

Definition adj (G : graph) (n : node) : list (node * gmap string Z) :=
  flat_map (nbrs (is_directed G) n) (edges G).

(** [G.adjacency_iter()] *)
Definition adjacency_iter (G : graph) : list (node * list (node * gmap string Z)) :=
  map (λ n, (n, adj G n)) (nodes G).

(** [G.nbunch_iter(nbunch)]: the nodes of [nbunch] that are in the graph;
    all nodes when [nbunch] is [None]. *)
Definition nbunch_iter (G : graph) (nbunch : option (list node)) : list node :=
  match nbunch with
  | None => nodes G
  | Some l => filter (λ n, n ∈ nodes G) l
  end.

(** The loop of the undirected [edges_iter]: an edge is reported from the
    first of its endpoints that is visited. *)
Fixpoint edges_seen (G : graph) (ns : list node) (seen : gset node) : list edge :=
  match ns with
  | [] => []
  | n :: ns' =>
      map (λ p : node * gmap string Z, (n, p.1, p.2))
          (filter (λ p : node * gmap string Z, p.1 ∉ seen) (adj G n))
      ++ edges_seen G ns' ({[n]} ∪ seen)
  end.

(** [G.edges_iter(nbunch, data=True)] *)
Definition edges_iter (G : graph) (nbunch : option (list node)) : list edge :=
  if is_directed G then
    flat_map (λ n, map (λ p : node * gmap string Z, (n, p.1, p.2)) (adj G n))
             (nbunch_iter G nbunch)
  else edges_seen G (nbunch_iter G nbunch) ∅.

(** [G.selfloop_edges(data=True)] *)
Definition selfloop_edges (G : graph) : list edge :=
  flat_map (λ n, map (λ p : node * gmap string Z, (n, n, p.2))
                     (filter (λ p : node * gmap string Z, p.1 = n) (adj G n)))
           (nodes G).

(** [G.number_of_edges()] *)
Definition number_of_edges (G : graph) : nat := length (edges G).

(** ** NodeIndex and WeightResolver *)

(** [dict(zip(nodelist, range(nlen)))]: later pairs overwrite earlier ones. *)
Definition dict_zip (keys : list node) (vals : list nat) : gmap node nat :=
  foldl (λ m p, <[p.1 := p.2]> m) ∅ (zip keys vals).

(** [attrs.get(weight, dflt)], where [weight] may be [None]. *)
Definition attrs_get (attrs : gmap string Z) (weight : option string) (dflt : Z) : Z :=
  match weight with
  | Some key => default dflt (attrs !! key)
  | None => dflt
  end.

Definition msg_ambiguous : string :=
  "Ambiguous ordering: `nodelist` contained duplicates.".

Definition msg_reducer : string := "multigraph_weight must be sum, min, or max".

(** ** [to_numpy_matrix] *)

(** Body of the loop over [G.edges_iter(data=True)] (multigraph branch).
    [index[u]] cannot fail there: [u] was just found in [nodeset]. *)
Definition multi_step (index : gmap node nat) (nodeset : gset node)
    (op : list cell → cell) (weight : option string) (undirected : bool)
    (M : matrix) (e : edge) : matrix :=
  let '(u, v, attrs) := e in
  if decide (u ∈ nodeset ∧ v ∈ nodeset) then
    match index !! u, index !! v with
    | Some i, Some j =>
        let e_weight := attrs_get attrs weight 1 in
        let M1 := setitem M i j (op [fin e_weight; getitem M i j]) in
        if undirected then setitem M1 j i (getitem M1 i j) else M1
    | _, _ => M
    end
  else M.

(** Body of the inner loop over [nbrdict.items()] (simple-graph branch):
    a [KeyError] from [index[u]] or [index[v]] is swallowed. *)
Definition simple_step (index : gmap node nat) (weight : option string)
    (u : node) (M : matrix) (p : node * gmap string Z) : matrix :=
  match index !! u, index !! p.1 with
  | Some i, Some j => setitem M i j (fin (attrs_get p.2 weight 1))
  | _, _ => M
  end.

Definition to_numpy_matrix (G : graph) (nodelist : option (list node))
    (multigraph_weight : pyfun) (weight : option string) (nonedge : cell)
    : py matrix :=
  let nodelist := match nodelist with None => nodes G | Some l => l end in
  let nodeset : gset node := list_to_set nodelist in
  if decide (length nodelist ≠ size nodeset) then
    py_raise (NetworkXError msg_ambiguous)
  else
    let nlen := length nodelist in
    let undirected := negb (is_directed G) in
    let index := dict_zip nodelist (seq 0 nlen) in
    do M <- (if is_multigraph G then
               do M <- py_alloc (nan_array nlen nlen);
               do op <- match operator multigraph_weight with
                        | Some op => py_ret op
                        | None => py_raise (ValueError msg_reducer)
                        end;
               py_ret (foldl (multi_step index nodeset op weight undirected) M
                             (edges_iter G None))
             else
               do M <- py_alloc (nan_array nlen nlen);
               py_ret (foldl (λ M un, foldl (simple_step index weight un.1) M un.2)
                             M (adjacency_iter G)));
    py_ret (fill_nan nonedge M).

(** ** [to_numpy_recarray] *)

Definition msg_multigraph : string := "not implemented for multigraph type".

(** Modelled from the spec: the decorator [not_implemented_for] lives in
    [networkx.utils], outside the sources at hand.  With the argument
    ['multigraph'] it makes the decorated function fail on a multigraph
    before its body runs. *)
Definition not_implemented_for_multigraph {A} (G : graph) (body : py A) : py A :=
  if is_multigraph G then
    py_raise (NetworkXNotImplemented msg_multigraph)
  else body.

(** A [for] loop whose body may raise. *)
Fixpoint py_for {A S} (l : list A) (body : S → A → py S) (s : S) : py S :=
  match l with
  | [] => py_ret s
  | a :: l' => do s' <- body s a; py_for l' body s'
  end.

(** A structured array: every cell is the tuple of its named fields. *)
Abbreviation recarray := (list (list (list Z))).

Definition rec_setitem (M : recarray) (i j : nat) (x : list Z) : recarray :=
  alter (λ row, <[j := x]> row) i M.

Definition rec_getitem (M : recarray) (i j : nat) : list Z :=
  match M !! i with
  | Some row => default [] (row !! j)
  | None => []
  end.

(** [tuple([attrs[n] for n in names])] *)
Fixpoint field_values (attrs : gmap string Z) (names : list string) : py (list Z) :=
  match names with
  | [] => py_ret []
  | n :: names' =>
      match attrs !! n with
      | Some x => do xs <- field_values attrs names'; py_ret (x :: xs)
      | None => py_raise (KeyError n)
      end
  end.

Definition to_numpy_recarray (G : graph) (nodelist : option (list node))
    (names : list string) : py recarray :=
  not_implemented_for_multigraph G (
    let nodelist := match nodelist with None => nodes G | Some l => l end in
    let nodeset : gset node := list_to_set nodelist in
    if decide (length nodelist ≠ size nodeset) then
      py_raise (NetworkXError msg_ambiguous)
    else
      let nlen := length nodelist in
      let undirected := negb (is_directed G) in
      let index := dict_zip nodelist (seq 0 nlen) in
      do M <- py_alloc (replicate nlen (replicate nlen (replicate (length names) 0)));
      py_for (edges_iter G None)
        (λ M (e : edge),
           let '(u, v, attrs) := e in
           if decide (u ∈ nodeset ∧ v ∈ nodeset) then
             match index !! u, index !! v with
             | Some i, Some j =>
                 do values <- field_values attrs names;
                 let M1 := rec_setitem M i j values in
                 py_ret (if undirected then rec_setitem M1 j i (rec_getitem M1 i j)
                         else M1)
             | _, _ => py_ret M
             end
           else py_ret M) M).

(** ** [to_scipy_sparse_matrix] *)

(** A matrix in coordinate format: parallel row, column and value
    sequences.  Repeated positions are summed when the matrix is
    converted or materialized. *)
Record coo_matrix : Type := Coo {
  coo_shape : nat * nat;
  coo_row : list nat;
  coo_col : list nat;
  coo_data : list Z
}.

(** [M.todense()[i, j]]: the sum of the values stored at [(i, j)]. *)
Fixpoint coo_sum (r c : list nat) (d : list Z) (i j : nat) : Z :=
  match r, c, d with
  | ri :: r', ci :: c', x :: d' =>
      (if decide (ri = i ∧ ci = j) then x else 0) + coo_sum r' c' d' i j
  | _, _, _ => 0
  end.

Definition todense (M : coo_matrix) (i j : nat) : Z :=
  coo_sum (coo_row M) (coo_col M) (coo_data M) i j.

(** The result of [M.asformat(format)]: the format name with the content
    it was converted from. *)
Record sparse : Type := Sparse {
  format : string;
  content : coo_matrix
}.

(** Unpacking the transposed sequence of triples, [a, b, c = zip(...)],
    fails when there is no triple. *)
Definition msg_unpack : string := "need more than 0 values to unpack".

Definition unzip3 {A B C} (l : list (A * B * C)) : py (list A * list B * list C) :=
  match l with
  | [] => py_raise (ValueError msg_unpack)
  | _ => py_ret (map (λ t, t.1.1) l, map (λ t, t.1.2) l, map (λ t, t.2) l)
  end.

Definition unzip2 {A B} (l : list (A * B)) : py (list A * list B) :=
  match l with
  | [] => py_raise (ValueError msg_unpack)
  | _ => py_ret (map fst l, map snd l)
  end.

(** [((index[u], index[v], d.get(weight, 1)) for u, v, d in es
      if u in index and v in index)] *)
Definition index_triples (index : gmap node nat) (weight : option string)
    (es : list edge) : list (nat * nat * Z) :=
  flat_map (λ e : edge,
    let '(u, v, d) := e in
    match index !! u, index !! v with
    | Some i, Some j => [(i, j, attrs_get d weight 1)]
    | _, _ => []
    end) es.

(** [((index[u], -d.get(weight, 1)) for u, v, d in selfloops
      if u in index and v in index)] *)
Definition diag_pairs (index : gmap node nat) (weight : option string)
    (selfloops : list edge) : list (nat * Z) :=
  flat_map (λ e : edge,
    let '(u, v, d) := e in
    match index !! u, index !! v with
    | Some i, Some _ => [(i, - attrs_get d weight 1)]
    | _, _ => []
    end) selfloops.

Definition msg_empty : string := "Graph has no nodes or edges".
Definition msg_format : string := "Unknown sparse matrix format: ".

Section Sparse.

(** The formats [fmt] for which the sparse-matrix library has a converter
  ([M.asformat(fmt)] looks up the method ['to' + fmt] and fails with an
  [AttributeError] when there is none). *)
Variable has_converter : string → bool.

(** [sparse.coo_matrix((data, (row, col)), shape=(nlen, nlen))] *)
Definition sparse_coo_matrix (data : list Z) (row col : list nat) (nlen : nat)
  : py coo_matrix :=
py_alloc (Coo (nlen, nlen) row col data).

(** Everything before the final [asformat]. *)
Definition to_scipy_sparse_coo (G : graph) (nodelist : option (list node))
  (weight : option string) : py coo_matrix :=
let nodelist := match nodelist with None => nodes G | Some l => l end in
let nlen := length nodelist in
if decide (nlen = 0%nat) then py_raise (NetworkXError msg_empty)
else if decide (length nodelist ≠ size (list_to_set nodelist : gset node)) then
  py_raise (NetworkXError msg_ambiguous)
else
  let index := dict_zip nodelist (seq 0 nlen) in
  do rcd <- (if decide (number_of_edges G = 0%nat) then py_ret ([], [], [])
             else unzip3 (index_triples index weight
                            (edges_iter G (Some nodelist))));
  let '(row, col, data) := rcd in
  if is_directed G then sparse_coo_matrix data row col nlen
  else
    let d := data ++ data in
    let r := row ++ col in
    let c := col ++ row in
    let selfloops := selfloop_edges G in
    do drc <- (match selfloops with
               | [] => py_ret (d, r, c)
               | _ =>
                   do dd <- unzip2 (diag_pairs index weight selfloops);
                   let '(diag_index, diag_data) := dd in
                   py_ret (d ++ diag_data, r ++ diag_index, c ++ diag_index)
               end);
    let '(d, r, c) := drc in
    sparse_coo_matrix d r c nlen.

Definition to_scipy_sparse_matrix (G : graph) (nodelist : option (list node))
  (weight : option string) (fmt : string) : py sparse :=
do M <- to_scipy_sparse_coo G nodelist weight;
if has_converter fmt then py_ret (Sparse fmt M)
else py_raise (NetworkXError (msg_format +:+ fmt)).

End Sparse.

(** The formats the docstring of [to_scipy_sparse_matrix] lists. *)
Definition documented_formats (fmt : string) : bool :=
  bool_decide (fmt ∈ ["bsr"; "csr"; "csc"; "coo"; "lil"; "dia"; "dok"]).

(** ** Building a graph *)

(** Modelled from the spec: [_prep_create_using] lives in
    [networkx.convert], outside the sources at hand.  It returns an empty
    graph of the class of [create_using], a plain undirected [Graph] when
    [create_using] is [None]. *)
Definition _prep_create_using (create_using : option graph) : graph :=
  match create_using with
  | None => Graph false false [] []
  | Some G => Graph (is_directed G) (is_multigraph G) [] []
  end.

(** [G.add_node(n)], [G.add_nodes_from(ns)] *)
Definition add_node (ns : list node) (n : node) : list node :=
  if decide (n ∈ ns) then ns else ns ++ [n].

Definition add_nodes_from (G : graph) (ns : list node) : graph :=
  Graph (is_directed G) (is_multigraph G) (foldl add_node (nodes G) ns) (edges G).

(** Whether the stored edge [e] joins [u] and [v]: in that order for a
    directed graph, in either order for an undirected one. *)
Definition joins (directed : bool) (u v : node) (e : edge) : bool :=
  bool_decide (e.1.1 = u ∧ e.1.2 = v)
  || (negb directed && bool_decide (e.1.1 = v ∧ e.1.2 = u)).

(** [G.add_edge(u, v, attr_dict)]: a multigraph gets a new parallel edge; a
    simple graph updates the data of the edge that is already there. *)
Definition add_edge (G : graph) (t : edge) : graph :=
  let '(u, v, dd) := t in
  let ns := add_node (add_node (nodes G) u) v in
  if is_multigraph G then
    Graph (is_directed G) (is_multigraph G) ns (edges G ++ [t])
  else if existsb (joins (is_directed G) u v) (edges G) then
    Graph (is_directed G) (is_multigraph G) ns
          (map (λ e : edge, if joins (is_directed G) u v e
                            then (e.1.1, e.1.2, dd ∪ e.2) else e) (edges G))
  else Graph (is_directed G) (is_multigraph G) ns (edges G ++ [t]).

Definition add_edges_from (G : graph) (ebunch : list edge) : graph :=
  foldl add_edge G ebunch.

(** [G.add_weighted_edges_from(ebunch, weight=name)] *)
Definition add_weighted_edges_from (G : graph) (ebunch : list (node * node * Z))
    (name : string) : graph :=
  add_edges_from G (map (λ t, (t.1.1, t.1.2, {[name := t.2]})) ebunch).

(** ** [from_numpy_matrix] *)

(** The element kinds of a numeric array.  String and compound kinds
    (['S'], ['U'], ['V']) hold no numbers and are left out; [kind_other]
    is a kind character outside the table [kind_to_python_type]. *)
Inductive dtype_kind : Type :=
  | kind_f
  | kind_i
  | kind_u
  | kind_b
  | kind_c
  | kind_other (k : string).

Global Instance dtype_kind_eq_dec : EqDecision dtype_kind.
Proof. solve_decision. Defined.

Inductive python_type : Type :=
  | py_float
  | py_int
  | py_bool
  | py_complex.

Global Instance python_type_eq_dec : EqDecision python_type.
Proof. solve_decision. Defined.

Definition kind_to_python_type (k : dtype_kind) : option python_type :=
  match k with
  | kind_f => Some py_float
  | kind_i => Some py_int
  | kind_u => Some py_int
  | kind_b => Some py_bool
  | kind_c => Some py_complex
  | kind_other _ => None
  end.

(** [python_type(x)] on an integer-valued element.  [complex(x)] is the
    number [x] again, but as a Python object it is not a real number:
    [to_numpy_matrix] cannot store it in its real matrix, so a graph
    decoded from a complex array is not a graph the encoders are stated
    on. *)
Definition cast (t : python_type) (x : Z) : Z :=
  match t with
  | py_bool => if decide (x = 0) then 0 else 1
  | _ => x
  end.

Record ndarray : Type := Ndarray {
  kind : dtype_kind;
  entries : list (list Z)
}.

(** [A.shape] of a two-dimensional array. *)
Definition shape (A : ndarray) : nat * nat :=
  (length (entries A),
   match entries A with
   | [] => 0%nat
   | row :: _ => length row
   end).

(** [A[u, v]] *)
Definition entry (A : ndarray) (u v : nat) : Z :=
  match entries A !! u with
  | Some row => default 0 (row !! v)
  | None => 0
  end.

(** The pairs zipped from [np.asarray(A).nonzero()]: the positions of the
    nonzero entries, row by row. *)
Definition nonzero (A : ndarray) : list (nat * nat) :=
  flat_map (λ u, flat_map (λ v, if decide (entry A u v = 0) then []
                                else [(u, v)])
                          (seq 0 (shape A).2))
           (seq 0 (shape A).1).

Definition msg_not_square : string := "Adjacency matrix is not square.".
Definition msg_dtype : string := "Unknown numpy data type: ".

Definition from_numpy_matrix (A : ndarray) (parallel_edges : bool)
    (create_using : option graph) : py graph :=
  let G := _prep_create_using create_using in
  let '(n, m) := shape A in
  if decide (n ≠ m) then py_raise (NetworkXError msg_not_square)
  else
    do python_type <- match kind_to_python_type (kind A) with
                      | Some t => py_ret t
                      | None => py_raise (TypeError msg_dtype)
                      end;
    let G := add_nodes_from G (seq 0 n) in
    let edges := nonzero A in
    let triples : list edge :=
      if bool_decide (python_type = py_int) && is_multigraph G && parallel_edges
      then flat_map (λ uv : nat * nat,
                       replicate (Z.to_nat (entry A uv.1 uv.2))
                                 (uv.1, uv.2, {["weight" := 1]})) edges
      else map (λ uv : nat * nat,
                  (uv.1, uv.2, {["weight" := cast python_type (entry A uv.1 uv.2)]}))
               edges in
    let triples :=
      if is_multigraph G && negb (is_directed G)
      then filter (λ t : edge, (t.1.1 ≤ t.1.2)%nat) triples
      else triples in
    py_ret (add_edges_from G triples).

(** ** [from_scipy_sparse_matrix] *)

(** The storage layouts of a sparse matrix.  A matrix in any other format
    comes with the coordinate triples [A.tocoo()] converts it to. *)
Inductive layout : Type :=
  | CSR (data : list Z) (indices indptr : list nat)
  | CSC (data : list Z) (indices indptr : list nat)
  | DOK (items : list (nat * nat * Z))
  | COO (row col : list nat) (data : list Z)
  | OtherFormat (name : string) (row col : list nat) (data : list Z).

Record spmatrix : Type := Spmatrix {
  sp_shape : nat * nat;
  sp_kind : dtype_kind;
  sp_layout : layout
}.

(** Reading [xs[j]] inside a generator: out of range raises [IndexError]. *)
Definition at_index {A} (xs : list A) (j : nat) : py A :=
  match xs !! j with
  | Some x => py_ret x
  | None => py_raise IndexError
  end.

(** A generator, run to the end: the list of what each element yields. *)
Fixpoint py_chain {A B} (l : list A) (f : A → py (list B)) : py (list B) :=
  match l with
  | [] => py_ret []
  | a :: l' => do xs <- f a; do ys <- py_chain l' f; py_ret (xs ++ ys)
  end.

Definition _csr_gen_triples (nrows : nat) (data : list Z) (indices indptr : list nat)
    : py (list (nat * nat * Z)) :=
  py_chain (seq 0 nrows) (λ i,
    do lo <- at_index indptr i;
    do hi <- at_index indptr (i + 1);
    py_chain (seq lo (hi - lo)) (λ j,
      do c <- at_index indices j;
      do x <- at_index data j;
      py_ret [(i, c, x)])).

Definition _csc_gen_triples (ncols : nat) (data : list Z) (indices indptr : list nat)
    : py (list (nat * nat * Z)) :=
  py_chain (seq 0 ncols) (λ i,
    do lo <- at_index indptr i;
    do hi <- at_index indptr (i + 1);
    py_chain (seq lo (hi - lo)) (λ j,
      do r <- at_index indices j;
      do x <- at_index data j;
      py_ret [(r, i, x)])).

Definition _coo_gen_triples (row col : list nat) (data : list Z)
    : list (nat * nat * Z) :=
  zip (zip row col) data.

Definition _dok_gen_triples (items : list (nat * nat * Z)) : list (nat * nat * Z) :=
  items.

Definition _generate_weighted_edges (A : spmatrix) : py (list (nat * nat * Z)) :=
  match sp_layout A with
  | CSR data indices indptr => _csr_gen_triples (sp_shape A).1 data indices indptr
  | CSC data indices indptr => _csc_gen_triples (sp_shape A).2 data indices indptr
  | DOK items => py_ret (_dok_gen_triples items)
  | COO row col data => py_ret (_coo_gen_triples row col data)
  | OtherFormat _ row col data => py_ret (_coo_gen_triples row col data)
  end.

Definition from_scipy_sparse_matrix (A : spmatrix) (parallel_edges : bool)
    (create_using : option graph) (edge_attribute : string) : py graph :=
  let G := _prep_create_using create_using in
  let '(n, m) := sp_shape A in
  if decide (n ≠ m) then py_raise (NetworkXError msg_not_square)
  else
    let G := add_nodes_from G (seq 0 n) in
    do triples <- _generate_weighted_edges A;
    let triples :=
      if bool_decide (sp_kind A = kind_i ∨ sp_kind A = kind_u)
         && is_multigraph G && parallel_edges
      then flat_map (λ t : nat * nat * Z,
                       replicate (Z.to_nat t.2) (t.1.1, t.1.2, 1)) triples
      else triples in
    let triples :=
      if is_multigraph G && negb (is_directed G)
      then filter (λ t : nat * nat * Z, (t.1.1 ≤ t.1.2)%nat) triples
      else triples in
    py_ret (add_weighted_edges_from G triples edge_attribute).

(** * Definitions used to state the properties *)

(** ** The error kinds of the specification *)

Inductive error_kind : Type :=
  | AmbiguousOrderingError
  | NonSquareMatrixError
  | UnsupportedForMultigraphError
  | UnknownReducerError
  | EmptyGraphError
  | UnknownElementTypeError
  | MissingFieldError.

(** Which listed kind an exception of the module stands for, if any. *)
Definition error_kind_of (e : exn) : option error_kind :=
  match e with
  | NetworkXError msg =>
      if decide (msg = msg_ambiguous) then Some AmbiguousOrderingError
      else if decide (msg = msg_not_square) then Some NonSquareMatrixError
      else if decide (msg = msg_empty) then Some EmptyGraphError
      else None
  | NetworkXNotImplemented _ => Some UnsupportedForMultigraphError
  | ValueError msg =>
      if decide (msg = msg_reducer) then Some UnknownReducerError else None
  | TypeError _ => Some UnknownElementTypeError
  | KeyError _ => Some MissingFieldError
  | IndexError => None
  end.

(** ** Graphs as the container keeps them *)

(** Node identifiers are unique and every edge joins two nodes of the
    graph. *)
Definition graph_wf (G : graph) : Prop :=
  NoDup (nodes G) ∧ ∀ e : edge, e ∈ edges G → e.1.1 ∈ nodes G ∧ e.1.2 ∈ nodes G.

(** The edges stored from [u] to [v], in that order. *)
Definition edges_at (G : graph) (u v : node) : list edge :=
  filter (λ e : edge, e.1.1 = u ∧ e.1.2 = v) (edges G).

(** [G[u][v]]: the edges joining [u] and [v]. *)
Definition edges_between (G : graph) (u v : node) : list edge :=
  filter (λ e : edge, joins (is_directed G) u v e = true) (edges G).

Arguments edges_at G (u v)%_nat_scope.
Arguments edges_between G (u v)%_nat_scope.

(** The subgraph induced by the nodes of [nl]. *)
Definition induced (G : graph) (nl : list node) : graph :=
  Graph (is_directed G) (is_multigraph G)
        (filter (λ n, n ∈ nl) (nodes G))
        (filter (λ e : edge, e.1.1 ∈ nl ∧ e.1.2 ∈ nl) (edges G)).

(** An edge of weight 1 from [u] to [v]: [(u, v, dict(weight=1))]. *)
Definition unit_edge (u v : node) : edge := (u, v, {["weight" := 1]}).
Arguments unit_edge (u v)%_nat_scope.
Arguments entry A (u v)%_nat_scope.

(** The triples the expansion of [from_numpy_matrix] emits for the cell
    [(u, v)]. *)
Definition cell_edges (A : ndarray) (u v : nat) : list edge :=
  replicate (Z.to_nat (entry A u v)) (unit_edge u v).

(** The multigraph classes, empty. *)
Definition MultiGraph : graph := Graph false true [] [].
Definition MultiDiGraph : graph := Graph true true [] [].

(** Matrices of integers, as the docstrings print them. *)
Definition mat (rows : list (list Z)) : matrix := map (map fin) rows.

(** The attribute dictionary [{'weight': z}]. *)
Definition weighted (z : Z) : gmap string Z := {["weight" := z]}.

(** The graph of the docstring example: [add_edge(0,1,weight=2)],
    [add_edge(1,0)], [add_edge(2,2,weight=3)], [add_edge(2,2)]. *)
Definition example_multidigraph : graph :=
  add_edges_from MultiDiGraph
    [(0, 1, weighted 2); (1, 0, ∅); (2, 2, weighted 3); (2, 2, ∅)]%nat.

(** An [n] by [n] array. *)
Definition square (n : nat) (M : matrix) : Prop :=
  length M = n ∧ ∀ i row, M !! i = Some row → length row = n.

(** [d.get(weight, 1)] for the data [d] of the edge [e]. *)
Definition edge_weight (weight : option string) (e : edge) : Z :=
  attrs_get e.2 weight 1.

(** What the multigraph loop does to the cell [(i, j)] when it meets the
    edge [e]. *)
Definition multi_cell (index : gmap node nat) (op : list cell → cell)
    (weight : option string) (undirected : bool) (i j : nat)
    (c : cell) (e : edge) : cell :=
  if decide ((index !! e.1.1 = Some i ∧ index !! e.1.2 = Some j)
             ∨ (undirected = true
                ∧ index !! e.1.1 = Some j ∧ index !! e.1.2 = Some i))
  then op [fin (edge_weight weight e); c]
  else c.

(** The invariant of the undirected multigraph loop. *)
Definition symmetric (M : matrix) : Prop :=
  ∀ i j, getitem M i j = getitem M j i.

(** What the simple-graph loop does to the cell [(i, j)] when it meets
    the neighbour entry [e.1.2] of [e.1.1]. *)
Definition simple_cell (index : gmap node nat) (weight : option string)
    (i j : nat) (c : cell) (e : edge) : cell :=
  if decide (index !! e.1.1 = Some i ∧ index !! e.1.2 = Some j)
  then fin (edge_weight weight e)
  else c.

(** The adjacency structure of a graph, flattened: the entry [(v, d)] of
    [G.adj[u]] as the triple [(u, v, d)]. *)
Definition adj_flat (G : graph) : list edge :=
  flat_map (λ n, map (λ p : node * gmap string Z, (n, p.1, p.2)) (adj G n))
           (nodes G).

(** The node ordering of a call. *)
Definition ordering (G : graph) (nodelist : option (list node)) : list node :=
  match nodelist with None => nodes G | Some l => l end.

(** The cell [(i, j)] before nonedges are filled in. *)
Definition raw_cell (G : graph) (nl : list node) (op : list cell → cell)
    (weight : option string) (i j : nat) : cell :=
  let index := dict_zip nl (seq 0 (length nl)) in
  if is_multigraph G then
    foldl (multi_cell index op weight (negb (is_directed G)) i j) nan
          (edges_iter G None)
  else foldl (simple_cell index weight i j) nan (adj_flat G).

(** The graph with the nodes satisfying [R] and the edges satisfying [Q]. *)
Definition restrict (R : node → Prop) `{!∀ x, Decision (R x)}
    (Q : edge → Prop) `{!∀ e, Decision (Q e)} (G : graph) : graph :=
  Graph (is_directed G) (is_multigraph G)
        (filter R (nodes G)) (filter Q (edges G)).

(** The graph without the self-loops at [u]. *)
Definition remove_selfloops_at (u : node) (G : graph) : graph :=
  Graph (is_directed G) (is_multigraph G) (nodes G)
        (filter (λ e : edge, ¬ (e.1.1 = u ∧ e.1.2 = u)) (edges G)).

(** [nx.Graph([(1, 1)])] *)
Definition example_selfloop_graph : graph :=
  add_edges_from (Graph false false [] []) [(1, 1, ∅)]%nat.

(** [combine]: the reducer applied edge after edge, starting from an unset
    cell. *)
Definition combine (op : list cell → cell) (ws : list Z) : cell :=
  foldl (λ c x, op [fin x; c]) nan ws.

(** The sum of a list of values. *)
Definition zsum (l : list Z) : Z := foldr Z.add 0 l.

(** The positions and values of a list of edges whose endpoints are all
    in the ordering. *)
Definition edge_rows (index : gmap node nat) (es : list edge) : list nat :=
  map (λ e : edge, index !!! e.1.1) es.
Definition edge_cols (index : gmap node nat) (es : list edge) : list nat :=
  map (λ e : edge, index !!! e.1.2) es.
Definition edge_data (weight : option string) (es : list edge) : list Z :=
  map (edge_weight weight) es.

(** The class of the graph [from_numpy_matrix] builds: the flags of
    [create_using], those of a plain [Graph] when it is [None]. *)
Definition target_directed (create_using : option graph) : bool :=
  is_directed (_prep_create_using create_using).
Definition target_multigraph (create_using : option graph) : bool :=
  is_multigraph (_prep_create_using create_using).

(** The edge triples [from_numpy_matrix] hands to [add_edges_from], for an
    array whose kind maps to the Python type [t]. *)
Definition decoded_triples (A : ndarray) (t : python_type)
    (multigraph directed parallel_edges : bool) : list edge :=
  let triples :=
    if bool_decide (t = py_int) && multigraph && parallel_edges
    then flat_map (λ uv : nat * nat,
                     replicate (Z.to_nat (entry A uv.1 uv.2))
                               (uv.1, uv.2, {["weight" := 1]})) (nonzero A)
    else map (λ uv : nat * nat,
                (uv.1, uv.2, {["weight" := cast t (entry A uv.1 uv.2)]}))
             (nonzero A) in
  if multigraph && negb directed
  then filter (λ e : edge, (e.1.1 ≤ e.1.2)%nat) triples
  else triples.

(** What [sum], [min] and [max] make of the weights [w :: ws]. *)
Definition reducer_value (f : pyfun) (w : Z) (ws : list Z) : Z :=
  match f with
  | py_sum => w + zsum ws
  | py_min => foldr Z.min w ws
  | py_max => foldr Z.max w ws
  | py_other _ => w
  end.


(** A triple with row and column exchanged. *)
Definition transpose_triple (t : nat * nat * Z) : nat * nat * Z :=
  (t.1.2, t.1.1, t.2).

(** The arrays of a compressed matrix with [n] rows (or columns): [indptr]
    has [n + 1] entries, starts at 0, does not decrease and ends at the
    number of stored values. *)
Definition compressed_wf (n : nat) (data : list Z) (indices indptr : list nat)
    : Prop :=
  length indptr = S n
  ∧ indptr !! 0%nat = Some 0%nat
  ∧ (∀ i lo hi, indptr !! i = Some lo → indptr !! S i = Some hi → (lo ≤ hi)%nat)
  ∧ indptr !! n = Some (length data)
  ∧ length indices = length data.

(** The triples of [ts] stored for the position [(i, j)], in order. *)
Definition stored_at (ts : list (nat * nat * Z)) (i j : nat)
    : list (nat * nat * Z) :=
  filter (λ t : nat * nat * Z, t.1.1 = i ∧ t.1.2 = j) ts.

(** The triples of [ts] stored for the position [(i, j)] or [(j, i)], in
    order. *)
Definition stored_between (ts : list (nat * nat * Z)) (i j : nat)
    : list (nat * nat * Z) :=
  filter (λ t : nat * nat * Z,
            (t.1.1 = i ∧ t.1.2 = j) ∨ (t.1.1 = j ∧ t.1.2 = i)) ts.

(** ** Structured arrays, cell by cell *)

(** The tuple [attrs[n] for n in names] of an edge that has every field. *)
Definition fields (names : list string) (attrs : gmap string Z) : list Z :=
  map (λ n, default 0 (attrs !! n)) names.

Definition rec_square (n : nat) (M : recarray) : Prop :=
  length M = n ∧ ∀ i row, M !! i = Some row → length row = n.

Definition rec_symmetric (M : recarray) : Prop :=
  ∀ i j, rec_getitem M i j = rec_getitem M j i.

(** What the loop of [to_numpy_recarray] does to the matrix when it meets
    an edge whose fields are all there. *)
Definition rec_step (index : gmap node nat) (nodeset : gset node)
    (names : list string) (undirected : bool) (M : recarray) (e : edge)
    : recarray :=
  let '(u, v, attrs) := e in
  if decide (u ∈ nodeset ∧ v ∈ nodeset) then
    match index !! u, index !! v with
    | Some i, Some j =>
        let M1 := rec_setitem M i j (fields names attrs) in
        if undirected then rec_setitem M1 j i (rec_getitem M1 i j) else M1
    | _, _ => M
    end
  else M.

(** What that loop does to the cell [(i, j)]. *)
Definition rec_cell (index : gmap node nat) (names : list string)
    (undirected : bool) (i j : nat) (c : list Z) (e : edge) : list Z :=
  if decide ((index !! e.1.1 = Some i ∧ index !! e.1.2 = Some j)
             ∨ (undirected = true
                ∧ index !! e.1.1 = Some j ∧ index !! e.1.2 = Some i))
  then fields names e.2
  else c.

(** * Properties *)

(** ** The duplicate check of NodeIndex *)

Lemma size_list_to_set_le (l : list node) :
  (size (list_to_set l : gset node) ≤ length l)%nat.
Proof.
  induction l as [|x l IH]; [done|].
  rewrite list_to_set_cons. cbn [length].
  destruct (decide (x ∈ (list_to_set l : gset node))) as [Hin|Hin].
  - assert ({[x]} ∪ list_to_set l = (list_to_set l : gset node)) as ->
      by set_solver.
    lia.
  - rewrite size_union by set_solver. rewrite size_singleton. lia.
Qed.

Lemma dup_check_iff (l : list node) :
  length l ≠ size (list_to_set l : gset node) ↔ ¬ NoDup l.
Proof.
  split.
  - intros Hne Hnd. apply Hne. symmetry. by apply size_list_to_set.
  - intros Hdup Heq. apply Hdup. clear Hdup.
    induction l as [|x l IH]; [constructor|].
    rewrite list_to_set_cons in Heq. cbn [length] in Heq.
    destruct (decide (x ∈ (list_to_set l : gset node))) as [Hin|Hin].
    + exfalso.
      assert ({[x]} ∪ list_to_set l = (list_to_set l : gset node)) as Hu
        by set_solver.
      rewrite Hu in Heq.
      pose proof (size_list_to_set_le l). lia.
    + rewrite size_union in Heq by set_solver.
      rewrite size_singleton in Heq.
      constructor; [set_solver|]. apply IH. lia.
Qed.

Lemma dup_check_false (l : list node) :
  NoDup l → ¬ (length l ≠ size (list_to_set l : gset node)).
Proof. intros Hnd Hne. by apply dup_check_iff in Hne. Qed.

(** ** Ambiguous orderings *)

Lemma to_numpy_matrix_ambiguous G nl f weight nonedge :
  ¬ NoDup nl →
  run (to_numpy_matrix G (Some nl) f weight nonedge)
  = (0%nat, Raise (NetworkXError msg_ambiguous)).
Proof.
  intros Hdup. apply dup_check_iff in Hdup.
  unfold to_numpy_matrix. by rewrite decide_True.
Qed.

Lemma to_scipy_sparse_coo_ambiguous G nl weight :
  ¬ NoDup nl →
  run (to_scipy_sparse_coo G (Some nl) weight)
  = (0%nat, Raise (NetworkXError msg_ambiguous)).
Proof.
  intros Hdup. unfold to_scipy_sparse_coo.
  rewrite decide_False.
  - apply dup_check_iff in Hdup. by rewrite decide_True.
  - intros Hlen. apply Hdup. destruct nl; [constructor|discriminate].
Qed.

Lemma to_numpy_recarray_ambiguous G nl names :
  ¬ NoDup nl →
  run (to_numpy_recarray G (Some nl) names)
  = (0%nat, Raise (if is_multigraph G then NetworkXNotImplemented msg_multigraph
                   else NetworkXError msg_ambiguous)).
Proof.
  intros Hdup. apply dup_check_iff in Hdup.
  unfold to_numpy_recarray, not_implemented_for_multigraph.
  destruct (is_multigraph G); [done|]. by rewrite decide_True.
Qed.

(** C5, as amended.  For every node ordering [nl] with a repeated
    identifier the length of [nl] differs from the size of its set of
    elements, and the dense and the sparse encode of any graph raise the
    ambiguous-ordering error with no matrix allocated.  The structured
    encode does the same on a graph that is not a multigraph; on a
    multigraph its guard [not_implemented_for('multigraph')] fails first. *)
Theorem ambiguous_ordering_rejected (has_converter : string → bool)
    (G : graph) (nl : list node) (f : pyfun) (weight : option string)
    (nonedge : cell) (names : list string) (fmt : string) :
  ¬ NoDup nl →
  length nl ≠ size (list_to_set nl : gset node)
  ∧ error_kind_of (NetworkXError msg_ambiguous) = Some AmbiguousOrderingError
  ∧ run (to_numpy_matrix G (Some nl) f weight nonedge)
    = (0%nat, Raise (NetworkXError msg_ambiguous))
  ∧ run (to_scipy_sparse_matrix has_converter G (Some nl) weight fmt)
    = (0%nat, Raise (NetworkXError msg_ambiguous))
  ∧ run (to_numpy_recarray G (Some nl) names)
    = (0%nat, Raise (if is_multigraph G
                     then NetworkXNotImplemented msg_multigraph
                     else NetworkXError msg_ambiguous)).
Proof.
  intros Hdup. split; [by apply dup_check_iff|]. split; [done|].
  split; [by apply to_numpy_matrix_ambiguous|]. split.
  - pose proof (to_scipy_sparse_coo_ambiguous G nl weight Hdup) as Hcoo.
    unfold to_scipy_sparse_matrix, run, py_bind in *. by rewrite Hcoo.
  - by apply to_numpy_recarray_ambiguous.
Qed.

Lemma ambiguous_ordering_rejected_witness :
  ¬ NoDup [3; 1; 3]%nat
  ∧ run (to_numpy_matrix (Graph true false [1; 3]%nat [(1, 3, ∅)]%nat)
           (Some [3; 1; 3]%nat) py_sum (Some "weight") (fin 0))
    = (0%nat, Raise (NetworkXError msg_ambiguous)).
Proof.
  assert (¬ NoDup [3; 1; 3]%nat) as Hdup.
  { intros Hnd. apply NoDup_cons_1_1 in Hnd. set_solver. }
  split; [exact Hdup|].
  exact (proj1 (proj2 (proj2
    (ambiguous_ordering_rejected documented_formats
       (Graph true false [1; 3]%nat [(1, 3, ∅)]%nat) [3; 1; 3]%nat
       py_sum (Some "weight") (fin 0) ["weight"] "csr" Hdup)))).
Defined.

(** C5 as stated fails for the structured encode of a multigraph: with the
    ordering [1; 1] it raises the not-implemented error of its guard, not
    the ambiguous-ordering error. *)
Lemma structured_encode_multigraph_counterexample :
  ¬ NoDup [1; 1]%nat
  ∧ run (to_numpy_recarray (Graph false true [1]%nat []) (Some [1; 1]%nat)
           ["weight"])
    = (0%nat, Raise (NetworkXNotImplemented msg_multigraph))
  ∧ run (to_numpy_recarray (Graph false true [1]%nat []) (Some [1; 1]%nat)
           ["weight"])
    ≠ (0%nat, Raise (NetworkXError msg_ambiguous)).
Proof.
  split; [|split].
  - intros Hnd. apply NoDup_cons_1_1 in Hnd. set_solver.
  - reflexivity.
  - discriminate.
Qed.

(** ** Unknown reducers *)

Lemma to_numpy_matrix_simple_any_reducer G nodelist f g weight nonedge :
  is_multigraph G = false →
  to_numpy_matrix G nodelist f weight nonedge
  = to_numpy_matrix G nodelist g weight nonedge.
Proof. intros Hm. unfold to_numpy_matrix. by rewrite Hm. Qed.

Lemma to_numpy_matrix_simple_ok G nodelist f weight nonedge :
  is_multigraph G = false →
  NoDup (match nodelist with None => nodes G | Some l => l end) →
  ∃ M, run (to_numpy_matrix G nodelist f weight nonedge) = (1%nat, Ok M).
Proof.
  intros Hm Hnd. unfold to_numpy_matrix. rewrite Hm.
  rewrite decide_False by by apply dup_check_false.
  eexists. reflexivity.
Qed.

(** C7, as amended.  For every multigraph, every duplicate-free ordering
    and every reducer argument that is not [sum], [min] or [max], dense
    encode raises the unknown-reducer error and returns no matrix.  On a
    graph that is not a multigraph the reducer is never looked up: the
    call returns the matrix it returns with [sum]. *)
Theorem unknown_reducer_rejected (G : graph) (nodelist : option (list node))
    (f : pyfun) (weight : option string) (nonedge : cell) :
  operator f = None →
  NoDup (match nodelist with None => nodes G | Some l => l end) →
  (is_multigraph G = true →
     run (to_numpy_matrix G nodelist f weight nonedge)
     = (1%nat, Raise (ValueError msg_reducer))
     ∧ error_kind_of (ValueError msg_reducer) = Some UnknownReducerError)
  ∧ (is_multigraph G = false →
     ∃ M, run (to_numpy_matrix G nodelist f weight nonedge) = (1%nat, Ok M)
          ∧ run (to_numpy_matrix G nodelist py_sum weight nonedge) = (1%nat, Ok M)).
Proof.
  intros Hop Hnd. split.
  - intros Hm. split; [|done].
    unfold to_numpy_matrix. rewrite Hm.
    rewrite decide_False by by apply dup_check_false.
    unfold run, py_bind, py_alloc. by rewrite Hop.
  - intros Hm.
    destruct (to_numpy_matrix_simple_ok G nodelist f weight nonedge Hm Hnd)
      as [M HM].
    exists M. split; [done|].
    by rewrite (to_numpy_matrix_simple_any_reducer G nodelist py_sum f).
Qed.

Lemma unknown_reducer_rejected_witness :
  run (to_numpy_matrix (Graph true true [0; 1]%nat [(0, 1, ∅)]%nat) None
         (py_other "len") (Some "weight") (fin 0))
  = (1%nat, Raise (ValueError msg_reducer)).
Proof.
  refine (proj1 (proj1 (unknown_reducer_rejected
    (Graph true true [0; 1]%nat [(0, 1, ∅)]%nat) None (py_other "len")
    (Some "weight") (fin 0) _ _) _)).
  - reflexivity.
  - simpl. apply NoDup_cons. split; [set_solver|]. apply NoDup_singleton.
  - reflexivity.
Defined.

(** C7 as stated fails on a graph that is not a multigraph: the reducer
    argument [len] is not looked up and the matrix is returned. *)
Lemma unknown_reducer_simple_graph_counterexample :
  operator (py_other "len") = None
  ∧ run (to_numpy_matrix (Graph false false [1]%nat [(1, 1, ∅)]%nat) None
           (py_other "len") (Some "weight") (fin 0))
    = (1%nat, Ok [[fin 1]]).
Proof. split; [reflexivity|]. vm_compute. reflexivity. Qed.

(** ** Sparse encode: empty graphs and unknown formats *)

Lemma py_bind_run_ok {A B} (c : py A) (f : A → py B) k a :
  run c = (k, Ok a) → run (py_bind c f) = f a k.
Proof. unfold run, py_bind. by intros ->. Qed.

Lemma py_bind_run_raise {A B} (c : py A) (f : A → py B) k e :
  run c = (k, Raise e) → run (py_bind c f) = (k, Raise e).
Proof. unfold run, py_bind. by intros ->. Qed.

Lemma to_scipy_sparse_coo_empty G nodelist weight :
  ordering G nodelist = [] →
  run (to_scipy_sparse_coo G nodelist weight)
  = (0%nat, Raise (NetworkXError msg_empty)).
Proof.
  intros Hn. unfold to_scipy_sparse_coo. fold (ordering G nodelist).
  by rewrite Hn.
Qed.

Lemma to_scipy_sparse_coo_edgeless G nodelist weight :
  ordering G nodelist ≠ [] → NoDup (ordering G nodelist) →
  number_of_edges G = 0%nat →
  run (to_scipy_sparse_coo G nodelist weight)
  = (1%nat, Ok (Coo (length (ordering G nodelist), length (ordering G nodelist))
                    [] [] [])).
Proof.
  intros Hne Hnd He. unfold to_scipy_sparse_coo. fold (ordering G nodelist).
  rewrite decide_False by (by destruct (ordering G nodelist)).
  rewrite decide_False by by apply dup_check_false.
  rewrite decide_True by done.
  assert (edges G = []) as Hes.
  { unfold number_of_edges in He. by destruct (edges G). }
  assert (selfloop_edges G = []) as Hsl.
  { unfold selfloop_edges, adj. rewrite Hes. simpl. clear.
    induction (nodes G) as [|n ns IH]; [done|]. exact IH. }
  rewrite Hsl. by destruct (is_directed G).
Qed.

(** C8.  It is the node ordering of the call that is tested, not
    the graph.  Over a nonempty duplicate-free ordering (by default the
    nodes of the graph), sparse encode of a graph with no edge returns the
    matrix with empty row, column and value sequences, one row per listed
    node.  Over an empty ordering (by default: a graph with no node) it
    raises the empty-graph error, before anything else is looked at. *)
Theorem sparse_encode_edgeless_and_empty (has_converter : string → bool)
    (G : graph) (nodelist : option (list node)) (weight : option string)
    (fmt : string) :
  (ordering G nodelist ≠ [] → NoDup (ordering G nodelist) →
   number_of_edges G = 0%nat →
   has_converter fmt = true →
     run (to_scipy_sparse_matrix has_converter G nodelist weight fmt)
     = (1%nat,
        Ok (Sparse fmt (Coo (length (ordering G nodelist),
                             length (ordering G nodelist)) [] [] []))))
  ∧ (ordering G nodelist = [] →
     run (to_scipy_sparse_matrix has_converter G nodelist weight fmt)
     = (0%nat, Raise (NetworkXError msg_empty))
     ∧ error_kind_of (NetworkXError msg_empty) = Some EmptyGraphError).
Proof.
  split.
  - intros Hne Hnd He Hfmt. unfold to_scipy_sparse_matrix.
    rewrite (py_bind_run_ok _ _ _ _
               (to_scipy_sparse_coo_edgeless G nodelist weight Hne Hnd He)).
    by rewrite Hfmt.
  - intros Hn. split; [|done]. unfold to_scipy_sparse_matrix.
    by rewrite (py_bind_run_raise _ _ _ _
                  (to_scipy_sparse_coo_empty G nodelist weight Hn)).
Qed.

Lemma sparse_encode_edgeless_and_empty_witness :
  run (to_scipy_sparse_matrix documented_formats (Graph false false [4; 7]%nat [])
         None (Some "weight") "csr")
  = (1%nat, Ok (Sparse "csr" (Coo (2%nat, 2%nat) [] [] [])))
  ∧ run (to_scipy_sparse_matrix documented_formats (Graph false false [] [])
         None (Some "weight") "csr")
  = (0%nat, Raise (NetworkXError msg_empty)).
Proof.
  split.
  - refine (proj1 (sparse_encode_edgeless_and_empty documented_formats
      (Graph false false [4; 7]%nat []) None (Some "weight") "csr") _ _ _ _).
    + discriminate.
    + simpl. apply NoDup_cons. split; [set_solver|]. apply NoDup_singleton.
    + reflexivity.
    + reflexivity.
  - refine (proj1 (proj2 (sparse_encode_edgeless_and_empty documented_formats
      (Graph false false [] []) None (Some "weight") "csr") _)).
    reflexivity.
Defined.

(** C8 as stated fails once the ordering is given.  A graph with one
    node and no edge, encoded over the empty ordering, raises the
    empty-graph error instead of returning empty sequences; and a graph
    with no node, encoded over the ordering [5], returns a 1 by 1 matrix
    with empty sequences instead of raising. *)
Lemma sparse_encode_explicit_ordering_counterexample :
  nodes (Graph false false [1]%nat []) ≠ []
  ∧ number_of_edges (Graph false false [1]%nat []) = 0%nat
  ∧ run (to_scipy_sparse_matrix documented_formats (Graph false false [1]%nat [])
           (Some []) (Some "weight") "csr")
    = (0%nat, Raise (NetworkXError msg_empty))
  ∧ nodes (Graph false false [] []) = []
  ∧ run (to_scipy_sparse_matrix documented_formats (Graph false false [] [])
           (Some [5]%nat) (Some "weight") "csr")
    = (1%nat, Ok (Sparse "csr" (Coo (1%nat, 1%nat) [] [] []))).
Proof.
  split; [discriminate|]. split; [reflexivity|].
  split; [vm_compute; reflexivity|]. split; [reflexivity|].
  vm_compute. reflexivity.
Qed.

Lemma msg_format_not_listed fmt :
  error_kind_of (NetworkXError (msg_format +:+ fmt)) = None.
Proof. reflexivity. Qed.

(** C10.  Sparse encode takes a format name.  When the name has no
    converter the call never returns a matrix: once the triple sequences
    are built and the coordinate matrix is made, it raises the error
    "Unknown sparse matrix format", which is none of the listed error
    kinds; an error raised while building the triples is passed on. *)
Theorem unknown_sparse_format_rejected (has_converter : string → bool)
    (G : graph) (nodelist : option (list node)) (weight : option string)
    (fmt : string) :
  has_converter fmt = false →
  (∀ k M, run (to_scipy_sparse_coo G nodelist weight) = (k, Ok M) →
     k = 1%nat
     ∧ run (to_scipy_sparse_matrix has_converter G nodelist weight fmt)
       = (1%nat, Raise (NetworkXError (msg_format +:+ fmt))))
  ∧ (∀ k e, run (to_scipy_sparse_coo G nodelist weight) = (k, Raise e) →
     run (to_scipy_sparse_matrix has_converter G nodelist weight fmt)
     = (k, Raise e))
  ∧ (∀ k S, run (to_scipy_sparse_matrix has_converter G nodelist weight fmt)
            ≠ (k, Ok S))
  ∧ error_kind_of (NetworkXError (msg_format +:+ fmt)) = None.
Proof.
  intros Hfmt.
  assert (∀ k M, run (to_scipy_sparse_coo G nodelist weight) = (k, Ok M) →
                 k = 1%nat) as Hone.
  { intros k M. unfold to_scipy_sparse_coo, run.
    repeat case_decide; try discriminate; unfold py_bind, py_ret, unzip3, unzip2,
      sparse_coo_matrix, py_alloc, py_raise.
    - destruct (is_directed G); [by intros [= <- _]|].
      destruct (selfloop_edges G); [by intros [= <- _]|].
      destruct (diag_pairs _ _ _) as [|? ?]; [discriminate|].
      simpl. by intros [= <- _].
    - destruct (index_triples _ _ _) as [|? ?]; [discriminate|].
      simpl.
      destruct (is_directed G); [by intros [= <- _]|].
      destruct (selfloop_edges G); [by intros [= <- _]|].
      destruct (diag_pairs _ _ _) as [|? ?]; [discriminate|].
      simpl. by intros [= <- _]. }
  split; [|split; [|split]].
  - intros k M HM. pose proof (Hone k M HM) as ->. split; [done|].
    unfold to_scipy_sparse_matrix.
    rewrite (py_bind_run_ok _ _ _ _ HM). by rewrite Hfmt.
  - intros k e He. unfold to_scipy_sparse_matrix.
    by rewrite (py_bind_run_raise _ _ _ _ He).
  - intros k S. unfold to_scipy_sparse_matrix, run, py_bind.
    destruct (to_scipy_sparse_coo G nodelist weight 0%nat) as [k' [M|e]];
      [by rewrite Hfmt|done].
  - apply msg_format_not_listed.
Qed.

Lemma unknown_sparse_format_rejected_witness :
  run (to_scipy_sparse_matrix documented_formats
         (Graph false false [1]%nat [(1, 1, ∅)]%nat) None (Some "weight") "xyz")
  = (1%nat, Raise (NetworkXError "Unknown sparse matrix format: xyz")).
Proof.
  refine (proj2 (proj1 (unknown_sparse_format_rejected documented_formats
    (Graph false false [1]%nat [(1, 1, ∅)]%nat) None (Some "weight") "xyz" _)
    1%nat (Coo (1, 1)%nat [0; 0; 0]%nat [0; 0; 0]%nat [1; 1; -1]) _)).
  - reflexivity.
  - vm_compute. reflexivity.
Defined.

(** ** Lists: filtering and flattening *)

Section list_helpers.
Context {A B : Type}.
Implicit Types (l : list A) (f : A → list B).

Lemma filter_none (P : A → Prop) `{!∀ x, Decision (P x)} l :
  (∀ x, x ∈ l → ¬ P x) → filter P l = [].
Proof.
  induction l as [|a l IH]; intros Hl; [done|].
  rewrite filter_cons_False by (apply Hl; left).
  apply IH. intros x Hx. apply Hl. by right.
Qed.

Lemma filter_all (P : A → Prop) `{!∀ x, Decision (P x)} l :
  (∀ x, x ∈ l → P x) → filter P l = l.
Proof.
  induction l as [|a l IH]; intros Hl; [done|].
  rewrite filter_cons_True by (apply Hl; left).
  f_equal. apply IH. intros x Hx. apply Hl. by right.
Qed.

Lemma filter_replicate (P : A → Prop) `{!∀ x, Decision (P x)} n x :
  filter P (replicate n x) = if decide (P x) then replicate n x else [].
Proof.
  destruct (decide (P x)) as [HP|HP].
  - apply filter_all. by intros y [-> _]%elem_of_replicate.
  - apply filter_none. by intros y [-> _]%elem_of_replicate.
Qed.

Lemma filter_flat_map (P : B → Prop) `{!∀ x, Decision (P x)} f l :
  filter P (flat_map f l) = flat_map (λ x, filter P (f x)) l.
Proof.
  induction l as [|a l IH]; [done|].
  simpl. by rewrite filter_app, IH.
Qed.

Lemma flat_map_nil f l :
  (∀ x, x ∈ l → f x = []) → flat_map f l = [].
Proof.
  induction l as [|a l IH]; intros Hl; [done|].
  simpl. rewrite (Hl a) by left. apply IH. intros x Hx. apply Hl. by right.
Qed.

Lemma flat_map_eq f (g : A → list B) l :
  (∀ x, x ∈ l → f x = g x) → flat_map f l = flat_map g l.
Proof.
  induction l as [|a l IH]; intros Hl; [done|].
  simpl. rewrite (Hl a) by left. f_equal. apply IH. intros x Hx.
  apply Hl. by right.
Qed.

(** Only [x] contributes: a duplicate-free list yields [f x] once. *)
Lemma flat_map_select `{!EqDecision A} f l x :
  NoDup l → (∀ y, y ∈ l → y ≠ x → f y = []) →
  flat_map f l = if decide (x ∈ l) then f x else [].
Proof.
  induction l as [|a l IH]; intros Hnd Hl; [done|].
  apply NoDup_cons in Hnd as [Ha Hnd]. simpl.
  destruct (decide (a = x)) as [->|Hne].
  - rewrite decide_True by left.
    rewrite flat_map_nil; [by rewrite app_nil_r|].
    intros y Hy. apply Hl; [by right|]. by intros ->.
  - rewrite (Hl a) by (done || left). simpl.
    rewrite IH by (done || intros; apply Hl; (done || by right)).
    apply decide_ext. rewrite elem_of_cons. naive_solver.
Qed.

Lemma foldl_flat_map {S} (step : S → B → S) f l s :
  foldl step s (flat_map f l) = foldl (λ s x, foldl step s (f x)) s l.
Proof.
  revert s. induction l as [|a l IH]; intros s; [done|].
  simpl. by rewrite foldl_app, IH.
Qed.

Lemma foldl_filter_skip {S} (P : A → Prop) `{!∀ x, Decision (P x)}
    (step : S → A → S) l s :
  (∀ s x, ¬ P x → step s x = s) →
  foldl step s (filter P l) = foldl step s l.
Proof.
  intros Hskip. revert s. induction l as [|a l IH]; intros s; [done|].
  destruct (decide (P a)) as [HP|HP].
  - rewrite filter_cons_True by done. simpl. apply IH.
  - rewrite filter_cons_False by done. simpl. by rewrite (Hskip s a).
Qed.
End list_helpers.

Lemma foldl_ext_in {A S} (f g : S → A → S) (l : list A) (s : S) :
  (∀ s x, x ∈ l → f s x = g s x) → foldl f s l = foldl g s l.
Proof.
  revert s. induction l as [|a l IH]; intros s Hl; [done|].
  simpl. rewrite (Hl s a) by left. apply IH. intros s' x Hx. apply Hl. by right.
Qed.

Lemma foldl_map {A B S} (f : S → B → S) (g : A → B) (l : list A) (s : S) :
  foldl f s (map g l) = foldl (λ s x, f s (g x)) s l.
Proof. revert s. induction l as [|a l IH]; intros s; [done|]. apply IH. Qed.

Lemma flat_map_flat_map {A B C} (f : B → list C) (g : A → list B) (l : list A) :
  flat_map f (flat_map g l) = flat_map (λ x, flat_map f (g x)) l.
Proof.
  induction l as [|a l IH]; [done|].
  simpl. by rewrite flat_map_app, IH.
Qed.

Lemma flat_map_seq_select {B} (f : nat → list B) (i a n : nat) :
  (∀ u, u ≠ i → f u = []) →
  flat_map f (seq a n) = if decide (a ≤ i < a + n)%nat then f i else [].
Proof.
  intros Hf. rewrite (flat_map_select f (seq a n) i).
  - apply decide_ext. rewrite elem_of_seq. lia.
  - apply NoDup_seq.
  - intros y _ Hy. by apply Hf.
Qed.

(** ** Adding edges to a multigraph *)

Lemma add_edges_from_multigraph G l :
  is_multigraph G = true →
  edges (add_edges_from G l) = edges G ++ l
  ∧ is_directed (add_edges_from G l) = is_directed G
  ∧ is_multigraph (add_edges_from G l) = true.
Proof.
  unfold add_edges_from. revert G.
  induction l as [|t l IH]; intros G Hm; simpl.
  - by rewrite app_nil_r.
  - destruct t as [[u v] dd].
    destruct (IH (add_edge G (u, v, dd))) as (He & Hd & Hm').
    { unfold add_edge. by rewrite Hm. }
    rewrite He, Hd, Hm'. unfold add_edge. rewrite Hm. simpl.
    by rewrite <- app_assoc.
Qed.

(** ** Decoding with parallel edges *)

Lemma expand_nonzero A :
  flat_map (λ uv : nat * nat,
              replicate (Z.to_nat (entry A uv.1 uv.2))
                        (uv.1, uv.2, {["weight" := 1]})) (nonzero A)
  = flat_map (λ u, flat_map (cell_edges A u) (seq 0 (shape A).2))
             (seq 0 (shape A).1).
Proof.
  unfold nonzero. rewrite flat_map_flat_map.
  apply flat_map_eq. intros u _. rewrite flat_map_flat_map.
  apply flat_map_eq. intros v _. unfold cell_edges, unit_edge.
  case_decide as Hz; simpl; [by rewrite Hz|by rewrite app_nil_r].
Qed.

Lemma filter_cell_edges A u v i j :
  filter (λ e : edge, e.1.1 = i ∧ e.1.2 = j) (cell_edges A u v)
  = if decide (u = i ∧ v = j) then cell_edges A u v else [].
Proof. unfold cell_edges. by rewrite filter_replicate. Qed.

Lemma filter_expand_nonzero A i j :
  (i < (shape A).1)%nat → (j < (shape A).2)%nat →
  filter (λ e : edge, e.1.1 = i ∧ e.1.2 = j)
         (flat_map (λ u, flat_map (cell_edges A u) (seq 0 (shape A).2))
                   (seq 0 (shape A).1))
  = cell_edges A i j.
Proof.
  intros Hi Hj. rewrite filter_flat_map.
  rewrite (flat_map_seq_select _ i).
  - rewrite decide_True by lia. rewrite filter_flat_map.
    rewrite (flat_map_seq_select _ j).
    + rewrite decide_True by lia. rewrite filter_cell_edges.
      by rewrite decide_True.
    + intros v Hv. rewrite filter_cell_edges.
      rewrite decide_False; [done|]. by intros [_ ?].
  - intros u Hu. rewrite filter_flat_map. apply flat_map_nil.
    intros v _. rewrite filter_cell_edges.
    rewrite decide_False; [done|]. by intros [? _].
Qed.

Lemma elem_of_flat_map {A B} (f : A → list B) (l : list A) (y : B) :
  y ∈ flat_map f l ↔ ∃ x, x ∈ l ∧ y ∈ f x.
Proof.
  induction l as [|a l IH]; simpl.
  - split; [by intros ?%elem_of_nil|]. by intros (x & ?%elem_of_nil & _).
  - rewrite elem_of_app, IH. split.
    + intros [Hy|(x & Hx & Hy)]; [exists a; split; [left|done]|].
      exists x. split; [by right|done].
    + intros (x & [->|Hx]%elem_of_cons & Hy); [by left|].
      right. by exists x.
Qed.

Lemma shape_square_entries A n :
  shape A = (n, n) → (shape A).1 = n ∧ (shape A).2 = n.
Proof. by intros ->. Qed.

(** A multigraph target, an integer matrix and [parallel_edges=True]: the
    graph returned stores, from [i] to [j], the expansion of the cell
    [(i, j)], unless the target is undirected and the cell lies below the
    diagonal. *)
Lemma from_numpy_matrix_parallel_cell A G0 n i j :
  shape A = (n, n) →
  kind_to_python_type (kind A) = Some py_int →
  is_multigraph G0 = true →
  (i < n)%nat → (j < n)%nat →
  ∃ G, run (from_numpy_matrix A true (Some G0)) = (0%nat, Ok G)
       ∧ edges_at G i j
         = if is_directed G0 || bool_decide (i ≤ j)%nat
           then cell_edges A i j else [].
Proof.
  intros Hshape Hkind Hm Hi Hj.
  destruct (shape_square_entries A n Hshape) as [Hn1 Hn2].
  unfold from_numpy_matrix. rewrite Hshape.
  rewrite decide_False by (intros ?; done).
  unfold run, py_bind. rewrite Hkind. simpl.
  rewrite Hm. simpl. eexists. split; [reflexivity|].
  unfold edges_at.
  match goal with
  | |- context [add_edges_from ?G ?l] =>
      destruct (add_edges_from_multigraph G l) as (-> & _ & _); [done|]
  end.
  simpl. rewrite expand_nonzero, Hn1, Hn2.
  pose proof (filter_expand_nonzero A i j) as Hcell.
  rewrite Hn1, Hn2 in Hcell. specialize (Hcell Hi Hj).
  destruct (is_directed G0); simpl; [done|].
  rewrite list_filter_filter.
  case_bool_decide as Hle.
  - rewrite <- Hcell. apply list_filter_iff. intros [[u v] d]; simpl.
    split; [by intros [? _]|]. intros [-> ->]. done.
  - apply filter_none. intros [[u v] d] _; simpl. intros [[-> ->] ?]. done.
Qed.

(** C4, as amended.  Decoding [[1,1],[1,2]] into an undirected multigraph
    gives two parallel self-loops of weight 1 at node 1 with
    [parallel_edges=True] and one self-loop of weight 2 without.  In
    general, for an integer matrix, a multigraph target and
    [parallel_edges=True], the cell [(i, j)] yields as many parallel edges
    of weight 1 from [i] to [j] as its value says (none for a value below
    zero), except that an undirected target takes no edge from a cell
    below the diagonal. *)
Theorem parallel_edges_expansion :
  (let A := Ndarray kind_i [[1; 1]; [1; 2]] in
   (∃ G, run (from_numpy_matrix A true (Some MultiGraph)) = (0%nat, Ok G)
         ∧ edges_between G 1 1 = [unit_edge 1 1; unit_edge 1 1])
   ∧ (∃ G, run (from_numpy_matrix A false (Some MultiGraph)) = (0%nat, Ok G)
           ∧ edges_between G 1 1 = [(1%nat, 1%nat, {["weight" := 2]})]))
  ∧ (∀ (A : ndarray) (G0 : graph) (n i j : nat),
       shape A = (n, n) →
       kind A = kind_i ∨ kind A = kind_u →
       is_multigraph G0 = true →
       (i < n)%nat → (j < n)%nat →
       ∃ G, run (from_numpy_matrix A true (Some G0)) = (0%nat, Ok G)
            ∧ edges_at G i j
              = if is_directed G0 || bool_decide (i ≤ j)%nat
                then replicate (Z.to_nat (entry A i j)) (unit_edge i j)
                else []).
Proof.
  split.
  - split; eexists; (split; [vm_compute; reflexivity|]); vm_compute; reflexivity.
  - intros A G0 n i j Hshape Hkind Hm Hi Hj.
    apply (from_numpy_matrix_parallel_cell A G0 n i j); try done.
    by destruct Hkind as [-> | ->].
Qed.

Lemma parallel_edges_expansion_witness :
  ∃ G, run (from_numpy_matrix (Ndarray kind_i [[0; 3]; [2; 0]]) true
              (Some MultiDiGraph)) = (0%nat, Ok G)
       ∧ edges_at G 1 0 = [unit_edge 1 0; unit_edge 1 0].
Proof.
  refine (proj2 parallel_edges_expansion (Ndarray kind_i [[0; 3]; [2; 0]])
            MultiDiGraph 2%nat 1%nat 0%nat _ _ _ _ _).
  - reflexivity.
  - left. reflexivity.
  - reflexivity.
  - lia.
  - lia.
Defined.

(** C4 as stated fails below the diagonal of an undirected target: the
    cell [(1, 0)] of [[0,1],[3,0]] holds 3, no edge is taken from it, and
    the only edge joining 1 and 0 comes from the cell [(0, 1)]. *)
Lemma parallel_edges_lower_triangle_counterexample :
  let A := Ndarray kind_i [[0; 1]; [3; 0]] in
  entry A 1 0 = 3
  ∧ ∃ G, run (from_numpy_matrix A true (Some MultiGraph)) = (0%nat, Ok G)
         ∧ edges_at G 1 0 = []
         ∧ edges_between G 1 0 = [unit_edge 0 1]
         ∧ edges_between G 1 0 ≠ replicate 3 (unit_edge 1 0).
Proof.
  split; [reflexivity|]. eexists.
  split; [vm_compute; reflexivity|].
  split; [vm_compute; reflexivity|].
  split; [vm_compute; reflexivity|].
  vm_compute. discriminate.
Qed.

(** ** Negative cells *)

Lemma elem_of_nonzero A i j :
  (i, j) ∈ nonzero A
  ↔ (i < (shape A).1)%nat ∧ (j < (shape A).2)%nat ∧ entry A i j ≠ 0.
Proof.
  unfold nonzero. rewrite elem_of_flat_map. split.
  - intros (u & Hu%elem_of_seq & Hin).
    apply elem_of_flat_map in Hin as (v & Hv%elem_of_seq & Hin).
    case_decide; [by apply elem_of_nil in Hin|].
    apply list_elem_of_singleton in Hin as [= -> ->]. split; [lia|]. split; [lia|done].
  - intros (Hi & Hj & Hne). exists i. split; [apply elem_of_seq; lia|].
    apply elem_of_flat_map. exists j. split; [apply elem_of_seq; lia|].
    rewrite decide_False by done. by left.
Qed.

Lemma from_scipy_sparse_matrix_negative_cell S G0 n attr ts i j :
  sp_shape S = (n, n) →
  sp_kind S = kind_i ∨ sp_kind S = kind_u →
  is_multigraph G0 = true →
  run (_generate_weighted_edges S) = (0%nat, Ok ts) →
  (∀ t : nat * nat * Z, t ∈ ts → t.1.1 = i → t.1.2 = j → t.2 < 0) →
  ∃ G, run (from_scipy_sparse_matrix S true (Some G0) attr) = (0%nat, Ok G)
       ∧ edges_at G i j = [].
Proof.
  intros Hshape Hkind Hm Hts Hneg.
  unfold from_scipy_sparse_matrix. rewrite Hshape.
  rewrite decide_False by (intros ?; done).
  rewrite (py_bind_run_ok _ _ _ _ Hts).
  rewrite bool_decide_eq_true_2 by done. simpl. rewrite Hm. simpl.
  eexists. split; [reflexivity|].
  unfold edges_at, add_weighted_edges_from.
  match goal with
  | |- context [add_edges_from ?G ?l] =>
      destruct (add_edges_from_multigraph G l) as (-> & _ & _); [done|]
  end.
  simpl. apply filter_none. intros [[u0 v0] d] Hin [Hu Hv]; simpl in *.
  apply list_elem_of_fmap in Hin as ([[u v] x] & [= -> -> ->] & Hin).
  assert ((u, v, x) ∈ flat_map (λ t : nat * nat * Z,
            replicate (Z.to_nat t.2) (t.1.1, t.1.2, 1)) ts) as Hin'.
  { destruct (negb (is_directed G0)); [|done].
    by apply list_elem_of_filter in Hin as [_ ?]. }
  apply elem_of_flat_map in Hin' as ([[u1 v1] x1] & Ht & Hrep).
  apply elem_of_replicate in Hrep as [[= -> -> ->] Hpos]. simpl in *.
  specialize (Hneg _ Ht Hu Hv). simpl in Hneg. lia.
Qed.

(** C9.  With a multigraph target, an integer matrix and
    [parallel_edges=True], a cell that holds a negative value is listed
    among the nonzero candidates, no error is raised, and the graph
    returned has no edge from that cell.  The same holds for the triples
    of a sparse matrix. *)
Theorem negative_cell_yields_no_edge :
  (∀ (A : ndarray) (G0 : graph) (n i j : nat),
     shape A = (n, n) →
     kind A = kind_i ∨ kind A = kind_u →
     is_multigraph G0 = true →
     (i < n)%nat → (j < n)%nat →
     entry A i j < 0 →
     (i, j) ∈ nonzero A
     ∧ ∃ G, run (from_numpy_matrix A true (Some G0)) = (0%nat, Ok G)
            ∧ edges_at G i j = [])
  ∧ (∀ (S : spmatrix) (G0 : graph) (n i j : nat) (x : Z)
       (ts : list (nat * nat * Z)) (attr : string),
       sp_shape S = (n, n) →
       sp_kind S = kind_i ∨ sp_kind S = kind_u →
       is_multigraph G0 = true →
       run (_generate_weighted_edges S) = (0%nat, Ok ts) →
       (i, j, x) ∈ ts →
       (∀ t : nat * nat * Z, t ∈ ts → t.1.1 = i → t.1.2 = j → t.2 < 0) →
       ∃ G, run (from_scipy_sparse_matrix S true (Some G0) attr) = (0%nat, Ok G)
            ∧ edges_at G i j = []).
Proof.
  split.
  - intros A G0 n i j Hshape Hkind Hm Hi Hj Hneg.
    destruct (shape_square_entries A n Hshape) as [Hn1 Hn2].
    split.
    + apply elem_of_nonzero. rewrite Hn1, Hn2. split; [done|]. split; [done|lia].
    + destruct (from_numpy_matrix_parallel_cell A G0 n i j) as (G & HG & Hat);
        try done.
      { by destruct Hkind as [-> | ->]. }
      exists G. split; [done|]. rewrite Hat. unfold cell_edges.
      replace (Z.to_nat (entry A i j)) with 0%nat by lia.
      by destruct (_ || _).
  - intros S G0 n i j x ts attr Hshape Hkind Hm Hts _ Hneg.
    by apply (from_scipy_sparse_matrix_negative_cell S G0 n attr ts i j).
Qed.

Lemma negative_cell_yields_no_edge_witness :
  ((1%nat, 0%nat) ∈ nonzero (Ndarray kind_i [[0; 1]; [-2; 0]])
   ∧ ∃ G, run (from_numpy_matrix (Ndarray kind_i [[0; 1]; [-2; 0]]) true
                 (Some MultiDiGraph)) = (0%nat, Ok G)
          ∧ edges_at G 1 0 = [])
  ∧ ∃ G, run (from_scipy_sparse_matrix
                (Spmatrix (2, 2)%nat kind_i (CSR [1; -2] [1; 0]%nat [0; 1; 2]%nat))
                true (Some MultiDiGraph) "weight") = (0%nat, Ok G)
         ∧ edges_at G 1 0 = [].
Proof.
  split.
  - refine (proj1 negative_cell_yields_no_edge (Ndarray kind_i [[0; 1]; [-2; 0]])
              MultiDiGraph 2%nat 1%nat 0%nat _ _ _ _ _ _).
    + reflexivity.
    + left. reflexivity.
    + reflexivity.
    + lia.
    + lia.
    + reflexivity.
  - refine (proj2 negative_cell_yields_no_edge
              (Spmatrix (2, 2)%nat kind_i (CSR [1; -2] [1; 0]%nat [0; 1; 2]%nat))
              MultiDiGraph 2%nat 1%nat 0%nat (-2)
              [(0%nat, 1%nat, 1); (1%nat, 0%nat, -2)] "weight" _ _ _ _ _ _).
    + reflexivity.
    + left. reflexivity.
    + reflexivity.
    + reflexivity.
    + right. left.
    + intros t Ht Hi Hj.
      apply elem_of_cons in Ht as [->|Ht]; [discriminate|].
      apply list_elem_of_singleton in Ht as ->. reflexivity.
Defined.

(** ** Dense encode of a multigraph *)

(** ** NodeIndex: the dictionary of positions *)

Lemma dict_zip_list_to_map (ks : list node) (vs : list nat) :
  NoDup ks → length vs = length ks →
  dict_zip ks vs = list_to_map (zip ks vs).
Proof.
  intros Hnd Hlen. unfold dict_zip.
  assert (∀ (l : list (node * nat)) (m : gmap node nat),
            NoDup l.*1 →
            foldl (λ m p, <[p.1 := p.2]> m) m l = list_to_map l ∪ m) as Hgen.
  { induction l as [|[k v] l IH]; intros m Hl; simpl.
    - by rewrite (left_id_L ∅ (∪)).
    - apply NoDup_cons in Hl as [Hk Hl]. rewrite IH by done.
      rewrite <- insert_union_l. symmetry. apply insert_union_r.
      by apply not_elem_of_list_to_map_1. }
  rewrite Hgen.
  - by rewrite (right_id_L ∅ (∪)).
  - rewrite fst_zip by lia. done.
Qed.

Lemma elem_of_zip_seq (ks : list node) (u : node) (i a : nat) :
  (u, i) ∈ zip ks (seq a (length ks)) ↔ (a ≤ i)%nat ∧ ks !! (i - a)%nat = Some u.
Proof.
  revert a. induction ks as [|k ks IH]; intros a; simpl.
  - split; [by intros ?%elem_of_nil|]. by intros [_ ?].
  - rewrite elem_of_cons, IH. split.
    + intros [[= -> ->]|[Hle Hl]].
      * split; [lia|]. by rewrite Nat.sub_diag.
      * split; [lia|]. by replace (i - a)%nat with (S (i - S a)) by lia.
    + intros [Hle Hl]. destruct (decide (i = a)) as [->|Hne].
      * left. rewrite Nat.sub_diag in Hl. simpl in Hl. by injection Hl as ->.
      * right. split; [lia|].
        by replace (i - a)%nat with (S (i - S a)) in Hl by lia.
Qed.

Section node_index.
Variable nl : list node.
Hypothesis nl_nodup : NoDup nl.

Let index : gmap node nat := dict_zip nl (seq 0 (length nl)).

Lemma index_lookup u i : index !! u = Some i ↔ nl !! i = Some u.
Proof.
  unfold index. rewrite dict_zip_list_to_map by (done || by rewrite length_seq).
  rewrite <- elem_of_list_to_map.
  - rewrite elem_of_zip_seq. rewrite Nat.sub_0_r. split; [by intros [_ ?]|].
    intros ?. split; [lia|done].
  - rewrite fst_zip; [done|]. rewrite length_seq. lia.
Qed.

Lemma index_lt u i : index !! u = Some i → (i < length nl)%nat.
Proof. intros Hi%index_lookup. by eapply lookup_lt_Some. Qed.

Lemma index_inj u v i : index !! u = Some i → index !! v = Some i → u = v.
Proof. intros Hu%index_lookup Hv%index_lookup. congruence. Qed.

Lemma index_is_Some u : is_Some (index !! u) ↔ u ∈ nl.
Proof.
  rewrite list_elem_of_lookup. split.
  - intros [i Hi%index_lookup]. by exists i.
  - intros [i Hi%index_lookup]. by exists i.
Qed.

Lemma index_None u : index !! u = None ↔ u ∉ nl.
Proof. rewrite <- index_is_Some, eq_None_not_Some. done. Qed.

Lemma index_nodeset u : u ∈ (list_to_set nl : gset node) ↔ is_Some (index !! u).
Proof. by rewrite index_is_Some, elem_of_list_to_set. Qed.
End node_index.

(** ** Dense arrays: reading and writing cells *)

Lemma square_nan_array n : square n (nan_array n n).
Proof.
  split; [apply length_replicate|].
  intros i row [-> _]%lookup_replicate. apply length_replicate.
Qed.

Lemma square_setitem n M i j x : square n M → square n (setitem M i j x).
Proof.
  intros [Hlen Hrows]. split; [unfold setitem; by rewrite length_alter|].
  intros i' row. unfold setitem.
  destruct (decide (i = i')) as [<-|Hne].
  - rewrite list_lookup_alter_eq.
    destruct (M !! i) as [row0|] eqn:Hrow; [|done].
    intros [= <-]. rewrite length_insert. by eapply Hrows.
  - rewrite list_lookup_alter_ne by done. apply Hrows.
Qed.

Lemma getitem_setitem n M i j x i' j' :
  square n M → (i < n)%nat → (j < n)%nat →
  getitem (setitem M i j x) i' j'
  = if decide (i = i' ∧ j = j') then x else getitem M i' j'.
Proof.
  intros [Hlen Hrows] Hi Hj. unfold getitem, setitem.
  destruct (decide (i = i')) as [<-|Hne].
  - rewrite list_lookup_alter_eq.
    destruct (M !! i) as [row|] eqn:Hrow.
    + simpl. destruct (decide (j = j')) as [<-|Hnej].
      * rewrite decide_True by done.
        rewrite list_lookup_insert_eq; [done|]. by rewrite (Hrows i row).
      * rewrite decide_False by (by intros [_ ?]).
        by rewrite list_lookup_insert_ne.
    + apply lookup_ge_None in Hrow. lia.
  - rewrite list_lookup_alter_ne by done.
    by rewrite decide_False by (by intros [? _]).
Qed.

Lemma getitem_nan_array n i j : getitem (nan_array n n) i j = nan.
Proof.
  unfold getitem, nan_array.
  destruct (replicate n (replicate n nan) !! i) as [row|] eqn:Hrow; [|done].
  apply lookup_replicate in Hrow as [-> _].
  destruct (replicate n nan !! j) as [c|] eqn:Hc; [|done].
  by apply lookup_replicate in Hc as [-> _].
Qed.

Lemma getitem_fill_nan n M nonedge i j :
  square n M → (i < n)%nat → (j < n)%nat →
  getitem (fill_nan nonedge M) i j
  = if isnan (getitem M i j) then nonedge else getitem M i j.
Proof.
  intros [Hlen Hrows] Hi Hj. unfold getitem, fill_nan.
  change (map ?f M) with (f <$> M). rewrite list_lookup_fmap.
  destruct (M !! i) as [row|] eqn:Hrow.
  - simpl. change (map ?f row) with (f <$> row). rewrite list_lookup_fmap.
    destruct (row !! j) as [c|] eqn:Hc; [done|].
    apply lookup_ge_None in Hc. rewrite (Hrows i row) in Hc by done. lia.
  - apply lookup_ge_None in Hrow. lia.
Qed.

(** ** Dense encode, cell by cell *)

Section multi_step.
Variable nl : list node.
Hypothesis nl_nodup : NoDup nl.
Variables (op : list cell → cell) (weight : option string) (undirected : bool).

Let n := length nl.
Let index : gmap node nat := dict_zip nl (seq 0 n).
Let nodeset : gset node := list_to_set nl.
Let step := multi_step index nodeset op weight undirected.

Lemma multi_step_square M e : square n M → square n (step M e).
Proof.
  intros HM. destruct e as [[u v] d]. unfold step, multi_step.
  case_decide; [|done].
  destruct (index !! u) as [i|]; [|done].
  destruct (index !! v) as [j|]; [|done].
  destruct undirected; by repeat apply square_setitem.
Qed.

Lemma multi_step_getitem M e i j :
  square n M → (undirected = true → symmetric M) →
  getitem (step M e) i j
  = multi_cell index op weight undirected i j (getitem M i j) e.
Proof.
  intros HM Hsym. destruct e as [[u v] d].
  unfold step, multi_step, multi_cell, edge_weight. simpl.
  case_decide as Hin.
  - destruct Hin as [Hu%index_nodeset Hv%index_nodeset]; [|done..].
    destruct Hu as [iu Hu], Hv as [iv Hv].
    fold n index in Hu, Hv. rewrite Hu, Hv.
    pose proof (index_lt nl nl_nodup u iu Hu) as Hiu.
    pose proof (index_lt nl nl_nodup v iv Hv) as Hiv.
    fold n in Hiu, Hiv.
    destruct undirected eqn:Hund.
    + rewrite !(getitem_setitem n) by (done || by apply square_setitem).
      rewrite (decide_True (P := iu = iu ∧ iv = iv)) by done.
      destruct (decide (iv = i ∧ iu = j)) as [[-> ->]|Hne1].
      * rewrite decide_True by (right; done).
        by rewrite (Hsym eq_refl i j).
      * destruct (decide (iu = i ∧ iv = j)) as [[-> ->]|Hne2].
        -- by rewrite decide_True by (left; done).
        -- rewrite decide_False; [done|].
           intros [[[= ->] [= ->]]|(_ & [= ->] & [= ->])];
             [by apply Hne2|by apply Hne1].
    + rewrite !(getitem_setitem n) by done.
      destruct (decide (iu = i ∧ iv = j)) as [[-> ->]|Hne].
      * by rewrite decide_True by (left; done).
      * rewrite decide_False; [done|].
        intros [[[= ->] [= ->]]|(? & _)]; [by apply Hne|done].
  - rewrite decide_False; [done|].
    intros [[Hu Hv]|(_ & Hu & Hv)]; apply Hin;
      split; apply (index_nodeset nl nl_nodup); by eapply mk_is_Some.
Qed.

Lemma multi_step_symmetric M e :
  square n M → symmetric M → undirected = true → symmetric (step M e).
Proof.
  intros HM Hsym Hund i j.
  rewrite !multi_step_getitem by done.
  unfold multi_cell. rewrite (Hsym i j).
  apply decide_ext. rewrite Hund. naive_solver.
Qed.

Lemma multi_fold_getitem es M i j :
  square n M → (undirected = true → symmetric M) →
  getitem (foldl step M es) i j
  = foldl (multi_cell index op weight undirected i j) (getitem M i j) es.
Proof.
  revert M. induction es as [|e es IH]; intros M HM Hsym; [done|].
  simpl. rewrite IH.
  - by rewrite multi_step_getitem.
  - by apply multi_step_square.
  - intros Hund. apply multi_step_symmetric; auto.
Qed.
End multi_step.

Section simple_step.
Variable nl : list node.
Hypothesis nl_nodup : NoDup nl.
Variable weight : option string.

Let n := length nl.
Let index : gmap node nat := dict_zip nl (seq 0 n).
Let step (M : matrix) (e : edge) : matrix :=
  simple_step index weight e.1.1 M (e.1.2, e.2).

Lemma simple_step_square M e : square n M → square n (step M e).
Proof.
  intros HM. unfold step, simple_step. simpl.
  destruct (index !! e.1.1) as [i|]; [|done].
  destruct (index !! e.1.2) as [j|]; [|done].
  by apply square_setitem.
Qed.

Lemma simple_step_getitem M e i j :
  square n M →
  getitem (step M e) i j = simple_cell index weight i j (getitem M i j) e.
Proof.
  intros HM. unfold step, simple_step, simple_cell, edge_weight. simpl.
  destruct (index !! e.1.1) as [iu|] eqn:Hu.
  - destruct (index !! e.1.2) as [iv|] eqn:Hv.
    + rewrite (getitem_setitem n); [| done | by eapply index_lt..].
      apply decide_ext. naive_solver.
    + rewrite decide_False; [done|]. by intros [_ ?].
  - rewrite decide_False; [done|]. by intros [? _].
Qed.

Lemma simple_fold_getitem es M i j :
  square n M →
  getitem (foldl step M es) i j
  = foldl (simple_cell index weight i j) (getitem M i j) es.
Proof.
  revert M. induction es as [|e es IH]; intros M HM; [done|].
  simpl. rewrite IH by by apply simple_step_square.
  by rewrite simple_step_getitem.
Qed.

Lemma simple_fold_flat G M :
  foldl (λ M (un : node * list (node * gmap string Z)),
           foldl (simple_step index weight un.1) M un.2) M (adjacency_iter G)
  = foldl step M (adj_flat G).
Proof.
  unfold adjacency_iter, adj_flat. rewrite foldl_flat_map.
  revert M. induction (nodes G) as [|u ns IH]; intros M; [done|].
  simpl. rewrite IH. f_equal.
  generalize (adj G u). intros l. revert M.
  induction l as [|p l IHl]; intros M; [done|].
  simpl. rewrite IHl. by destruct p.
Qed.
End simple_step.

Lemma to_numpy_matrix_run G nodelist f weight nonedge :
  NoDup (ordering G nodelist) →
  (is_multigraph G = true → is_Some (operator f)) →
  ∃ M, run (to_numpy_matrix G nodelist f weight nonedge) = (1%nat, Ok M)
       ∧ ∀ op i j,
           (is_multigraph G = true → operator f = Some op) →
           (i < length (ordering G nodelist))%nat →
           (j < length (ordering G nodelist))%nat →
           getitem M i j
           = let c := raw_cell G (ordering G nodelist) op weight i j in
             if isnan c then nonedge else c.
Proof.
  intros Hnd Hop. unfold to_numpy_matrix. fold (ordering G nodelist).
  set (nl := ordering G nodelist) in *.
  rewrite decide_False by by apply dup_check_false.
  unfold raw_cell. destruct (is_multigraph G) eqn:Hm.
  - destruct Hop as [op0 Hop0]; [done|].
    unfold run, py_bind, py_alloc, py_ret. rewrite Hop0.
    eexists. split; [reflexivity|].
    intros op i j Hop Hi Hj. specialize (Hop eq_refl).
    injection Hop as <-.
    assert (square (length nl)
              (foldl (multi_step (dict_zip nl (seq 0 (length nl)))
                                 (list_to_set nl) op0 weight (negb (is_directed G)))
                     (nan_array (length nl) (length nl)) (edges_iter G None)))
      as Hsq.
    { generalize (square_nan_array (length nl)).
      generalize (nan_array (length nl) (length nl)).
      induction (edges_iter G None) as [|e es IH]; intros M HM; [done|].
      simpl. apply IH. by apply multi_step_square. }
    rewrite (getitem_fill_nan (length nl)) by done.
    rewrite (multi_fold_getitem nl Hnd).
    + by rewrite getitem_nan_array.
    + apply square_nan_array.
    + intros _ i' j'. by rewrite !getitem_nan_array.
  - unfold run, py_bind, py_alloc, py_ret.
    eexists. split; [reflexivity|].
    intros op i j _ Hi Hj. rewrite simple_fold_flat.
    assert (∀ es M, square (length nl) M →
              square (length nl)
                (foldl (λ M (e : edge),
                          simple_step (dict_zip nl (seq 0 (length nl))) weight
                                      e.1.1 M (e.1.2, e.2)) M es)) as Hsq.
    { induction es as [|e es IH]; intros M HM; [done|].
      simpl. apply IH. by apply (simple_step_square nl weight M e). }
    rewrite (getitem_fill_nan (length nl));
      [| apply Hsq, square_nan_array | done..].
    rewrite (simple_fold_getitem nl Hnd).
    + by rewrite getitem_nan_array.
    + apply square_nan_array.
Qed.

(** ** Restricting a graph *)

Lemma flat_map_filter {A B} (R : A → Prop) `{!∀ x, Decision (R x)}
    (f : A → list B) (l : list A) :
  (∀ x, x ∈ l → ¬ R x → f x = []) →
  flat_map f (filter R l) = flat_map f l.
Proof.
  induction l as [|a l IH]; intros Hl; [done|].
  destruct (decide (R a)) as [HR|HR].
  - rewrite filter_cons_True by done. simpl. rewrite IH; [done|].
    intros x Hx. apply Hl. by right.
  - rewrite filter_cons_False by done. simpl.
    rewrite (Hl a) by (done || left). simpl. apply IH.
    intros x Hx. apply Hl. by right.
Qed.

Lemma filter_map_edge (Q : edge → Prop) `{!∀ e, Decision (Q e)} (n : node)
    (l : list (node * gmap string Z)) :
  filter Q (map (λ p : node * gmap string Z, (n, p.1, p.2)) l)
  = map (λ p : node * gmap string Z, (n, p.1, p.2))
        (filter (λ p : node * gmap string Z, Q (n, p.1, p.2)) l).
Proof.
  induction l as [|p l IH]; [done|]. cbn [map].
  rewrite !filter_cons. destruct (decide (Q (n, p.1, p.2))); cbn [map];
    by rewrite IH.
Qed.

Section restrict.
Context (R : node → Prop) `{!∀ x, Decision (R x)}.
Context (Q : edge → Prop) `{!∀ e, Decision (Q e)}.
Hypothesis Q_sym : ∀ a b d, Q (a, b, d) ↔ Q (b, a, d).
Hypothesis Q_R : ∀ a b d, Q (a, b, d) → R a ∧ R b.
Variable G : graph.

Let G' := restrict R Q G.

Lemma adj_restrict n :
  adj G' n = filter (λ p : node * gmap string Z, Q (n, p.1, p.2)) (adj G n).
Proof.
  unfold adj, G', restrict. simpl.
  induction (edges G) as [|[[a b] d] es IH]; [done|].
  cbn [flat_map]. rewrite filter_app, <- IH. clear IH.
  assert (filter (λ p : node * gmap string Z, Q (n, p.1, p.2))
                 (nbrs (is_directed G) n (a, b, d))
          = if decide (Q (a, b, d)) then nbrs (is_directed G) n (a, b, d)
            else []) as ->.
  { unfold nbrs. destruct (decide (a = n)) as [->|Hne].
    - rewrite filter_cons, filter_nil. simpl. by apply decide_ext.
    - destruct (negb (is_directed G) && bool_decide (b = n)) eqn:Hb.
      + apply andb_prop in Hb as [_ ->%bool_decide_eq_true].
        rewrite filter_cons, filter_nil. simpl. apply decide_ext, Q_sym.
      + by destruct (decide _). }
  rewrite filter_cons. by destruct (decide _).
Qed.

Lemma adj_restrict_not_R n : ¬ R n → adj G' n = [].
Proof.
  intros Hn. rewrite adj_restrict. apply filter_none.
  intros p _ HQ. by apply Q_R in HQ as [? _].
Qed.

Lemma adj_flat_restrict : adj_flat G' = filter Q (adj_flat G).
Proof.
  unfold adj_flat. rewrite filter_flat_map.
  change (nodes G') with (filter R (nodes G)).
  rewrite flat_map_filter.
  - apply flat_map_eq. intros n _.
    by rewrite filter_map_edge, adj_restrict.
  - intros n _ Hn. by rewrite adj_restrict_not_R.
Qed.

Lemma edges_seen_restrict ns (seen seen' : gset node) :
  (∀ x, R x → x ∈ seen ↔ x ∈ seen') →
  edges_seen G' (filter R ns) seen' = filter Q (edges_seen G ns seen).
Proof.
  revert seen seen'. induction ns as [|n ns IH]; intros seen seen' Hs; [done|].
  simpl. rewrite filter_app, filter_map_edge.
  destruct (decide (R n)) as [HR|HR].
  - rewrite filter_cons_True by done. simpl.
    rewrite (IH ({[n]} ∪ seen) ({[n]} ∪ seen')) by set_solver.
    f_equal. f_equal. rewrite adj_restrict, !list_filter_filter.
    apply list_filter_iff. intros [v d]. simpl. split.
    + intros [Hv HQ]. split; [done|].
      apply Q_R in HQ as HRv. destruct HRv as [_ HRv]. by rewrite Hs.
    + intros [HQ Hv]. split; [|done].
      apply Q_R in HQ as HRv. destruct HRv as [_ HRv]. by rewrite <- Hs.
  - rewrite filter_cons_False by done.
    rewrite (IH ({[n]} ∪ seen) seen') by set_solver.
    rewrite (filter_none (λ p : node * gmap string Z, Q (n, p.1, p.2))); [done|].
    intros p _ HQ. by apply Q_R in HQ as [? _].
Qed.

Lemma edges_iter_restrict : edges_iter G' None = filter Q (edges_iter G None).
Proof.
  unfold edges_iter, nbunch_iter.
  change (is_directed G') with (is_directed G).
  destruct (is_directed G).
  - apply adj_flat_restrict.
  - by apply edges_seen_restrict.
Qed.
End restrict.

(** ** Partial orderings *)

Lemma induced_restrict G nl :
  induced G nl = restrict (λ n, n ∈ nl) (λ e : edge, e.1.1 ∈ nl ∧ e.1.2 ∈ nl) G.
Proof. reflexivity. Qed.

Lemma edges_iter_induced G nl :
  edges_iter (induced G nl) None
  = filter (λ e : edge, e.1.1 ∈ nl ∧ e.1.2 ∈ nl) (edges_iter G None).
Proof.
  rewrite induced_restrict. apply edges_iter_restrict.
  - intros a b d. simpl. tauto.
  - intros a b d. simpl. tauto.
Qed.

Lemma adj_flat_induced G nl :
  adj_flat (induced G nl)
  = filter (λ e : edge, e.1.1 ∈ nl ∧ e.1.2 ∈ nl) (adj_flat G).
Proof.
  rewrite induced_restrict. apply adj_flat_restrict.
  - intros a b d. simpl. tauto.
  - intros a b d. simpl. tauto.
Qed.

Lemma multi_step_outside nl op weight undirected M (e : edge) :
  ¬ (e.1.1 ∈ nl ∧ e.1.2 ∈ nl) →
  multi_step (dict_zip nl (seq 0 (length nl))) (list_to_set nl) op weight
             undirected M e = M.
Proof.
  intros Hout. destruct e as [[u v] d]. unfold multi_step.
  rewrite decide_False; [done|]. by rewrite !elem_of_list_to_set.
Qed.

Lemma simple_step_outside nl weight M (e : edge) :
  NoDup nl →
  ¬ (e.1.1 ∈ nl ∧ e.1.2 ∈ nl) →
  simple_step (dict_zip nl (seq 0 (length nl))) weight e.1.1 M (e.1.2, e.2) = M.
Proof.
  intros Hnd Hout. unfold simple_step. simpl.
  destruct (dict_zip nl (seq 0 (length nl)) !! e.1.1) as [i|] eqn:Hu; [|done].
  destruct (dict_zip nl (seq 0 (length nl)) !! e.1.2) as [j|] eqn:Hv; [|done].
  exfalso. apply Hout. split; apply (index_is_Some nl Hnd); by eapply mk_is_Some.
Qed.

(** Dense encode over [nl] does not tell the graph from the subgraph
    induced by the nodes of [nl]. *)
Lemma to_numpy_matrix_induced (G : graph) (nl : list node)
    (f : pyfun) (weight : option string) (nonedge : cell) :
  NoDup nl →
  (is_multigraph G = true → is_Some (operator f)) →
  ∃ M, run (to_numpy_matrix G (Some nl) f weight nonedge) = (1%nat, Ok M)
       ∧ run (to_numpy_matrix (induced G nl) (Some nl) f weight nonedge)
         = (1%nat, Ok M).
Proof.
  intros Hnd Hop. unfold to_numpy_matrix.
  rewrite !decide_False by by apply dup_check_false.
  change (is_multigraph (induced G nl)) with (is_multigraph G).
  change (is_directed (induced G nl)) with (is_directed G).
  destruct (is_multigraph G) eqn:Hm.
  - destruct Hop as [op Hop]; [done|].
    unfold run, py_bind, py_alloc, py_ret. rewrite Hop.
    eexists. split; [reflexivity|].
    rewrite edges_iter_induced, foldl_filter_skip; [done|].
    intros M e. apply multi_step_outside.
  - unfold run, py_bind, py_alloc, py_ret.
    eexists. split; [reflexivity|].
    rewrite !simple_fold_flat, adj_flat_induced.
    rewrite (foldl_filter_skip (λ e : edge, e.1.1 ∈ nl ∧ e.1.2 ∈ nl)); [done|].
    intros M e. by apply simple_step_outside.
Qed.

(** ** The reducers never return an unset cell *)

Lemma operator_not_nan f op x c :
  operator f = Some op → isnan (op [fin x; c]) = false.
Proof. destruct f; intros [= <-]; by destruct c. Qed.

Lemma combine_not_nan f op x ws :
  operator f = Some op → isnan (combine op (x :: ws)) = false.
Proof.
  intros Hop. unfold combine. simpl.
  assert (isnan (op [fin x; nan]) = false) as Hc
    by by eapply operator_not_nan.
  revert Hc. generalize (op [fin x; nan]).
  induction ws as [|y ws IH]; intros c Hc; [done|].
  simpl. apply IH. by eapply operator_not_nan.
Qed.

(** ** Self-loops *)

Lemma filter_eq_singleton (l : list node) (u : node) :
  NoDup l → u ∈ l → filter (λ n, n = u) l = [u].
Proof.
  induction l as [|a l IH]; intros Hnd Hu; [by apply elem_of_nil in Hu|].
  apply NoDup_cons in Hnd as [Ha Hnd].
  destruct (decide (a = u)) as [->|Hne].
  - rewrite filter_cons_True by done. f_equal.
    apply filter_none. intros x Hx ->. done.
  - rewrite filter_cons_False by done. apply IH; [done|].
    apply elem_of_cons in Hu as [->|Hu]; done.
Qed.

Lemma adj_of_loops directed u (es : list edge) :
  (∀ e : edge, e ∈ es → e.1.1 = u ∧ e.1.2 = u) →
  map (λ p : node * gmap string Z, (u, p.1, p.2)) (flat_map (nbrs directed u) es)
  = es.
Proof.
  induction es as [|[[a b] d] es IH]; intros Hes; [done|].
  cbn [flat_map]. rewrite map_app, IH by (intros e He; apply Hes; by right).
  destruct (Hes (a, b, d)) as [Ha Hb]; [left|]. simpl in Ha, Hb. subst.
  unfold nbrs. by rewrite decide_True.
Qed.

(** The self-loops at [u] are enumerated as they are stored. *)
Lemma selfloops_enumerated G u :
  NoDup (nodes G) → u ∈ nodes G →
  filter (λ e : edge, e.1.1 = u ∧ e.1.2 = u) (edges_iter G None) = edges_at G u u
  ∧ filter (λ e : edge, e.1.1 = u ∧ e.1.2 = u) (adj_flat G) = edges_at G u u.
Proof.
  intros Hnd Hu.
  pose (R := λ n : node, n = u).
  pose (Q := λ e : edge, e.1.1 = u ∧ e.1.2 = u).
  assert (∀ a b d, Q (a, b, d) ↔ Q (b, a, d)) as Qsym
    by (intros a b d; unfold Q; simpl; tauto).
  assert (∀ a b d, Q (a, b, d) → R a ∧ R b) as QR
    by (intros a b d; unfold Q, R; simpl; tauto).
  rewrite <- (edges_iter_restrict R Q Qsym QR G).
  rewrite <- (adj_flat_restrict R Q Qsym QR G).
  assert (adj_flat (restrict R Q G) = edges_at G u u) as Hflat.
  { unfold adj_flat, restrict, adj. simpl. unfold R.
    rewrite filter_eq_singleton by done. simpl. rewrite app_nil_r.
    apply adj_of_loops. by intros e [? _]%list_elem_of_filter. }
  split; [|done].
  unfold edges_iter, nbunch_iter.
  change (is_directed (restrict R Q G)) with (is_directed G).
  destruct (is_directed G) eqn:Hd; [done|].
  unfold restrict, adj. simpl. unfold R.
  rewrite filter_eq_singleton by done. simpl. rewrite app_nil_r.
  rewrite filter_all by (intros p _; set_solver).
  apply adj_of_loops. by intros e [? _]%list_elem_of_filter.
Qed.

Lemma operator_with_nan f op x :
  operator f = Some op → op [fin x; nan] = fin x.
Proof.
  destruct f; intros [= <-]; try done.
  unfold nansum. simpl. by rewrite Z.add_0_r.
Qed.

Lemma remove_selfloops_restrict u G :
  remove_selfloops_at u G
  = restrict (λ _, True) (λ e : edge, ¬ (e.1.1 = u ∧ e.1.2 = u)) G.
Proof.
  unfold remove_selfloops_at, restrict. f_equal.
  symmetry. by apply filter_all.
Qed.

Section selfloop_cells.
Variables (G : graph) (nl : list node) (op : list cell → cell)
          (weight : option string) (u : node) (i : nat).
Hypothesis nl_nodup : NoDup nl.
Hypothesis nl_i : nl !! i = Some u.

Let index : gmap node nat := dict_zip nl (seq 0 (length nl)).

Lemma index_at_i x : index !! x = Some i ↔ x = u.
Proof.
  unfold index. rewrite (index_lookup nl nl_nodup). split; [congruence|].
  by intros ->.
Qed.

Lemma index_of_u j : index !! u = Some j ↔ j = i.
Proof.
  unfold index. rewrite (index_lookup nl nl_nodup). split.
  - intros Hj. by eapply NoDup_lookup.
  - by intros ->.
Qed.

(** Off the cell [(i, i)] the self-loops at [u] do nothing. *)
Lemma raw_cell_remove_selfloops j k :
  ¬ (j = i ∧ k = i) →
  raw_cell (remove_selfloops_at u G) nl op weight j k
  = raw_cell G nl op weight j k.
Proof.
  intros Hjk. unfold raw_cell. simpl. fold index.
  rewrite remove_selfloops_restrict.
  rewrite edges_iter_restrict, adj_flat_restrict;
    try (intros a b d; simpl; tauto).
  destruct (is_multigraph G).
  - apply foldl_filter_skip. intros c e He%dec_stable.
    destruct He as [Hu Hv]. unfold multi_cell. rewrite Hu, Hv.
    rewrite decide_False; [done|].
    intros [[?%index_of_u ?%index_of_u]|(_ & ?%index_of_u & ?%index_of_u)];
      by apply Hjk.
  - apply foldl_filter_skip. intros c e He%dec_stable.
    destruct He as [Hu Hv]. unfold simple_cell. rewrite Hu, Hv.
    rewrite decide_False; [done|].
    intros [?%index_of_u ?%index_of_u]; by apply Hjk.
Qed.

(** On the cell [(i, i)] only the self-loops at [u] count. *)
Lemma raw_cell_diagonal :
  NoDup (nodes G) → u ∈ nodes G →
  raw_cell G nl op weight i i
  = if is_multigraph G
    then foldl (λ c e, op [fin (edge_weight weight e); c]) nan (edges_at G u u)
    else foldl (λ c e, fin (edge_weight weight e)) nan (edges_at G u u).
Proof.
  intros Hnd Hu. unfold raw_cell. fold index.
  destruct (selfloops_enumerated G u Hnd Hu) as [Hiter Hflat].
  destruct (is_multigraph G).
  - rewrite <- (foldl_filter_skip (λ e : edge, e.1.1 = u ∧ e.1.2 = u)
                  (multi_cell index op weight (negb (is_directed G)) i i)).
    + rewrite Hiter. apply foldl_ext_in.
      intros c e [[He1 He2] _]%list_elem_of_filter.
      unfold multi_cell. rewrite decide_True; [done|].
      left. by rewrite !index_at_i.
    + intros c e He. unfold multi_cell. rewrite decide_False; [done|].
      rewrite !index_at_i. tauto.
  - rewrite <- (foldl_filter_skip (λ e : edge, e.1.1 = u ∧ e.1.2 = u)
                  (simple_cell index weight i i)).
    + rewrite Hflat. apply foldl_ext_in.
      intros c e [[He1 He2] _]%list_elem_of_filter.
      unfold simple_cell. rewrite decide_True; [done|].
      by rewrite !index_at_i.
    + intros c e He. unfold simple_cell. rewrite decide_False; [done|].
      by rewrite !index_at_i.
Qed.
End selfloop_cells.

(** C2.  Dense encode of [Graph([(1,1)])] is the 1 by 1 matrix holding 1.
    In general, for a graph with a self-loop at a node [u] of the
    ordering, at position [i]: the cell [(i, i)] of a multigraph holds the
    weights of the self-loops at [u] combined by the reducer, each counted
    once; when the self-loop is the only one at [u] the cell holds its
    weight (1 when it has no weight attribute), not twice the weight; and
    every other cell is what it is without the self-loops at [u]. *)
Theorem selfloop_occupies_one_cell :
  run (to_numpy_matrix example_selfloop_graph None py_sum (Some "weight") (fin 0))
  = (1%nat, Ok (mat [[1]]))
  ∧ ∀ (G : graph) (nodelist : option (list node)) (f : pyfun)
      (op : list cell → cell) (weight : option string) (nonedge : cell)
      (u : node) (d : gmap string Z) (i : nat),
      graph_wf G →
      NoDup (ordering G nodelist) →
      (is_multigraph G = true → operator f = Some op) →
      (u, u, d) ∈ edges G →
      ordering G nodelist !! i = Some u →
      ∃ M M',
        run (to_numpy_matrix G nodelist f weight nonedge) = (1%nat, Ok M)
        ∧ (is_multigraph G = true →
           getitem M i i = combine op (edge_data weight (edges_at G u u)))
        ∧ (edges_at G u u = [(u, u, d)] →
           getitem M i i = fin (attrs_get d weight 1))
        ∧ run (to_numpy_matrix (remove_selfloops_at u G) nodelist f weight nonedge)
          = (1%nat, Ok M')
        ∧ ∀ j k, (j < length (ordering G nodelist))%nat →
                 (k < length (ordering G nodelist))%nat →
                 ¬ (j = i ∧ k = i) →
                 getitem M j k = getitem M' j k.
Proof.
  split; [vm_compute; reflexivity|].
  intros G nodelist f op weight nonedge u d i [Hnodes Hedges] Hnd Hop Hloop Hi.
  assert (u ∈ nodes G) as Hu by (by destruct (Hedges (u, u, d))).
  assert (is_multigraph G = true → is_Some (operator f)) as Hsome
    by (intros Hm; rewrite (Hop Hm); by eexists).
  destruct (to_numpy_matrix_run G nodelist f weight nonedge Hnd Hsome)
    as (M & HM & Hcell).
  destruct (to_numpy_matrix_run (remove_selfloops_at u G) nodelist f weight
              nonedge Hnd Hsome) as (M' & HM' & Hcell').
  exists M, M'. split; [done|].
  pose proof (lookup_lt_Some _ _ _ Hi) as Hlt.
  pose proof (Hcell op i i Hop Hlt Hlt) as Hii. simpl in Hii.
  rewrite (raw_cell_diagonal G _ op weight u i Hnd Hi Hnodes Hu) in Hii.
  split; [|split; [|split; [done|]]].
  - intros Hm. rewrite Hii, Hm.
    assert (foldl (λ c e, op [fin (edge_weight weight e); c]) nan (edges_at G u u)
            = combine op (edge_data weight (edges_at G u u))) as ->
      by (unfold combine, edge_data; by rewrite foldl_map).
    assert (isnan (combine op (edge_data weight (edges_at G u u))) = false)
      as ->; [|done].
    assert ((u, u, d) ∈ edges_at G u u) as Hin
      by (by apply list_elem_of_filter).
    unfold edge_data.
    destruct (edges_at G u u) as [|e es]; [by apply elem_of_nil in Hin|].
    cbn [map]. apply (combine_not_nan f). auto.
  - intros Hone. rewrite Hii, Hone.
    destruct (is_multigraph G) eqn:Hm; simpl; [|done].
    unfold edge_weight. simpl.
    by rewrite (operator_with_nan f op) by auto.
  - intros j k Hj Hk Hjk.
    rewrite (Hcell op j k Hop Hj Hk), (Hcell' op j k Hop Hj Hk). simpl.
    change (ordering (remove_selfloops_at u G) nodelist)
      with (ordering G nodelist).
    by rewrite (raw_cell_remove_selfloops G _ op weight u i Hnd Hi j k Hjk).
Qed.

Lemma selfloop_occupies_one_cell_witness :
  ∃ M M',
    run (to_numpy_matrix
           (Graph false true [4; 7]%nat
                  [(4, 7, weighted 2); (7, 7, weighted 3); (7, 4, ∅)]%nat)
           (Some [7; 4]%nat) py_max (Some "weight") (fin 0)) = (1%nat, Ok M)
    ∧ getitem M 0 0 = fin 3
    ∧ run (to_numpy_matrix
             (remove_selfloops_at 7
                (Graph false true [4; 7]%nat
                       [(4, 7, weighted 2); (7, 7, weighted 3); (7, 4, ∅)]%nat))
             (Some [7; 4]%nat) py_max (Some "weight") (fin 0)) = (1%nat, Ok M')
    ∧ ∀ j k, (j < 2)%nat → (k < 2)%nat → ¬ (j = 0%nat ∧ k = 0%nat) →
             getitem M j k = getitem M' j k.
Proof.
  destruct (proj2 selfloop_occupies_one_cell
              (Graph false true [4; 7]%nat
                     [(4, 7, weighted 2); (7, 7, weighted 3); (7, 4, ∅)]%nat)
              (Some [7; 4]%nat) py_max nanmax (Some "weight") (fin 0) 7%nat
              (weighted 3) 0%nat)
    as (M & M' & HM & _ & Hone & HM' & Hframe).
  - split.
    + apply NoDup_cons. split; [set_solver|]. apply NoDup_singleton.
    + intros e He. simpl in He.
      repeat (apply elem_of_cons in He as [->|He]; [simpl; set_solver|]).
      by apply elem_of_nil in He.
  - apply NoDup_cons. split; [set_solver|]. apply NoDup_singleton.
  - reflexivity.
  - simpl. set_solver.
  - reflexivity.
  - exists M, M'. split; [exact HM|]. split; [exact (Hone eq_refl)|].
    split; [exact HM'|exact Hframe].
Defined.

(** ** Parallel edges and the reducer *)

Lemma joins_spec directed a b (e : edge) :
  joins directed a b e = true
  ↔ (e.1.1 = a ∧ e.1.2 = b) ∨ (negb directed = true ∧ e.1.1 = b ∧ e.1.2 = a).
Proof.
  unfold joins. rewrite orb_true_iff, andb_true_iff, !bool_decide_eq_true.
  tauto.
Qed.

Lemma raw_cell_multigraph G nl op weight i j a b :
  NoDup nl → is_multigraph G = true →
  nl !! i = Some a → nl !! j = Some b →
  raw_cell G nl op weight i j
  = combine op (map (edge_weight weight)
                    (filter (λ e : edge, joins (is_directed G) a b e = true)
                            (edges_iter G None))).
Proof.
  intros Hnd Hm Hi Hj. unfold raw_cell, combine. rewrite Hm.
  assert (∀ e : edge,
    (dict_zip nl (seq 0 (length nl)) !! e.1.1 = Some i
     ∧ dict_zip nl (seq 0 (length nl)) !! e.1.2 = Some j)
    ∨ (negb (is_directed G) = true
       ∧ dict_zip nl (seq 0 (length nl)) !! e.1.1 = Some j
       ∧ dict_zip nl (seq 0 (length nl)) !! e.1.2 = Some i)
    ↔ joins (is_directed G) a b e = true) as Hhit.
  { intros e. rewrite joins_spec.
    rewrite !(index_at_i nl a i Hnd Hi), !(index_at_i nl b j Hnd Hj). tauto. }
  rewrite <- (foldl_filter_skip
                (λ e : edge, joins (is_directed G) a b e = true)
                (multi_cell _ op weight (negb (is_directed G)) i j)).
  - rewrite foldl_map.
    apply foldl_ext_in. intros c e [He _]%list_elem_of_filter.
    unfold multi_cell. rewrite decide_True; [done|]. by apply Hhit.
  - intros c e He. unfold multi_cell. rewrite decide_False; [done|].
    by rewrite Hhit.
Qed.

(** C1.  Dense encode of the multigraph of the docstring over the ordering
    [0; 1; 2] with [sum] is [[0,2,0],[1,0,0],[0,0,4]].  In general, for a
    multigraph, a duplicate-free ordering and one of the three reducers,
    the cell of two listed nodes holds the nonedge value when no edge
    joins them, and otherwise the weights of the edges joining them (1 for
    an edge without the weight attribute) combined by the reducer. *)
Theorem multigraph_weights_combined :
  run (to_numpy_matrix example_multidigraph (Some [0; 1; 2]%nat) py_sum
         (Some "weight") (fin 0))
  = (1%nat, Ok (mat [[0; 2; 0]; [1; 0; 0]; [0; 0; 4]]))
  ∧ ∀ (G : graph) (nl : list node) (f : pyfun) (op : list cell → cell)
      (weight : option string) (nonedge : cell) (i j : nat) (a b : node),
      is_multigraph G = true →
      NoDup nl →
      operator f = Some op →
      nl !! i = Some a → nl !! j = Some b →
      ∃ M, run (to_numpy_matrix G (Some nl) f weight nonedge) = (1%nat, Ok M)
           ∧ getitem M i j
             = match map (λ e : edge, attrs_get e.2 weight 1)
                         (filter (λ e : edge, joins (is_directed G) a b e = true)
                                 (edges_iter G None)) with
               | [] => nonedge
               | ws => combine op ws
               end.
Proof.
  split; [vm_compute; reflexivity|].
  intros G nl f op weight nonedge i j a b Hm Hnd Hop Hi Hj.
  destruct (to_numpy_matrix_run G (Some nl) f weight nonedge) as (M & HM & Hcell);
    [done | by intros _; eexists |].
  exists M. split; [done|].
  rewrite (Hcell op i j); [| done | by eapply lookup_lt_Some..].
  simpl. rewrite (raw_cell_multigraph G nl op weight i j a b) by done.
  unfold edge_weight.
  destruct (map _ _) as [|x ws] eqn:Hws; [done|].
  by rewrite (combine_not_nan f op x ws Hop).
Qed.

Lemma multigraph_weights_combined_witness :
  ∃ M, run (to_numpy_matrix example_multidigraph (Some [2; 0]%nat) py_min
              (Some "weight") nan) = (1%nat, Ok M)
       ∧ getitem M 0 0
         = match map (λ e : edge, attrs_get e.2 (Some "weight") 1)
                     (filter (λ e : edge, joins true 2 2 e = true)
                             (edges_iter example_multidigraph None)) with
           | [] => nan
           | ws => combine nanmin ws
           end.
Proof.
  refine (proj2 multigraph_weights_combined example_multidigraph [2; 0]%nat
            py_min nanmin (Some "weight") nan 0%nat 0%nat 2%nat 2%nat _ _ _ _ _).
  - reflexivity.
  - apply NoDup_cons. split; [set_solver|]. apply NoDup_singleton.
  - reflexivity.
  - reflexivity.
  - reflexivity.
Defined.

(** ** Sparse encode of an undirected graph *)

Lemma filter_ext_in {A} (P Q : A → Prop) `{!∀ x, Decision (P x)}
    `{!∀ x, Decision (Q x)} (l : list A) :
  (∀ x, x ∈ l → P x ↔ Q x) → filter P l = filter Q l.
Proof.
  induction l as [|a l IH]; intros Hl; [done|].
  rewrite !filter_cons.
  rewrite IH by (intros x Hx; apply Hl; by right).
  apply decide_ext, Hl. left.
Qed.

(** Every entry of [G.adj[n]] comes from a stored edge. *)
Lemma elem_of_adj G n v d :
  (v, d) ∈ adj G n → (n, v, d) ∈ edges G ∨ (v, n, d) ∈ edges G.
Proof.
  unfold adj. intros ([[a b] d'] & He & Hin)%elem_of_flat_map.
  unfold nbrs in Hin. destruct (decide (a = n)) as [->|Hne].
  - apply list_elem_of_singleton in Hin as [= -> ->]. by left.
  - destruct (negb (is_directed G) && bool_decide (b = n)) eqn:Hb.
    + apply andb_prop in Hb as [_ ->%bool_decide_eq_true].
      apply list_elem_of_singleton in Hin as [= -> ->]. by right.
    + by apply elem_of_nil in Hin.
Qed.

Lemma elem_of_edges_seen G ns seen (e : edge) :
  e ∈ edges_seen G ns seen →
  e.1.1 ∈ ns
  ∧ ((e.1.1, e.1.2, e.2) ∈ edges G ∨ (e.1.2, e.1.1, e.2) ∈ edges G).
Proof.
  revert seen. induction ns as [|n ns IH]; intros seen He; simpl in He.
  - by apply elem_of_nil in He.
  - apply elem_of_app in He as [He|He].
    + apply list_elem_of_fmap in He as ([v d] & -> & Hin).
      apply list_elem_of_filter in Hin as [_ Hin]. simpl.
      split; [left|]. by apply elem_of_adj.
    + destruct (IH _ He) as [? ?]. split; [by right|done].
Qed.

Lemma selfloop_edges_spec G (e : edge) :
  e ∈ selfloop_edges G → e.1.1 = e.1.2 ∧ e ∈ edges G.
Proof.
  unfold selfloop_edges. intros (n & Hn & He)%elem_of_flat_map.
  apply list_elem_of_fmap in He as ([v d] & -> & Hin).
  apply list_elem_of_filter in Hin as [Hv Hin]. simpl in *. subst v.
  split; [done|]. by destruct (elem_of_adj G n n d Hin).
Qed.

(** The self-loops at a visited node are reported as they are stored. *)
Lemma selfloops_in_edges_seen G ns u :
  NoDup ns → u ∈ ns →
  filter (λ e : edge, e.1.1 = u ∧ e.1.2 = u) (edges_seen G ns ∅) = edges_at G u u.
Proof.
  intros Hnd Hu.
  pose (R := λ n : node, n = u).
  pose (Q := λ e : edge, e.1.1 = u ∧ e.1.2 = u).
  assert (∀ a b d, Q (a, b, d) ↔ Q (b, a, d)) as Qsym
    by (intros a b d; unfold Q; simpl; tauto).
  assert (∀ a b d, Q (a, b, d) → R a ∧ R b) as QR
    by (intros a b d; unfold Q, R; simpl; tauto).
  rewrite <- (edges_seen_restrict R Q Qsym QR G ns ∅ ∅) by done.
  unfold R. rewrite filter_eq_singleton by done. simpl. rewrite app_nil_r.
  rewrite filter_all by (intros p _; set_solver).
  unfold adj, restrict. simpl.
  apply adj_of_loops. by intros e [? _]%list_elem_of_filter.
Qed.

Lemma selfloops_in_selfloop_edges G u :
  NoDup (nodes G) → u ∈ nodes G →
  filter (λ e : edge, e.1.1 = u) (selfloop_edges G) = edges_at G u u.
Proof.
  intros Hnd Hu. unfold selfloop_edges. rewrite filter_flat_map.
  rewrite (flat_map_select _ _ u Hnd).
  - rewrite decide_True by done.
    rewrite filter_all by (by intros e ([v d] & -> & _)%list_elem_of_fmap).
    pose (Q := λ e : edge, e.1.1 = u ∧ e.1.2 = u).
    assert (filter (λ p : node * gmap string Z, p.1 = u) (adj G u)
            = adj (restrict (λ n, n = u) Q G) u) as ->.
    { rewrite (adj_restrict (λ n, n = u) Q).
      - apply list_filter_iff. intros [v d]. unfold Q. simpl. tauto.
      - intros a b d. unfold Q. simpl. tauto. }
    unfold adj, restrict. simpl.
    etrans; [|apply (adj_of_loops (is_directed G) u (edges_at G u u));
              by intros e [? _]%list_elem_of_filter].
    apply map_ext_in. intros [v d] Hin. simpl.
    apply list_elem_of_In, elem_of_flat_map in Hin as ([[a b] d'] & He & Hin).
    apply list_elem_of_filter in He as [[Ha Hb] _]. simpl in Ha, Hb. subst.
    unfold nbrs in Hin. rewrite decide_True in Hin by done.
    by apply list_elem_of_singleton in Hin as [= -> ->].
  - intros y _ Hy. apply filter_none.
    intros e ([v d] & -> & _)%list_elem_of_fmap. simpl. done.
Qed.

Lemma coo_sum_app r1 c1 d1 r2 c2 d2 i j :
  length r1 = length c1 → length c1 = length d1 →
  coo_sum (r1 ++ r2) (c1 ++ c2) (d1 ++ d2) i j
  = coo_sum r1 c1 d1 i j + coo_sum r2 c2 d2 i j.
Proof.
  revert c1 d1. induction r1 as [|ri r1 IH]; intros [|ci c1] [|x d1] Hrc Hcd;
    try discriminate; [done|].
  simpl in *. rewrite IH by lia. lia.
Qed.

Lemma coo_sum_map {A} (fr fc : A → nat) (fd : A → Z) (l : list A) i j :
  coo_sum (map fr l) (map fc l) (map fd l) i j
  = zsum (map fd (filter (λ t, fr t = i ∧ fc t = j) l)).
Proof.
  induction l as [|t l IH]; [done|].
  simpl. rewrite IH, filter_cons. by destruct (decide _).
Qed.

Lemma zsum_map_opp {A} (f : A → Z) (l : list A) :
  zsum (map (λ x, - f x) l) = - zsum (map f l).
Proof. induction l as [|a l IH]; [done|]. simpl. rewrite IH. lia. Qed.

Lemma index_triples_covered (index : gmap node nat) weight (es : list edge) :
  (∀ e : edge, e ∈ es → is_Some (index !! e.1.1) ∧ is_Some (index !! e.1.2)) →
  index_triples index weight es
  = map (λ e : edge, (index !!! e.1.1, index !!! e.1.2, edge_weight weight e)) es.
Proof.
  induction es as [|[[u v] d] es IH]; intros Hes; [done|].
  cbn [index_triples flat_map map]. unfold index_triples in IH.
  rewrite IH by (intros e ?; apply Hes; by right).
  destruct (Hes (u, v, d)) as [[i Hi] [j Hj]]; [left|]. simpl in Hi, Hj.
  simpl. rewrite Hi, Hj. simpl.
  by rewrite (lookup_total_correct _ _ _ Hi), (lookup_total_correct _ _ _ Hj).
Qed.

Lemma diag_pairs_covered (index : gmap node nat) weight (es : list edge) :
  (∀ e : edge, e ∈ es → is_Some (index !! e.1.1) ∧ is_Some (index !! e.1.2)) →
  diag_pairs index weight es
  = map (λ e : edge, (index !!! e.1.1, - edge_weight weight e)) es.
Proof.
  induction es as [|[[u v] d] es IH]; intros Hes; [done|].
  cbn [diag_pairs flat_map map]. unfold diag_pairs in IH.
  rewrite IH by (intros e ?; apply Hes; by right).
  destruct (Hes (u, v, d)) as [[i Hi] [j Hj]]; [left|]. simpl in Hi, Hj.
  simpl. rewrite Hi, Hj. simpl.
  by rewrite (lookup_total_correct _ _ _ Hi).
Qed.

Lemma edges_iter_no_edges G nbunch : edges G = [] → edges_iter G nbunch = [].
Proof.
  intros He. unfold edges_iter.
  assert (∀ n, adj G n = []) as Hadj by (intros n; unfold adj; by rewrite He).
  destruct (is_directed G).
  - apply flat_map_nil. intros n _. by rewrite Hadj.
  - generalize (∅ : gset node). induction (nbunch_iter G nbunch) as [|n ns IH];
      intros seen; [done|].
    simpl. by rewrite Hadj, IH.
Qed.

Lemma selfloop_edges_no_edges G : edges G = [] → selfloop_edges G = [].
Proof.
  intros He. unfold selfloop_edges. apply flat_map_nil. intros n _.
  unfold adj. by rewrite He.
Qed.

Section sparse_undirected.
Variables (G : graph) (nodelist : option (list node)) (weight : option string).
Hypothesis G_undirected : is_directed G = false.
Hypothesis G_wf : graph_wf G.

Let nl := ordering G nodelist.
Hypothesis nl_nodup : NoDup nl.

Let index : gmap node nat := dict_zip nl (seq 0 (length nl)).
Let es := edges_iter G (Some nl).
Let sl := selfloop_edges G.

Lemma index_total_at (e : edge) u i :
  nl !! i = Some u →
  is_Some (index !! e.1.1) → (index !!! e.1.1 = i ↔ e.1.1 = u).
Proof.
  intros Hi [k Hk]. rewrite (lookup_total_correct _ _ _ Hk).
  rewrite <- (index_at_i nl u i nl_nodup Hi). fold index. rewrite Hk.
  split; congruence.
Qed.

Lemma index_total_at_2 (e : edge) u i :
  nl !! i = Some u →
  is_Some (index !! e.1.2) → (index !!! e.1.2 = i ↔ e.1.2 = u).
Proof.
  intros Hi [k Hk]. rewrite (lookup_total_correct _ _ _ Hk).
  rewrite <- (index_at_i nl u i nl_nodup Hi). fold index. rewrite Hk.
  split; congruence.
Qed.

Lemma edges_at_outside u : u ∉ nodes G → edges_at G u u = [].
Proof.
  intros Hu. apply filter_none. intros e He [He1 _].
  destruct G_wf as [_ Hends]. destruct (Hends e He) as [Hn _]. congruence.
Qed.

Lemma es_selfloops u :
  u ∈ nl →
  filter (λ e : edge, e.1.1 = u ∧ e.1.2 = u) es = edges_at G u u.
Proof.
  intros Hu. unfold es, edges_iter. rewrite G_undirected.
  destruct (decide (u ∈ nodes G)) as [Hn|Hn].
  - apply selfloops_in_edges_seen.
    + unfold nbunch_iter. by apply NoDup_filter.
    + unfold nbunch_iter. by apply list_elem_of_filter.
  - rewrite edges_at_outside by done. apply filter_none.
    intros e [He _]%elem_of_edges_seen [He1 _].
    unfold nbunch_iter in He. apply list_elem_of_filter in He as [He _].
    congruence.
Qed.

Lemma sl_selfloops u :
  filter (λ e : edge, e.1.1 = u) sl = edges_at G u u.
Proof.
  destruct (decide (u ∈ nodes G)) as [Hn|Hn].
  - apply selfloops_in_selfloop_edges; [|done]. by destruct G_wf.
  - rewrite edges_at_outside by done. apply filter_none.
    intros e [_ He]%selfloop_edges_spec He1.
    destruct G_wf as [_ Hends]. destruct (Hends e He) as [? _]. congruence.
Qed.

End sparse_undirected.

(** ** Decoding: the nodes of the result *)

Lemma add_nodes_seq (a n : nat) :
  foldl add_node (seq 0 a) (seq a n) = seq 0 (a + n).
Proof.
  revert a. induction n as [|n IH]; intros a; simpl.
  - by rewrite Nat.add_0_r.
  - unfold add_node at 2. rewrite decide_False by (rewrite elem_of_seq; lia).
    rewrite <- seq_S, IH. f_equal. lia.
Qed.

Lemma add_node_present (ns : list node) (u : node) :
  u ∈ ns → add_node ns u = ns.
Proof. intros Hu. unfold add_node. by rewrite decide_True. Qed.

Lemma add_edge_flags G (t : edge) :
  is_directed (add_edge G t) = is_directed G
  ∧ is_multigraph (add_edge G t) = is_multigraph G.
Proof.
  destruct t as [[u v] dd]. unfold add_edge.
  destruct (is_multigraph G) eqn:Hm; [done|].
  by destruct (existsb _ _).
Qed.

Lemma add_edge_nodes G (t : edge) :
  t.1.1 ∈ nodes G → t.1.2 ∈ nodes G → nodes (add_edge G t) = nodes G.
Proof.
  destruct t as [[u v] dd]. simpl. intros Hu Hv. unfold add_edge.
  rewrite (add_node_present _ u Hu), (add_node_present _ v Hv).
  destruct (is_multigraph G); [done|]. by destruct (existsb _ _).
Qed.

Lemma add_edges_from_nodes G (l : list edge) :
  (∀ t : edge, t ∈ l → t.1.1 ∈ nodes G ∧ t.1.2 ∈ nodes G) →
  nodes (add_edges_from G l) = nodes G
  ∧ is_directed (add_edges_from G l) = is_directed G
  ∧ is_multigraph (add_edges_from G l) = is_multigraph G.
Proof.
  unfold add_edges_from. revert G.
  induction l as [|t l IH]; intros G Hl; [done|].
  simpl. destruct (Hl t) as [Hu Hv]; [left|].
  destruct (add_edge_flags G t) as [Hd Hm].
  destruct (IH (add_edge G t)) as (Hn' & Hd' & Hm').
  - intros t' Ht'. rewrite add_edge_nodes by done. apply Hl. by right.
  - rewrite Hn', Hd', Hm', Hd, Hm. by rewrite add_edge_nodes.
Qed.

Lemma from_numpy_matrix_run A parallel_edges create_using n t :
  shape A = (n, n) →
  kind_to_python_type (kind A) = Some t →
  run (from_numpy_matrix A parallel_edges create_using)
  = (0%nat,
     Ok (add_edges_from
           (Graph (target_directed create_using) (target_multigraph create_using)
                  (seq 0 n) [])
           (decoded_triples A t (target_multigraph create_using)
                            (target_directed create_using) parallel_edges))).
Proof.
  intros Hshape Hkind. unfold from_numpy_matrix. rewrite Hshape.
  rewrite decide_False by (intros ?; done).
  unfold run, py_bind. rewrite Hkind. simpl.
  unfold add_nodes_from, target_directed, target_multigraph, decoded_triples.
  pose proof (add_nodes_seq 0 n) as Hseq. simpl in Hseq.
  destruct create_using as [G0|]; simpl; by rewrite Hseq.
Qed.

Lemma decoded_triples_bounds A t multigraph directed parallel_edges (e : edge) :
  e ∈ decoded_triples A t multigraph directed parallel_edges →
  (e.1.1 < (shape A).1)%nat ∧ (e.1.2 < (shape A).2)%nat.
Proof.
  unfold decoded_triples. intros He.
  assert (e ∈ (if bool_decide (t = py_int) && multigraph && parallel_edges
               then flat_map (λ uv : nat * nat,
                       replicate (Z.to_nat (entry A uv.1 uv.2))
                                 (uv.1, uv.2, {["weight" := 1]})) (nonzero A)
               else map (λ uv : nat * nat,
                       (uv.1, uv.2, {["weight" := cast t (entry A uv.1 uv.2)]}))
                    (nonzero A))) as He'.
  { destruct (multigraph && negb directed); [|done].
    by apply list_elem_of_filter in He as [_ ?]. }
  clear He. destruct (_ && _ && _).
  - apply elem_of_flat_map in He' as ([u v] & Huv & Hin).
    apply elem_of_replicate in Hin as [-> _]. simpl.
    apply elem_of_nonzero in Huv. tauto.
  - apply list_elem_of_fmap in He' as ([u v] & -> & Huv). simpl.
    apply elem_of_nonzero in Huv. tauto.
Qed.

(** Decoding an [n] by [n] array of a known element kind succeeds and
    gives the nodes [0 .. n-1], whatever the entries, the target class and
    [parallel_edges]. *)
Theorem from_numpy_matrix_nodes (A : ndarray) (parallel_edges : bool)
    (create_using : option graph) (n : nat) :
  shape A = (n, n) →
  is_Some (kind_to_python_type (kind A)) →
  ∃ G, run (from_numpy_matrix A parallel_edges create_using) = (0%nat, Ok G)
       ∧ nodes G = seq 0 n
       ∧ is_directed G = target_directed create_using
       ∧ is_multigraph G = target_multigraph create_using.
Proof.
  intros Hshape [t Hkind].
  rewrite (from_numpy_matrix_run A parallel_edges create_using n t) by done.
  eexists. split; [reflexivity|].
  apply add_edges_from_nodes. intros e He%decoded_triples_bounds.
  rewrite Hshape in He. simpl in *. rewrite !elem_of_seq. lia.
Qed.

Lemma from_numpy_matrix_nodes_witness :
  ∃ G, run (from_numpy_matrix (Ndarray kind_f [[0; 0; 0]; [0; 0; 5]; [0; 0; 0]])
              false None) = (0%nat, Ok G)
       ∧ nodes G = [0; 1; 2]%nat
       ∧ is_directed G = false
       ∧ is_multigraph G = false.
Proof.
  apply (from_numpy_matrix_nodes
           (Ndarray kind_f [[0; 0; 0]; [0; 0; 5]; [0; 0; 0]]) false None 3%nat).
  - reflexivity.
  - by eexists.
Defined.

(** ** Decoding into a directed simple graph *)

Lemma NoDup_flat_map {A B} (f : A → list B) (l : list A) :
  NoDup l →
  (∀ x, x ∈ l → NoDup (f x)) →
  (∀ x y z, x ∈ l → y ∈ l → z ∈ f x → z ∈ f y → x = y) →
  NoDup (flat_map f l).
Proof.
  induction l as [|a l IH]; intros Hnd Hf Hinj; [constructor|].
  apply NoDup_cons in Hnd as [Ha Hnd]. simpl. apply NoDup_app. split; [|split].
  - apply Hf. left.
  - intros z Hz (y & Hy & Hzy)%elem_of_flat_map.
    assert (a = y) as -> by (apply (Hinj a y z); (left || by right || done)).
    done.
  - apply IH; [done| |].
    + intros x Hx. apply Hf. by right.
    + intros x y z Hx Hy. apply Hinj; by right.
Qed.

Lemma elem_of_nonzero_cell A u v (z : nat * nat) :
  z ∈ (if decide (entry A u v = 0) then [] else [(u, v)]) → z = (u, v).
Proof.
  destruct (decide (entry A u v = 0)); [by intros ?%elem_of_nil|].
  by intros ->%list_elem_of_singleton.
Qed.

Lemma NoDup_nonzero A : NoDup (nonzero A).
Proof.
  unfold nonzero. apply NoDup_flat_map.
  - apply NoDup_seq.
  - intros u _. apply NoDup_flat_map.
    + apply NoDup_seq.
    + intros v _. destruct (decide _); [constructor|apply NoDup_singleton].
    + intros v v' z _ _ Hz%elem_of_nonzero_cell Hz'%elem_of_nonzero_cell.
      congruence.
  - intros u u' z _ _ (v & _ & Hz%elem_of_nonzero_cell)%elem_of_flat_map
      (v' & _ & Hz'%elem_of_nonzero_cell)%elem_of_flat_map.
    congruence.
Qed.

Lemma filter_nonzero A i j :
  (i < (shape A).1)%nat → (j < (shape A).2)%nat →
  filter (λ uv : nat * nat, uv.1 = i ∧ uv.2 = j) (nonzero A)
  = if decide (entry A i j = 0) then [] else [(i, j)].
Proof.
  intros Hi Hj. unfold nonzero. rewrite filter_flat_map.
  rewrite (flat_map_seq_select _ i).
  - rewrite decide_True by lia. rewrite filter_flat_map.
    rewrite (flat_map_seq_select _ j).
    + rewrite decide_True by lia. case_decide; [done|].
      by rewrite filter_cons_True.
    + intros v Hv. case_decide; [done|].
      rewrite filter_cons_False; [done|]. simpl. by intros [_ ?].
  - intros u Hu. rewrite filter_flat_map. apply flat_map_nil.
    intros v _. case_decide; [done|].
    rewrite filter_cons_False; [done|]. simpl. by intros [? _].
Qed.

(** On a directed simple graph, edges on fresh ordered pairs are
    appended. *)
Lemma add_edges_from_directed_fresh G (l : list edge) :
  is_multigraph G = false → is_directed G = true →
  NoDup ((edges G ++ l).*1) →
  edges (add_edges_from G l) = edges G ++ l.
Proof.
  unfold add_edges_from. revert G.
  induction l as [|[[u v] dd] l IH]; intros G Hm Hd Hnd; cbn [foldl].
  - by rewrite app_nil_r.
  - assert (existsb (joins true u v) (edges G) = false) as Hfresh.
    { apply not_true_is_false. intros (e & He & Hj)%existsb_exists.
      apply list_elem_of_In in He.
      unfold joins in Hj. simpl in Hj. rewrite orb_false_r in Hj.
      apply bool_decide_eq_true in Hj as [Hu Hv].
      rewrite fmap_app in Hnd. apply NoDup_app in Hnd as (_ & Hdisj & _).
      apply (Hdisj (u, v)).
      - apply list_elem_of_fmap. exists e. split; [|done].
        destruct e as [[a b] d]. simpl in *. by subst.
      - simpl. left. }
    assert (add_edge G (u, v, dd)
            = Graph true false (add_node (add_node (nodes G) u) v)
                    (edges G ++ [(u, v, dd)])) as Hadd.
    { unfold add_edge. by rewrite Hm, Hd, Hfresh. }
    rewrite Hadd, IH; simpl; try done.
    + by rewrite <- app_assoc.
    + by rewrite <- app_assoc.
Qed.

Lemma decoded_triples_simple A t directed parallel_edges :
  decoded_triples A t false directed parallel_edges
  = map (λ uv : nat * nat,
           (uv.1, uv.2, {["weight" := cast t (entry A uv.1 uv.2)]})) (nonzero A).
Proof. unfold decoded_triples. by rewrite andb_false_r. Qed.

(** Decoding into a [DiGraph]: one edge per nonzero cell, from its row to
    its column, weighing the entry; a zero cell gives no edge. *)
Theorem from_numpy_matrix_digraph (A : ndarray) (parallel_edges : bool)
    (create_using : option graph) (n : nat) (t : python_type) :
  shape A = (n, n) →
  kind_to_python_type (kind A) = Some t →
  target_directed create_using = true →
  target_multigraph create_using = false →
  ∃ G, run (from_numpy_matrix A parallel_edges create_using) = (0%nat, Ok G)
       ∧ edges G
         = map (λ uv : nat * nat,
                  (uv.1, uv.2, {["weight" := cast t (entry A uv.1 uv.2)]}))
               (nonzero A)
       ∧ ∀ i j, (i < n)%nat → (j < n)%nat →
           edges_at G i j
           = if decide (entry A i j = 0) then []
             else [(i, j, {["weight" := cast t (entry A i j)]})].
Proof.
  intros Hshape Hkind Hd Hm.
  rewrite (from_numpy_matrix_run A parallel_edges create_using n t) by done.
  rewrite Hd, Hm, decoded_triples_simple.
  eexists. split; [reflexivity|].
  assert (edges (add_edges_from (Graph true false (seq 0 n) [])
            (map (λ uv : nat * nat,
                    (uv.1, uv.2, {["weight" := cast t (entry A uv.1 uv.2)]}))
                 (nonzero A)))
          = map (λ uv : nat * nat,
                   (uv.1, uv.2, {["weight" := cast t (entry A uv.1 uv.2)]}))
                (nonzero A)) as Hedges.
  { rewrite add_edges_from_directed_fresh; [done..|]. simpl.
    change (map ?f ?l).*1 with (map fst (map f l)). rewrite map_map. simpl.
    rewrite (map_ext _ id) by (by intros []). rewrite map_id.
    apply NoDup_nonzero. }
  split; [done|].
  intros i j Hi Hj. unfold edges_at. rewrite Hedges.
  destruct (shape_square_entries A n Hshape) as [Hn1 Hn2].
  pose proof (filter_nonzero A i j) as Hf. rewrite Hn1, Hn2 in Hf.
  specialize (Hf Hi Hj).
  assert (∀ l : list (nat * nat),
    filter (λ e : edge, e.1.1 = i ∧ e.1.2 = j)
      (map (λ uv : nat * nat,
              (uv.1, uv.2, {["weight" := cast t (entry A uv.1 uv.2)]})) l)
    = map (λ uv : nat * nat,
             (uv.1, uv.2, {["weight" := cast t (entry A uv.1 uv.2)]}))
          (filter (λ uv : nat * nat, uv.1 = i ∧ uv.2 = j) l)) as Hfm.
  { induction l as [|uv l IH]; [done|]. cbn [map]. rewrite !filter_cons.
    cbn [fst snd]. destruct (decide (uv.1 = i ∧ uv.2 = j)); cbn [map];
      [f_equal; exact IH|exact IH]. }
  rewrite Hfm, Hf. by case_decide.
Qed.

Lemma from_numpy_matrix_digraph_witness :
  ∃ G, run (from_numpy_matrix (Ndarray kind_i [[0; 3]; [-2; 0]]) false
              (Some (Graph true false [] []))) = (0%nat, Ok G)
       ∧ edges G = [(0, 1, weighted 3); (1, 0, weighted (-2))]%nat.
Proof.
  destruct (from_numpy_matrix_digraph (Ndarray kind_i [[0; 3]; [-2; 0]]) false
              (Some (Graph true false [] [])) 2%nat py_int)
    as (G & HG & Hedges & _); try reflexivity.
  exists G. split; [exact HG|exact Hedges].
Defined.

(** ** The adjacency entries between two nodes *)

Lemma nbrs_between directed a b (e : edge) :
  map (λ p : node * gmap string Z, (a, p.1, p.2))
      (filter (λ p : node * gmap string Z, a = a ∧ p.1 = b) (nbrs directed a e))
  = if decide (joins directed a b e = true) then [(a, b, e.2)] else [].
Proof.
  destruct e as [[x y] d]. unfold nbrs.
  destruct (decide (x = a)) as [->|Hx].
  - rewrite filter_cons, filter_nil. simpl.
    destruct (decide (a = a ∧ y = b)) as [[_ ->]|Hn]; simpl.
    + rewrite decide_True; [done|]. apply joins_spec. by left.
    + rewrite decide_False; [done|]. rewrite joins_spec. simpl.
      intros [[_ ?]|(_ & ? & ?)]; apply Hn; split; congruence.
  - destruct directed; simpl.
    + rewrite decide_False; [done|]. rewrite joins_spec. simpl.
      intros [[? _]|(? & _)]; done.
    + case_bool_decide as Hy.
      * subst y. rewrite filter_cons, filter_nil. simpl.
        destruct (decide (a = a ∧ x = b)) as [[_ ->]|Hn]; simpl.
        -- rewrite decide_True; [done|]. apply joins_spec. by right.
        -- rewrite decide_False; [done|]. rewrite joins_spec. simpl.
           intros [[? _]|(_ & ? & _)]; [done|]. by apply Hn.
      * rewrite decide_False; [done|]. rewrite joins_spec. simpl.
        intros [[? _]|(_ & _ & ?)]; done.
Qed.

(** The entries of [G.adj[a]] for the neighbour [b] are the stored edges
    joining [a] and [b], seen from [a]. *)
Lemma adj_flat_between G a b :
  NoDup (nodes G) → a ∈ nodes G →
  filter (λ e : edge, e.1.1 = a ∧ e.1.2 = b) (adj_flat G)
  = map (λ e : edge, (a, b, e.2)) (edges_between G a b).
Proof.
  intros Hnd Ha. unfold adj_flat. rewrite filter_flat_map.
  rewrite (flat_map_select _ _ a Hnd).
  - rewrite decide_True by done.
    rewrite (filter_map_edge (λ e : edge, e.1.1 = a ∧ e.1.2 = b)). simpl.
    unfold adj, edges_between.
    induction (edges G) as [|e es IH]; [done|].
    cbn [flat_map]. rewrite filter_app, map_app, IH, nbrs_between, filter_cons.
    by destruct (decide _).
  - intros y _ Hy. apply filter_none.
    intros e ([v d] & -> & _)%list_elem_of_fmap. simpl. by intros [? _].
Qed.

Lemma adj_flat_outside G a b :
  a ∉ nodes G → filter (λ e : edge, e.1.1 = a ∧ e.1.2 = b) (adj_flat G) = [].
Proof.
  intros Ha. apply filter_none. unfold adj_flat.
  intros e (n & Hn & ([v d] & -> & _)%list_elem_of_fmap)%elem_of_flat_map.
  simpl. intros [-> _]. done.
Qed.

Lemma edges_between_directed G a b :
  is_directed G = true → edges_between G a b = edges_at G a b.
Proof.
  intros Hd. unfold edges_between, edges_at. apply list_filter_iff.
  intros e. rewrite joins_spec, Hd. simpl. naive_solver.
Qed.

Lemma edges_between_sym G a b :
  is_directed G = false → edges_between G a b = edges_between G b a.
Proof.
  intros Hd. unfold edges_between. apply list_filter_iff.
  intros e. rewrite !joins_spec, Hd. simpl. naive_solver.
Qed.

(** ** What the reducers compute *)

Lemma foldr_min_shift x m ws :
  foldr Z.min (Z.min x m) ws = Z.min x (foldr Z.min m ws).
Proof. induction ws as [|y ws IH]; simpl; [done|]. rewrite IH. lia. Qed.

Lemma foldr_max_shift x m ws :
  foldr Z.max (Z.max x m) ws = Z.max x (foldr Z.max m ws).
Proof. induction ws as [|y ws IH]; simpl; [done|]. rewrite IH. lia. Qed.

Lemma combine_reducer f op w ws :
  operator f = Some op → combine op (w :: ws) = fin (reducer_value f w ws).
Proof.
  unfold combine. destruct f; intros [= <-]; simpl.
  - unfold nansum. simpl. rewrite Z.add_0_r. generalize w.
    induction ws as [|x ws IH]; intros s; simpl.
    + f_equal. lia.
    + rewrite Z.add_0_r, IH. f_equal. lia.
  - generalize w. induction ws as [|x ws IH]; intros m; simpl; [done|].
    by rewrite IH, foldr_min_shift.
  - generalize w. induction ws as [|x ws IH]; intros m; simpl; [done|].
    by rewrite IH, foldr_max_shift.
Qed.

(** Dense encode of a multigraph with [sum], [min] or [max]: a cell whose
    two nodes are joined by edges of weights [w :: ws] holds their sum,
    their least or their greatest.  The unset start value of the cell takes
    no part in it. *)
Theorem multigraph_reducer_value (G : graph) (nl : list node) (f : pyfun)
    (op : list cell → cell) (weight : option string) (nonedge : cell)
    (i j : nat) (a b : node) (w : Z) (ws : list Z) :
  is_multigraph G = true →
  NoDup nl →
  operator f = Some op →
  nl !! i = Some a → nl !! j = Some b →
  edge_data weight
    (filter (λ e : edge, joins (is_directed G) a b e = true) (edges_iter G None))
  = w :: ws →
  ∃ M, run (to_numpy_matrix G (Some nl) f weight nonedge) = (1%nat, Ok M)
       ∧ getitem M i j = fin (reducer_value f w ws).
Proof.
  intros Hm Hnd Hop Hi Hj Hws.
  destruct (to_numpy_matrix_run G (Some nl) f weight nonedge) as (M & HM & Hcell);
    [done | by intros _; eexists |].
  exists M. split; [done|].
  rewrite (Hcell op i j); [| done | by eapply lookup_lt_Some..].
  simpl. rewrite (raw_cell_multigraph G nl op weight i j a b) by done.
  unfold edge_data in Hws. rewrite Hws.
  by rewrite (combine_reducer f op w ws Hop).
Qed.

Lemma multigraph_reducer_value_witness :
  ∃ M, run (to_numpy_matrix
              (Graph true true [0; 1]%nat
                     [(0, 1, weighted 5); (0, 1, weighted (-2)); (0, 1, ∅)]%nat)
              (Some [0; 1]%nat) py_min (Some "weight") (fin 0)) = (1%nat, Ok M)
       ∧ getitem M 0 1 = fin (-2).
Proof.
  apply (multigraph_reducer_value
           (Graph true true [0; 1]%nat
                  [(0, 1, weighted 5); (0, 1, weighted (-2)); (0, 1, ∅)]%nat)
           [0; 1]%nat py_min nanmin (Some "weight") (fin 0) 0%nat 1%nat
           0%nat 1%nat 5 [-2; 1]).
  - reflexivity.
  - apply NoDup_cons. split; [set_solver|]. apply NoDup_singleton.
  - reflexivity.
  - reflexivity.
  - reflexivity.
  - reflexivity.
Defined.

(** ** Dense encode of a simple graph *)

Lemma edges_between_outside G a b :
  graph_wf G → a ∉ nodes G → edges_between G a b = [].
Proof.
  intros [_ Hends] Ha. apply filter_none. intros e He Hj.
  apply joins_spec in Hj. destruct (Hends e He) as [H1 H2].
  destruct Hj as [[<- _]|(_ & _ & <-)]; done.
Qed.

Lemma raw_cell_simple G nl op weight i j a b :
  NoDup nl → is_multigraph G = false → graph_wf G →
  nl !! i = Some a → nl !! j = Some b →
  raw_cell G nl op weight i j
  = foldl (λ c e, fin (edge_weight weight e)) nan (edges_between G a b).
Proof.
  intros Hnd Hm Hwf Hi Hj. unfold raw_cell. rewrite Hm.
  rewrite <- (foldl_filter_skip (λ e : edge, e.1.1 = a ∧ e.1.2 = b)
                (simple_cell _ weight i j)).
  - assert (filter (λ e : edge, e.1.1 = a ∧ e.1.2 = b) (adj_flat G)
            = map (λ e : edge, (a, b, e.2)) (edges_between G a b)) as ->.
    { destruct (decide (a ∈ nodes G)) as [Ha|Ha].
      - apply adj_flat_between; [by destruct Hwf|done].
      - by rewrite adj_flat_outside, edges_between_outside. }
    rewrite foldl_map. apply foldl_ext_in. intros c e _.
    unfold simple_cell. simpl. rewrite decide_True; [done|].
    by rewrite (index_at_i nl a i Hnd Hi), (index_at_i nl b j Hnd Hj).
  - intros c e He. unfold simple_cell. rewrite decide_False; [done|].
    by rewrite (index_at_i nl a i Hnd Hi), (index_at_i nl b j Hnd Hj).
Qed.

(** Dense encode of a graph that is not a multigraph: the cell of two
    listed nodes holds the nonedge value when no edge joins them and the
    weight of the edge when one does, also when that weight is 0 and the
    nonedge value is not. *)
Theorem simple_graph_cell (G : graph) (nl : list node) (f : pyfun)
    (weight : option string) (nonedge : cell) (i j : nat) (a b : node) :
  is_multigraph G = false →
  graph_wf G →
  NoDup nl →
  nl !! i = Some a → nl !! j = Some b →
  ∃ M, run (to_numpy_matrix G (Some nl) f weight nonedge) = (1%nat, Ok M)
       ∧ (edges_between G a b = [] → getitem M i j = nonedge)
       ∧ (∀ e, edges_between G a b = [e] →
               getitem M i j = fin (attrs_get e.2 weight 1)).
Proof.
  intros Hm Hwf Hnd Hi Hj.
  destruct (to_numpy_matrix_run G (Some nl) f weight nonedge) as (M & HM & Hcell);
    [done | by rewrite Hm |].
  exists M. split; [done|].
  pose proof (Hcell nansum i j) as Hij. simpl in Hij.
  rewrite (raw_cell_simple G nl nansum weight i j a b) in Hij by done.
  split.
  - intros Hnone. rewrite Hij; [by rewrite Hnone | by rewrite Hm
                               | by eapply lookup_lt_Some..].
  - intros e Hone. rewrite Hij; [by rewrite Hone | by rewrite Hm
                                | by eapply lookup_lt_Some..].
Qed.

Lemma simple_graph_cell_witness :
  ∃ M, run (to_numpy_matrix
              (Graph false false [1; 2; 3]%nat [(2, 1, weighted 0)]%nat)
              (Some [1; 2; 3]%nat) py_sum (Some "weight") nan) = (1%nat, Ok M)
       ∧ getitem M 0 1 = fin 0
       ∧ getitem M 0 2 = nan.
Proof.
  destruct (simple_graph_cell
              (Graph false false [1; 2; 3]%nat [(2, 1, weighted 0)]%nat)
              [1; 2; 3]%nat py_sum (Some "weight") nan 0%nat 1%nat 1%nat 2%nat)
    as (M & HM & _ & Hone).
  - reflexivity.
  - split.
    + repeat (apply NoDup_cons; split; [set_solver|]). constructor.
    + intros e ->%list_elem_of_singleton. simpl. set_solver.
  - repeat (apply NoDup_cons; split; [set_solver|]). constructor.
  - reflexivity.
  - reflexivity.
  - exists M. split; [exact HM|]. split.
    + exact (Hone (2%nat, 1%nat, weighted 0) eq_refl).
    + revert HM. vm_compute. intros [= <-]. reflexivity.
Defined.

(** ** Undirected graphs give symmetric matrices *)

Lemma raw_cell_undirected_sym G nl op weight i j a b :
  is_directed G = false → graph_wf G → NoDup nl →
  nl !! i = Some a → nl !! j = Some b →
  raw_cell G nl op weight i j = raw_cell G nl op weight j i.
Proof.
  intros Hd Hwf Hnd Hi Hj. destruct (is_multigraph G) eqn:Hm.
  - rewrite (raw_cell_multigraph G nl op weight i j a b) by done.
    rewrite (raw_cell_multigraph G nl op weight j i b a) by done.
    do 2 f_equal. apply list_filter_iff. intros e.
    rewrite !joins_spec, Hd. simpl. naive_solver.
  - rewrite (raw_cell_simple G nl op weight i j a b) by done.
    rewrite (raw_cell_simple G nl op weight j i b a) by done.
    by rewrite edges_between_sym.
Qed.

(** Dense encode of an undirected graph, multigraph or not, returns a
    symmetric matrix. *)
Theorem undirected_encode_symmetric (G : graph) (nodelist : option (list node))
    (f : pyfun) (weight : option string) (nonedge : cell) :
  is_directed G = false →
  graph_wf G →
  NoDup (ordering G nodelist) →
  (is_multigraph G = true → is_Some (operator f)) →
  ∃ M, run (to_numpy_matrix G nodelist f weight nonedge) = (1%nat, Ok M)
       ∧ ∀ i j, (i < length (ordering G nodelist))%nat →
                (j < length (ordering G nodelist))%nat →
                getitem M i j = getitem M j i.
Proof.
  intros Hd Hwf Hnd Hop.
  destruct (to_numpy_matrix_run G nodelist f weight nonedge Hnd Hop)
    as (M & HM & Hcell).
  exists M. split; [done|]. intros i j Hi Hj.
  assert (∃ op, is_multigraph G = true → operator f = Some op) as [op Hop'].
  { destruct (is_multigraph G); [|by exists nansum].
    destruct Hop as [op ?]; [done|]. by exists op. }
  destruct (lookup_lt_is_Some_2 _ _ Hi) as [a Ha].
  destruct (lookup_lt_is_Some_2 _ _ Hj) as [b Hb].
  rewrite (Hcell op i j Hop' Hi Hj), (Hcell op j i Hop' Hj Hi). simpl.
  by rewrite (raw_cell_undirected_sym G _ op weight i j a b).
Qed.

Lemma undirected_encode_symmetric_witness :
  ∃ M, run (to_numpy_matrix
              (Graph false true [1; 2]%nat
                     [(1, 2, weighted 4); (2, 1, weighted 6)]%nat)
              None py_max (Some "weight") (fin 0)) = (1%nat, Ok M)
       ∧ ∀ i j, (i < 2)%nat → (j < 2)%nat → getitem M i j = getitem M j i.
Proof.
  apply (undirected_encode_symmetric
           (Graph false true [1; 2]%nat
                  [(1, 2, weighted 4); (2, 1, weighted 6)]%nat)
           None py_max (Some "weight") (fin 0)).
  - reflexivity.
  - split.
    + repeat (apply NoDup_cons; split; [set_solver|]). constructor.
    + intros e He. simpl in He.
      repeat (apply elem_of_cons in He as [->|He]; [simpl; set_solver|]).
      by apply elem_of_nil in He.
  - repeat (apply NoDup_cons; split; [set_solver|]). constructor.
  - intros _. by eexists.
Defined.

(** ** Round trip: array, directed graph, array *)





(** ** Round trip: counts, parallel edges, sums *)

Lemma edges_iter_directed G :
  is_directed G = true → edges_iter G None = adj_flat G.
Proof. intros Hd. unfold edges_iter. by rewrite Hd. Qed.

(** In a directed graph the edges enumerated from [a] to [b] are the
    stored ones. *)
Lemma directed_joining_edges G a b :
  is_directed G = true → NoDup (nodes G) → a ∈ nodes G →
  filter (λ e : edge, joins (is_directed G) a b e = true) (edges_iter G None)
  = edges_at G a b.
Proof.
  intros Hd Hnd Ha. rewrite edges_iter_directed by done.
  rewrite (list_filter_iff _ (λ e : edge, e.1.1 = a ∧ e.1.2 = b)).
  - rewrite adj_flat_between, edges_between_directed by done.
    rewrite <- (map_id (edges_at G a b)) at 2.
    apply map_ext_in. intros [[x y] d] Hin.
    apply list_elem_of_In, list_elem_of_filter in Hin as [[Hx Hy] _].
    simpl in *. by subst.
  - intros e. rewrite joins_spec, Hd. simpl. naive_solver.
Qed.

Lemma zsum_replicate_one k : zsum (replicate k 1) = Z.of_nat k.
Proof. induction k as [|k IH]; [done|]. simpl. rewrite IH. lia. Qed.

(** A matrix of counts decoded into a [MultiDiGraph] with
    [parallel_edges=True] and encoded again with [sum], the weight key
    ["weight"] and the nonedge value 0 gives the counts back; a negative
    entry comes back as 0. *)
Theorem multidigraph_round_trip (A : ndarray) (create_using : option graph)
    (n : nat) :
  shape A = (n, n) →
  kind_to_python_type (kind A) = Some py_int →
  target_directed create_using = true →
  target_multigraph create_using = true →
  ∃ G M,
    run (from_numpy_matrix A true create_using) = (0%nat, Ok G)
    ∧ run (to_numpy_matrix G None py_sum (Some "weight") (fin 0)) = (1%nat, Ok M)
    ∧ ∀ i j, (i < n)%nat → (j < n)%nat →
        getitem M i j = fin (Z.max 0 (entry A i j)).
Proof.
  intros Hshape Hkind Hd Hm.
  rewrite (from_numpy_matrix_run A true create_using n py_int) by done.
  rewrite Hd, Hm.
  set (G := add_edges_from (Graph true true (seq 0 n) [])
                           (decoded_triples A py_int true true true)).
  destruct (shape_square_entries A n Hshape) as [Hn1 Hn2].
  destruct (add_edges_from_nodes (Graph true true (seq 0 n) [])
              (decoded_triples A py_int true true true)) as (Hn & HGd & HGm).
  { intros e He%decoded_triples_bounds. rewrite Hn1, Hn2 in He. simpl.
    rewrite !elem_of_seq. lia. }
  fold G in Hn, HGd, HGm. simpl in Hn, HGd, HGm.
  destruct (add_edges_from_multigraph (Graph true true (seq 0 n) [])
              (decoded_triples A py_int true true true) eq_refl) as (He & _ & _).
  fold G in He. simpl in He.
  assert (NoDup (ordering G None)) as Hnd
    by (unfold ordering; rewrite Hn; apply NoDup_seq).
  destruct (to_numpy_matrix_run G None py_sum (Some "weight") (fin 0) Hnd)
    as (M & HM & Hcell); [by intros _; eexists|].
  exists G, M. split; [done|]. split; [done|].
  intros i j Hi Hj.
  assert (ordering G None !! i = Some i) as Hli
    by (unfold ordering; rewrite Hn; by apply lookup_seq_lt).
  assert (ordering G None !! j = Some j) as Hlj
    by (unfold ordering; rewrite Hn; by apply lookup_seq_lt).
  rewrite (Hcell nansum i j); [| done | by eapply lookup_lt_Some..].
  simpl.
  rewrite (raw_cell_multigraph G _ nansum (Some "weight") i j i j) by done.
  rewrite directed_joining_edges;
    [| done | rewrite Hn; apply NoDup_seq | rewrite Hn, elem_of_seq; lia].
  unfold edges_at. rewrite He. unfold decoded_triples. simpl.
  rewrite expand_nonzero, Hn1, Hn2.
  pose proof (filter_expand_nonzero A i j) as Hf. rewrite Hn1, Hn2 in Hf.
  rewrite (Hf Hi Hj). unfold cell_edges.
  destruct (Z.to_nat (entry A i j)) as [|k] eqn:Hk.
  - simpl. f_equal. lia.
  - assert (map (edge_weight (Some "weight")) (replicate (S k) (unit_edge i j))
            = 1 :: replicate k 1) as ->.
    { change (map ?g ?l) with (g <$> l). by rewrite fmap_replicate. }
    rewrite (combine_reducer py_sum nansum 1 (replicate k 1) eq_refl). simpl.
    rewrite zsum_replicate_one. f_equal. lia.
Qed.

Lemma multidigraph_round_trip_witness :
  ∃ G M,
    run (from_numpy_matrix (Ndarray kind_u [[2; 0]; [1; 3]]) true
           (Some MultiDiGraph)) = (0%nat, Ok G)
    ∧ run (to_numpy_matrix G None py_sum (Some "weight") (fin 0)) = (1%nat, Ok M)
    ∧ ∀ i j, (i < 2)%nat → (j < 2)%nat →
        getitem M i j
        = fin (Z.max 0 (entry (Ndarray kind_u [[2; 0]; [1; 3]]) i j)).
Proof.
  apply (multidigraph_round_trip (Ndarray kind_u [[2; 0]; [1; 3]])
           (Some MultiDiGraph) 2%nat); reflexivity.
Defined.

(** ** Sparse encode of a directed graph *)

Lemma adj_list_between G ns a b :
  NoDup ns → a ∈ ns →
  filter (λ e : edge, e.1.1 = a ∧ e.1.2 = b)
         (flat_map (λ n, map (λ p : node * gmap string Z, (n, p.1, p.2)) (adj G n))
                   ns)
  = map (λ e : edge, (a, b, e.2)) (edges_between G a b).
Proof.
  intros Hnd Ha. rewrite filter_flat_map.
  rewrite (flat_map_select _ _ a Hnd).
  - rewrite decide_True by done.
    rewrite (filter_map_edge (λ e : edge, e.1.1 = a ∧ e.1.2 = b)). simpl.
    unfold adj, edges_between.
    induction (edges G) as [|e es IH]; [done|].
    cbn [flat_map]. rewrite filter_app, map_app, IH, nbrs_between, filter_cons.
    by destruct (decide _).
  - intros y _ Hy. apply filter_none.
    intros e ([v d] & -> & _)%list_elem_of_fmap. simpl. by intros [? _].
Qed.

Lemma edges_at_none G a b :
  graph_wf G → a ∉ nodes G → edges_at G a b = [].
Proof.
  intros [_ Hends] Ha. apply filter_none. intros e He [He1 _].
  destruct (Hends e He) as [Hn _]. congruence.
Qed.

Section sparse_directed.
Variables (G : graph) (nodelist : option (list node)) (weight : option string).
Hypothesis G_directed : is_directed G = true.
Hypothesis G_wf : graph_wf G.

Let nl := ordering G nodelist.
Hypothesis nl_nonempty : nl ≠ [].
Hypothesis nl_nodup : NoDup nl.
Hypothesis nl_covers : ∀ e : edge, e ∈ edges G → e.1.1 ∈ nl ∧ e.1.2 ∈ nl.

Let index : gmap node nat := dict_zip nl (seq 0 (length nl)).
Let es := edges_iter G (Some nl).

Lemma directed_es_stored (e : edge) : e ∈ es → e ∈ edges G.
Proof.
  unfold es, edges_iter. rewrite G_directed.
  intros (n & _ & ([v d] & -> & Hin)%list_elem_of_fmap)%elem_of_flat_map.
  simpl. unfold adj in Hin.
  apply elem_of_flat_map in Hin as ([[x y] d'] & He & Hin).
  unfold nbrs in Hin. rewrite G_directed in Hin. simpl in Hin.
  destruct (decide (x = n)) as [->|]; [|by apply elem_of_nil in Hin].
  by apply list_elem_of_singleton in Hin as [= -> ->].
Qed.

Lemma directed_es_covered (e : edge) :
  e ∈ es → is_Some (index !! e.1.1) ∧ is_Some (index !! e.1.2).
Proof.
  intros He%directed_es_stored. unfold index.
  rewrite !(index_is_Some nl nl_nodup). by apply nl_covers.
Qed.

Lemma directed_es_at a b :
  a ∈ nl →
  filter (λ e : edge, e.1.1 = a ∧ e.1.2 = b) es = edges_at G a b.
Proof.
  intros Ha. destruct (decide (a ∈ nodes G)) as [Hn|Hn].
  - unfold es, edges_iter. rewrite G_directed.
    rewrite adj_list_between.
    + rewrite edges_between_directed by done.
      rewrite <- (map_id (edges_at G a b)) at 2.
      apply map_ext_in. intros [[x y] d] Hin.
      apply list_elem_of_In, list_elem_of_filter in Hin as [[Hx Hy] _].
      simpl in *. by subst.
    + unfold nbunch_iter. by apply NoDup_filter.
    + unfold nbunch_iter. by apply list_elem_of_filter.
  - rewrite edges_at_none by done. apply filter_none.
    intros e He%directed_es_stored [He1 _].
    destruct G_wf as [_ Hends]. destruct (Hends e He) as [? _]. congruence.
Qed.

Lemma directed_es_nonempty : edges G ≠ [] → es ≠ [].
Proof.
  intros Hne.
  assert (∃ e : edge, e ∈ edges G) as [[[a b] d] Hin].
  { clear -Hne. destruct (edges G) as [|e rest]; [done|]. exists e. left. }
  destruct (nl_covers _ Hin) as [Ha _]. simpl in Ha.
  assert ((a, b, d) ∈ filter (λ e : edge, e.1.1 = a ∧ e.1.2 = b) es) as Hes.
  { rewrite directed_es_at by done. by apply list_elem_of_filter. }
  intros Hnil. rewrite Hnil in Hes. by apply elem_of_nil in Hes.
Qed.

Lemma to_scipy_sparse_coo_directed :
  run (to_scipy_sparse_coo G nodelist weight)
  = (1%nat,
     Ok (Coo (length nl, length nl) (edge_rows index es) (edge_cols index es)
             (edge_data weight es))).
Proof.
  unfold to_scipy_sparse_coo. fold (ordering G nodelist). fold nl. fold index.
  rewrite decide_False by (by destruct nl).
  rewrite decide_False by by apply dup_check_false.
  rewrite G_directed. fold es.
  case_decide as Hne.
  - assert (edges G = []) as He
      by (unfold number_of_edges in Hne; by destruct (edges G)).
    assert (es = []) as -> by by apply edges_iter_no_edges.
    reflexivity.
  - assert (es ≠ []) as Hes.
    { apply directed_es_nonempty. intros He. apply Hne. unfold number_of_edges.
      by rewrite He. }
    rewrite (index_triples_covered index weight es directed_es_covered).
    unfold edge_rows, edge_cols, edge_data.
    destruct es as [|e0 es0]; [done|].
    unfold run, py_bind, unzip3, py_ret, sparse_coo_matrix, py_alloc.
    cbn [map]. rewrite !map_map. simpl. reflexivity.
Qed.

Lemma directed_todense a b i j :
  nl !! i = Some a → nl !! j = Some b →
  coo_sum (edge_rows index es) (edge_cols index es) (edge_data weight es) i j
  = zsum (edge_data weight (edges_at G a b)).
Proof.
  intros Hi Hj.
  assert (a ∈ nl) as Ha by (by eapply list_elem_of_lookup_2).
  unfold edge_rows, edge_cols, edge_data. rewrite coo_sum_map.
  rewrite (filter_ext_in _ (λ e : edge, e.1.1 = a ∧ e.1.2 = b) es).
  - by rewrite directed_es_at.
  - intros e [H1 H2]%directed_es_covered. unfold index, nl in *.
    by rewrite (index_total_at G nodelist nl_nodup e a i),
               (index_total_at_2 G nodelist nl_nodup e b j).
Qed.
End sparse_directed.

(** Sparse encode of a directed graph whose nonempty duplicate-free
    ordering lists the endpoints of all edges: the triples are those of the
    edges, not symmetrized, and materialized the position of two nodes
    holds the sum of the weights of the edges from the first to the second
    (parallel edges add up, no edge gives 0). *)
Theorem sparse_encode_directed (has_converter : string → bool) (G : graph)
    (nodelist : option (list node)) (weight : option string) (fmt : string) :
  is_directed G = true →
  graph_wf G →
  ordering G nodelist ≠ [] →
  NoDup (ordering G nodelist) →
  (∀ e : edge, e ∈ edges G →
     e.1.1 ∈ ordering G nodelist ∧ e.1.2 ∈ ordering G nodelist) →
  has_converter fmt = true →
  ∃ M index es,
    index = dict_zip (ordering G nodelist) (seq 0 (length (ordering G nodelist)))
    ∧ es = edges_iter G (Some (ordering G nodelist))
    ∧ run (to_scipy_sparse_matrix has_converter G nodelist weight fmt)
      = (1%nat, Ok (Sparse fmt M))
    ∧ coo_shape M = (length (ordering G nodelist), length (ordering G nodelist))
    ∧ coo_row M = edge_rows index es
    ∧ coo_col M = edge_cols index es
    ∧ coo_data M = edge_data weight es
    ∧ ∀ i j a b,
        ordering G nodelist !! i = Some a → ordering G nodelist !! j = Some b →
        todense M i j = zsum (edge_data weight (edges_at G a b)).
Proof.
  intros Hd Hwf Hne Hnd Hcov Hfmt.
  pose proof (to_scipy_sparse_coo_directed G nodelist weight Hd Hwf Hne Hnd Hcov)
    as Hrun.
  eexists _, _, _. split; [reflexivity|]. split; [reflexivity|].
  split.
  { unfold to_scipy_sparse_matrix. rewrite (py_bind_run_ok _ _ _ _ Hrun).
    rewrite Hfmt. reflexivity. }
  split; [reflexivity|]. split; [reflexivity|]. split; [reflexivity|].
  split; [reflexivity|].
  intros i j a b Hi Hj.
  exact (directed_todense G nodelist weight Hd Hwf Hnd Hcov a b i j Hi Hj).
Qed.

Lemma sparse_encode_directed_witness :
  ∃ M, run (to_scipy_sparse_matrix documented_formats
              (Graph true true [0; 1; 2]%nat
                     [(0, 1, weighted 2); (1, 0, ∅); (2, 2, weighted 3);
                      (2, 2, ∅)]%nat)
              (Some [0; 1; 2]%nat) (Some "weight") "csr")
       = (1%nat, Ok (Sparse "csr" M))
       ∧ coo_data M = [2; 1; 3; 1]
       ∧ todense M 2 2 = 4.
Proof.
  destruct (sparse_encode_directed documented_formats
              (Graph true true [0; 1; 2]%nat
                     [(0, 1, weighted 2); (1, 0, ∅); (2, 2, weighted 3);
                      (2, 2, ∅)]%nat)
              (Some [0; 1; 2]%nat) (Some "weight") "csr")
    as (M & index & es & -> & -> & Hrun & _ & _ & _ & Hdata & Hdense).
  - reflexivity.
  - split.
    + repeat (apply NoDup_cons; split; [set_solver|]). constructor.
    + intros e He. simpl in He.
      repeat (apply elem_of_cons in He as [->|He]; [simpl; set_solver|]).
      by apply elem_of_nil in He.
  - discriminate.
  - repeat (apply NoDup_cons; split; [set_solver|]). constructor.
  - intros e He. simpl in He.
    repeat (apply elem_of_cons in He as [->|He]; [simpl; set_solver|]).
    by apply elem_of_nil in He.
  - reflexivity.
  - exists M. split; [exact Hrun|]. split; [exact Hdata|].
    exact (Hdense 2%nat 2%nat 2%nat 2%nat eq_refl eq_refl).
Defined.

(** ** Sparse and dense encode agree *)




(** ** Sparse encode over a partial ordering *)

(** Every enumerated edge is a stored edge, in one of the two
    orientations. *)
Lemma edges_iter_stored G nbunch (e : edge) :
  e ∈ edges_iter G nbunch →
  (e.1.1, e.1.2, e.2) ∈ edges G ∨ (e.1.2, e.1.1, e.2) ∈ edges G.
Proof.
  unfold edges_iter. destruct (is_directed G).
  - intros (n & _ & ([v d] & -> & Hin)%list_elem_of_fmap)%elem_of_flat_map.
    simpl. by apply elem_of_adj.
  - by intros [_ ?]%elem_of_edges_seen.
Qed.

Lemma index_triples_nil (index : gmap node nat) weight (es : list edge) :
  (∀ e : edge, e ∈ es → ¬ (is_Some (index !! e.1.1) ∧ is_Some (index !! e.1.2))) →
  index_triples index weight es = [].
Proof.
  intros Hes. unfold index_triples. apply flat_map_nil.
  intros [[u v] d] He. specialize (Hes _ He). simpl in Hes.
  destruct (index !! u) as [i|]; [|done].
  destruct (index !! v) as [j|]; [|done].
  exfalso. apply Hes. split; by eexists.
Qed.

Lemma diag_pairs_nil (index : gmap node nat) weight (es : list edge) :
  (∀ e : edge, e ∈ es → ¬ (is_Some (index !! e.1.1) ∧ is_Some (index !! e.1.2))) →
  diag_pairs index weight es = [].
Proof.
  intros Hes. unfold diag_pairs. apply flat_map_nil.
  intros [[u v] d] He. specialize (Hes _ He). simpl in Hes.
  destruct (index !! u) as [i|]; [|done].
  destruct (index !! v) as [j|]; [|done].
  exfalso. apply Hes. split; by eexists.
Qed.

(** When the graph has edges and none of them has both endpoints in the
    ordering, sparse encode does not return the empty matrix: unpacking the
    empty sequence of triples raises [ValueError], before any matrix is
    made. *)
Theorem sparse_encode_no_edge_listed (has_converter : string → bool)
    (G : graph) (nodelist : option (list node)) (weight : option string)
    (fmt : string) :
  ordering G nodelist ≠ [] →
  NoDup (ordering G nodelist) →
  edges G ≠ [] →
  (∀ e : edge, e ∈ edges G →
     ¬ (e.1.1 ∈ ordering G nodelist ∧ e.1.2 ∈ ordering G nodelist)) →
  run (to_scipy_sparse_matrix has_converter G nodelist weight fmt)
  = (0%nat, Raise (ValueError msg_unpack)).
Proof.
  intros Hne Hnd Hedges Hout.
  unfold to_scipy_sparse_matrix.
  apply py_bind_run_raise.
  unfold to_scipy_sparse_coo. fold (ordering G nodelist).
  rewrite decide_False by (by destruct (ordering G nodelist)).
  rewrite decide_False by by apply dup_check_false.
  rewrite decide_False
    by (unfold number_of_edges; by destruct (edges G)).
  rewrite index_triples_nil; [done|].
  intros e He. rewrite !(index_is_Some _ Hnd).
  destruct (edges_iter_stored _ _ _ He) as [Hs|Hs];
    apply Hout in Hs; simpl in Hs; tauto.
Qed.

Lemma sparse_encode_no_edge_listed_witness :
  run (to_scipy_sparse_matrix documented_formats
         (Graph false false [1; 2; 3]%nat [(1, 2, ∅)]%nat) (Some [3]%nat)
         (Some "weight") "csr")
  = (0%nat, Raise (ValueError msg_unpack)).
Proof.
  apply sparse_encode_no_edge_listed.
  - discriminate.
  - apply NoDup_singleton.
  - discriminate.
  - intros e ->%list_elem_of_singleton. simpl. set_solver.
Defined.

Lemma edges_seen_reports G ns (seen : gset node) a b d :
  is_directed G = false →
  (a, b, d) ∈ edges G → a ∈ ns → b ∈ ns → a ∉ seen → b ∉ seen →
  (a, b, d) ∈ edges_seen G ns seen ∨ (b, a, d) ∈ edges_seen G ns seen.
Proof.
  intros Hd He. revert seen.
  induction ns as [|n ns IH]; intros seen Ha Hb Hsa Hsb;
    [by apply elem_of_nil in Ha|].
  simpl. rewrite !elem_of_app.
  destruct (decide (a = n)) as [->|Hna].
  - left. left. apply list_elem_of_fmap. exists (b, d). split; [done|].
    apply list_elem_of_filter. split; [done|].
    unfold adj. apply elem_of_flat_map. exists (n, b, d). split; [done|].
    unfold nbrs. rewrite decide_True by done. left.
  - destruct (decide (b = n)) as [->|Hnb].
    + right. left. apply list_elem_of_fmap. exists (a, d). split; [done|].
      apply list_elem_of_filter. split; [done|].
      unfold adj. apply elem_of_flat_map. exists (a, n, d). split; [done|].
      unfold nbrs. rewrite decide_False by done. rewrite Hd. simpl.
      rewrite bool_decide_eq_true_2 by done. left.
    + apply elem_of_cons in Ha as [?|Ha]; [done|].
      apply elem_of_cons in Hb as [?|Hb]; [done|].
      destruct (IH ({[n]} ∪ seen)) as [?|?]; try done; [| |tauto..];
        rewrite elem_of_union, elem_of_singleton; tauto.
Qed.

Lemma index_triples_nonempty (index : gmap node nat) weight (es : list edge)
    (e : edge) :
  e ∈ es → is_Some (index !! e.1.1) → is_Some (index !! e.1.2) →
  index_triples index weight es ≠ [].
Proof.
  intros He [i Hi] [j Hj] Hnil.
  assert ((i, j, attrs_get e.2 weight 1) ∈ index_triples index weight es) as Hin.
  { unfold index_triples. apply elem_of_flat_map. exists e. split; [done|].
    destruct e as [[u v] d]. simpl in *. rewrite Hi, Hj. left. }
  rewrite Hnil in Hin. by apply elem_of_nil in Hin.
Qed.

(** An undirected graph with a self-loop, over an ordering that lists
    both endpoints of some edge but the node of no self-loop: the
    correction step unpacks an empty sequence and raises [ValueError]
    instead of returning the matrix of the listed nodes. *)
Theorem sparse_encode_selfloops_unlisted (has_converter : string → bool)
    (G : graph) (nodelist : option (list node)) (weight : option string)
    (fmt : string) (a b u : node) (d d' : gmap string Z) :
  is_directed G = false →
  graph_wf G →
  NoDup (ordering G nodelist) →
  (a, b, d) ∈ edges G →
  a ∈ ordering G nodelist → b ∈ ordering G nodelist →
  (u, u, d') ∈ edges G →
  (∀ e : edge, e ∈ edges G → e.1.1 = e.1.2 → e.1.1 ∉ ordering G nodelist) →
  run (to_scipy_sparse_matrix has_converter G nodelist weight fmt)
  = (0%nat, Raise (ValueError msg_unpack)).
Proof.
  intros Hd [Hnodes Hends] Hnd Hab Ha Hb Hloop Hout.
  unfold to_scipy_sparse_matrix. apply py_bind_run_raise.
  unfold to_scipy_sparse_coo. fold (ordering G nodelist).
  rewrite decide_False
    by (intros Hl; destruct (ordering G nodelist); [by apply elem_of_nil in Ha|done]).
  rewrite decide_False by by apply dup_check_false.
  rewrite decide_False
    by (unfold number_of_edges; destruct (edges G); [by apply elem_of_nil in Hab|done]).
  rewrite Hd.
  destruct (Hends _ Hab) as [Han Hbn]. simpl in Han, Hbn.
  assert (index_triples (dict_zip (ordering G nodelist)
                           (seq 0 (length (ordering G nodelist)))) weight
            (edges_iter G (Some (ordering G nodelist))) ≠ []) as Htr.
  { assert ((a, b, d) ∈ edges_iter G (Some (ordering G nodelist))
            ∨ (b, a, d) ∈ edges_iter G (Some (ordering G nodelist))) as [He|He].
    { unfold edges_iter. rewrite Hd.
      apply edges_seen_reports; try done;
        unfold nbunch_iter; by apply list_elem_of_filter. }
    - apply (index_triples_nonempty _ _ _ _ He); by apply index_is_Some.
    - apply (index_triples_nonempty _ _ _ _ He); by apply index_is_Some. }
  destruct (index_triples _ _ _) as [|t0 ts]; [done|]. clear Htr.
  destruct (Hends _ Hloop) as [Hun _]. simpl in Hun.
  assert ((u, u, d') ∈ selfloop_edges G) as Hsl.
  { assert ((u, u, d') ∈ filter (λ e : edge, e.1.1 = u) (selfloop_edges G)) as Hf.
    { rewrite selfloops_in_selfloop_edges by done.
      by apply list_elem_of_filter. }
    by apply list_elem_of_filter in Hf as [_ ?]. }
  assert (diag_pairs (dict_zip (ordering G nodelist)
                        (seq 0 (length (ordering G nodelist)))) weight
            (selfloop_edges G) = []) as Hdiag.
  { apply diag_pairs_nil. intros e [Heq He]%selfloop_edges_spec.
    rewrite !(index_is_Some _ Hnd). intros [Hin _]. by apply (Hout e He Heq). }
  destruct (selfloop_edges G) as [|s0 sl]; [by apply elem_of_nil in Hsl|].
  unfold run, py_bind, unzip3, unzip2, py_ret, py_raise.
  cbn -[diag_pairs dict_zip]. by rewrite Hdiag.
Qed.

Lemma sparse_encode_selfloops_unlisted_witness :
  run (to_scipy_sparse_matrix documented_formats
         (Graph false false [1; 2; 3]%nat [(1, 2, ∅); (3, 3, ∅)]%nat)
         (Some [1; 2]%nat) (Some "weight") "csr")
  = (0%nat, Raise (ValueError msg_unpack)).
Proof.
  apply (sparse_encode_selfloops_unlisted documented_formats
           (Graph false false [1; 2; 3]%nat [(1, 2, ∅); (3, 3, ∅)]%nat)
           (Some [1; 2]%nat) (Some "weight") "csr" 1%nat 2%nat 3%nat ∅ ∅).
  - reflexivity.
  - split.
    + repeat (apply NoDup_cons; split; [set_solver|]). constructor.
    + intros e He. simpl in He.
      repeat (apply elem_of_cons in He as [->|He]; [simpl; set_solver|]).
      by apply elem_of_nil in He.
  - repeat (apply NoDup_cons; split; [set_solver|]). constructor.
  - simpl. set_solver.
  - simpl. set_solver.
  - simpl. set_solver.
  - simpl. set_solver.
  - intros e He Heq. simpl in He.
    apply elem_of_cons in He as [->|He]; [discriminate|].
    apply list_elem_of_singleton in He as ->. simpl. set_solver.
Defined.

(** ** Decoding: what is checked first *)

(** Both decoders reject a matrix that is not square before they look at
    anything else: the element kind may be unknown and the arrays of a
    sparse matrix may be out of step.  A square dense matrix of an unknown
    element kind is rejected with [TypeError]. *)
Theorem decode_rejects_before_reading :
  (∀ (A : ndarray) (parallel_edges : bool) (create_using : option graph),
     (shape A).1 ≠ (shape A).2 →
     run (from_numpy_matrix A parallel_edges create_using)
     = (0%nat, Raise (NetworkXError msg_not_square)))
  ∧ (∀ (S : spmatrix) (parallel_edges : bool) (create_using : option graph)
       (attr : string),
       (sp_shape S).1 ≠ (sp_shape S).2 →
       run (from_scipy_sparse_matrix S parallel_edges create_using attr)
       = (0%nat, Raise (NetworkXError msg_not_square)))
  ∧ (∀ (A : ndarray) (parallel_edges : bool) (create_using : option graph),
       (shape A).1 = (shape A).2 →
       kind_to_python_type (kind A) = None →
       run (from_numpy_matrix A parallel_edges create_using)
       = (0%nat, Raise (TypeError msg_dtype))).
Proof.
  split; [|split].
  - intros A pe cu Hns. unfold from_numpy_matrix.
    destruct (shape A) as [n m]. simpl in Hns. by rewrite decide_True.
  - intros S pe cu attr Hns. unfold from_scipy_sparse_matrix.
    destruct (sp_shape S) as [n m]. simpl in Hns. by rewrite decide_True.
  - intros A pe cu Hsq Hkind. unfold from_numpy_matrix.
    destruct (shape A) as [n m]. simpl in Hsq. subst m.
    rewrite decide_False by (intros ?; done).
    unfold run, py_bind. by rewrite Hkind.
Qed.

Lemma decode_rejects_before_reading_witness :
  run (from_numpy_matrix (Ndarray (kind_other "O") [[1; 2; 3]; [4; 5; 6]]) true
         (Some MultiGraph))
  = (0%nat, Raise (NetworkXError msg_not_square))
  ∧ run (from_scipy_sparse_matrix
           (Spmatrix (2, 3)%nat kind_i (CSR [1] [7]%nat []%nat)) false None
           "weight")
    = (0%nat, Raise (NetworkXError msg_not_square))
  ∧ run (from_numpy_matrix (Ndarray (kind_other "O") [[1; 2]; [4; 5]]) true
           (Some MultiGraph))
    = (0%nat, Raise (TypeError msg_dtype)).
Proof.
  split; [|split].
  - apply (proj1 decode_rejects_before_reading). simpl. lia.
  - apply (proj1 (proj2 decode_rejects_before_reading)). simpl. lia.
  - apply (proj2 (proj2 decode_rejects_before_reading)); reflexivity.
Defined.

(** ** The compressed sparse layouts *)

Lemma py_chain_ok {A B} (l : list A) (f : A → py (list B)) (g : A → list B) :
  (∀ a, a ∈ l → ∀ k, f a k = (k, Ok (g a))) →
  ∀ k, py_chain l f k = (k, Ok (flat_map g l)).
Proof.
  induction l as [|a l IH]; intros Hf k; [done|].
  cbn [py_chain flat_map]. unfold py_bind.
  rewrite (Hf a) by left.
  rewrite IH by (intros b Hb; apply Hf; by right). done.
Qed.

(** Running a generator whose elements yield the transposed triples gives
    the transposed result, errors included. *)
Lemma py_chain_transpose {A} (l : list A) (f f' : A → py (list (nat * nat * Z))) :
  (∀ a k, f' a k = match f a k with
                   | (k', Ok xs) => (k', Ok (map transpose_triple xs))
                   | (k', Raise e) => (k', Raise e)
                   end) →
  ∀ k, py_chain l f' k = match py_chain l f k with
                         | (k', Ok xs) => (k', Ok (map transpose_triple xs))
                         | (k', Raise e) => (k', Raise e)
                         end.
Proof.
  intros Hf. induction l as [|a l IH]; intros k; [done|].
  cbn [py_chain]. unfold py_bind. rewrite Hf.
  destruct (f a k) as [k1 [xs|e]]; [|done].
  rewrite IH. destruct (py_chain l f k1) as [k2 [ys|e]]; [|done].
  unfold py_ret. by rewrite map_app.
Qed.

Section compressed.
Variables (n : nat) (data : list Z) (indices indptr : list nat).
Hypothesis Hwf : compressed_wf n data indices indptr.

Let p (i : nat) : nat := default 0%nat (indptr !! i).
Let stored (j : nat) : nat * Z :=
  (default 0%nat (indices !! j), default 0 (data !! j)).

Lemma compressed_ptr i : (i ≤ n)%nat → indptr !! i = Some (p i).
Proof.
  intros Hi. destruct Hwf as (Hlen & _).
  destruct (lookup_lt_is_Some_2 indptr i) as [x Hx]; [lia|].
  unfold p. by rewrite Hx.
Qed.

Lemma compressed_step i : (i < n)%nat → (p i ≤ p (S i))%nat.
Proof.
  intros Hi. destruct Hwf as (_ & _ & Hmono & _).
  apply (Hmono i); apply compressed_ptr; lia.
Qed.

Lemma compressed_mono i j : (i ≤ j)%nat → (j ≤ n)%nat → (p i ≤ p j)%nat.
Proof.
  induction 1 as [|j Hij IH]; intros Hj; [done|].
  etrans; [apply IH; lia|]. apply compressed_step. lia.
Qed.

Lemma compressed_end : p n = length data.
Proof.
  destruct Hwf as (_ & _ & _ & Hend & _). unfold p. by rewrite Hend.
Qed.

Lemma compressed_start : p 0 = 0%nat.
Proof.
  destruct Hwf as (_ & H0 & _). unfold p. by rewrite H0.
Qed.

Lemma compressed_stored j :
  (j < length data)%nat →
  indices !! j = Some (stored j).1 ∧ data !! j = Some (stored j).2.
Proof.
  intros Hj. destruct Hwf as (_ & _ & _ & _ & Hlen).
  destruct (lookup_lt_is_Some_2 indices j) as [c Hc]; [lia|].
  destruct (lookup_lt_is_Some_2 data j) as [x Hx]; [lia|].
  unfold stored. by rewrite Hc, Hx.
Qed.

Lemma compressed_slices m :
  (m ≤ n)%nat →
  flat_map (λ i, seq (p i) (p (S i) - p i)) (seq 0 m) = seq 0 (p m).
Proof.
  induction m as [|m IH]; intros Hm.
  - by rewrite compressed_start.
  - rewrite seq_S, flat_map_app, IH by lia. cbn [flat_map Nat.add].
    rewrite app_nil_r.
    pose proof (compressed_step m ltac:(lia)) as Hstep.
    destruct (Nat.le_exists_sub _ _ Hstep) as (d & Hd & _). rewrite Hd.
    replace (d + p m - p m)%nat with d by lia.
    rewrite (Nat.add_comm d). symmetry. apply seq_app.
Qed.

Lemma compressed_run (mk : nat → nat → Z → nat * nat * Z) k :
  py_chain (seq 0 n) (λ i,
    do lo <- at_index indptr i;
    do hi <- at_index indptr (i + 1);
    py_chain (seq lo (hi - lo)) (λ j,
      do c <- at_index indices j;
      do x <- at_index data j;
      py_ret [mk i c x])) k
  = (k, Ok (flat_map (λ i, flat_map (λ j, [mk i (stored j).1 (stored j).2])
                             (seq (p i) (p (S i) - p i)))
                     (seq 0 n))).
Proof.
  apply py_chain_ok. intros i Hi%elem_of_seq k'.
  unfold py_bind at 1, at_index at 1. rewrite compressed_ptr by lia.
  unfold py_ret at 1. unfold py_bind at 1, at_index at 1.
  replace (i + 1)%nat with (S i) by lia. rewrite compressed_ptr by lia.
  unfold py_ret at 1.
  apply py_chain_ok. intros j Hj%elem_of_seq k''.
  pose proof (compressed_step i ltac:(lia)) as Hstep.
  pose proof (compressed_mono (S i) n ltac:(lia) ltac:(lia)) as Hend.
  rewrite compressed_end in Hend.
  destruct (compressed_stored j) as [Hc Hx]; [lia|].
  unfold py_bind, at_index. by rewrite Hc, Hx.
Qed.

Lemma compressed_stored_zip :
  map stored (seq 0 (length data)) = zip indices data.
Proof.
  destruct Hwf as (_ & _ & _ & _ & Hlen). unfold stored. clear -Hlen.
  revert indices Hlen. induction data as [|x xs IH]; intros [|c cs] Hlen;
    try done.
  cbn [length seq map zip zip_with]. f_equal.
  rewrite <- seq_shift, map_map. apply IH. simpl in Hlen. lia.
Qed.

End compressed.

Lemma compressed_triples n data indices indptr
    (mk : nat → nat → Z → nat * nat * Z) (proj : nat * nat * Z → nat * Z) :
  compressed_wf n data indices indptr →
  (∀ i c x, proj (mk i c x) = (c, x)) →
  ∃ ts,
    (∀ k, py_chain (seq 0 n) (λ i,
            do lo <- at_index indptr i;
            do hi <- at_index indptr (i + 1);
            py_chain (seq lo (hi - lo)) (λ j,
              do c <- at_index indices j;
              do x <- at_index data j;
              py_ret [mk i c x])) k = (k, Ok ts))
    ∧ map proj ts = zip indices data
    ∧ ∀ t, t ∈ ts ↔
        ∃ i j lo hi c x, indptr !! i = Some lo ∧ indptr !! S i = Some hi
                         ∧ (lo ≤ j < hi)%nat
                         ∧ indices !! j = Some c ∧ data !! j = Some x
                         ∧ t = mk i c x.
Proof.
  intros Hwf Hproj. eexists. split; [|split].
  - intros k. apply (compressed_run n data indices indptr Hwf mk).
  - rewrite <- (compressed_stored_zip n data indices indptr Hwf).
    rewrite <- (compressed_end n data indices indptr Hwf).
    rewrite <- (compressed_slices n data indices indptr Hwf n) by done.
    generalize (seq 0 n). intros l. induction l as [|i l IH]; [done|].
    cbn [flat_map]. rewrite !map_app, IH. f_equal.
    generalize (seq (default 0%nat (indptr !! i))
                  (default 0%nat (indptr !! S i) - default 0%nat (indptr !! i))).
    intros l'. induction l' as [|j l' IH']; [done|].
    cbn [flat_map map app]. rewrite IH', Hproj. by destruct (_, _).
  - intros t. rewrite elem_of_flat_map. split.
    + intros (i & Hi%elem_of_seq & Hin).
      apply elem_of_flat_map in Hin as (j & Hj%elem_of_seq & Hin).
      apply list_elem_of_singleton in Hin.
      pose proof (compressed_step n data indices indptr Hwf i ltac:(lia)) as Hs.
      pose proof (compressed_mono n data indices indptr Hwf (S i) n
                    ltac:(lia) ltac:(lia)) as He.
      pose proof (compressed_end n data indices indptr Hwf) as Hend.
      cbv beta zeta in Hs, He, Hend.
      destruct (compressed_stored n data indices indptr Hwf j) as [Hc Hx];
        [lia|].
      eexists i, j, _, _, _, _.
      split; [apply (compressed_ptr n data indices indptr Hwf); lia|].
      split; [apply (compressed_ptr n data indices indptr Hwf); lia|].
      split; [lia|]. split; [exact Hc|]. split; [exact Hx|]. exact Hin.
    + intros (i & j & lo & hi & c & x & Hlo & Hhi & Hj & Hc & Hx & ->).
      assert (i < n)%nat as Hi.
      { apply lookup_lt_Some in Hhi. destruct Hwf as (Hlen & _). lia. }
      exists i. split; [apply elem_of_seq; lia|].
      apply elem_of_flat_map. exists j.
      rewrite Hlo, Hhi, Hc, Hx. simpl.
      split; [apply elem_of_seq; lia|]. by left.
Qed.

(** On well-formed arrays the row-compressed traversal raises nothing and
    yields one triple per stored value, in storage order: the columns and
    values are [indices] and [data], and a triple carries row [i] exactly
    when its position lies in the slice [indptr[i] .. indptr[i+1]]. *)
Theorem csr_triples_well_formed (nrows : nat) (data : list Z)
    (indices indptr : list nat) :
  compressed_wf nrows data indices indptr →
  ∃ ts, run (_csr_gen_triples nrows data indices indptr) = (0%nat, Ok ts)
        ∧ map (λ t : nat * nat * Z, (t.1.2, t.2)) ts = zip indices data
        ∧ ∀ i c x, (i, c, x) ∈ ts ↔
            ∃ j lo hi, indptr !! i = Some lo ∧ indptr !! S i = Some hi
                       ∧ (lo ≤ j < hi)%nat
                       ∧ indices !! j = Some c ∧ data !! j = Some x.
Proof.
  intros Hwf.
  destruct (compressed_triples nrows data indices indptr
              (λ i c x, (i, c, x)) (λ t, (t.1.2, t.2)) Hwf)
    as (ts & Hrun & Hzip & Hin); [done|].
  exists ts. split; [apply Hrun|]. split; [done|].
  intros i c x. rewrite Hin. split.
  - intros (i' & j & lo & hi & c' & x' & ? & ? & ? & ? & ? & [= -> -> ->]).
    by exists j, lo, hi.
  - intros (j & lo & hi & ? & ? & ? & ? & ?). by exists i, j, lo, hi, c, x.
Qed.

Lemma csr_triples_well_formed_witness :
  compressed_wf 2 [5; -7; 9] [1; 0; 1]%nat [0; 1; 3]%nat
  ∧ ∃ ts, run (_csr_gen_triples 2 [5; -7; 9] [1; 0; 1]%nat [0; 1; 3]%nat)
          = (0%nat, Ok ts)
          ∧ map (λ t : nat * nat * Z, (t.1.2, t.2)) ts
            = zip [1; 0; 1]%nat [5; -7; 9]
          ∧ ∀ i c x, (i, c, x) ∈ ts ↔
              ∃ j lo hi, [0; 1; 3]%nat !! i = Some lo
                         ∧ [0; 1; 3]%nat !! S i = Some hi
                         ∧ (lo ≤ j < hi)%nat
                         ∧ [1; 0; 1]%nat !! j = Some c
                         ∧ [5; -7; 9] !! j = Some x.
Proof.
  assert (compressed_wf 2 [5; -7; 9] [1; 0; 1]%nat [0; 1; 3]%nat) as Hwf.
  { split; [reflexivity|]. split; [reflexivity|]. split.
    - intros [|[|[|i]]] lo hi; simpl; intros [= <-] Hhi;
        try discriminate; injection Hhi as <-; lia.
    - split; reflexivity. }
  split; [exact Hwf|].
  exact (csr_triples_well_formed 2 [5; -7; 9] [1; 0; 1]%nat [0; 1; 3]%nat Hwf).
Defined.

(** The column-compressed traversal is the row-compressed traversal of the
    same arrays with row and column exchanged in every triple; it fails on
    exactly the same arrays, with the same exception. *)
Theorem csc_is_transposed_csr (n : nat) (data : list Z)
    (indices indptr : list nat) :
  run (_csc_gen_triples n data indices indptr)
  = match run (_csr_gen_triples n data indices indptr) with
    | (k, Ok ts) => (k, Ok (map transpose_triple ts))
    | (k, Raise e) => (k, Raise e)
    end.
Proof.
  unfold run, _csc_gen_triples, _csr_gen_triples.
  apply py_chain_transpose. intros i k. unfold py_bind.
  destruct (at_index indptr i k) as [k1 [lo|e]]; [|done].
  destruct (at_index indptr (i + 1) k1) as [k2 [hi|e]]; [|done].
  apply (py_chain_transpose (seq lo (hi - lo))
           (λ j k, match at_index indices j k with
                   | (k', Ok c) => match at_index data j k' with
                                   | (k'', Ok x) => py_ret [(i, c, x)] k''
                                   | (k'', Raise e) => (k'', Raise e)
                                   end
                   | (k', Raise e) => (k', Raise e)
                   end)).
  intros j k3.
  destruct (at_index indices j k3) as [k4 [c|e]]; [|done].
  by destruct (at_index data j k4) as [k5 [x|e]].
Qed.

(** ** Decoding a sparse matrix *)

Lemma from_scipy_sparse_matrix_run S parallel_edges create_using attr n ts :
  sp_shape S = (n, n) →
  run (_generate_weighted_edges S) = (0%nat, Ok ts) →
  (target_multigraph create_using = false ∨ parallel_edges = false
   ∨ ¬ (sp_kind S = kind_i ∨ sp_kind S = kind_u)) →
  run (from_scipy_sparse_matrix S parallel_edges create_using attr)
  = (0%nat,
     Ok (add_weighted_edges_from
           (Graph (target_directed create_using) (target_multigraph create_using)
                  (foldl add_node [] (seq 0 n)) [])
           (if target_multigraph create_using
               && negb (target_directed create_using)
            then filter (λ t : nat * nat * Z, (t.1.1 ≤ t.1.2)%nat) ts else ts)
           attr)).
Proof.
  intros Hshape Hts Hplain. unfold from_scipy_sparse_matrix. rewrite Hshape.
  rewrite decide_False by (intros ?; done).
  rewrite (py_bind_run_ok _ _ _ _ Hts).
  unfold target_directed, target_multigraph in *.
  assert (bool_decide (sp_kind S = kind_i ∨ sp_kind S = kind_u)
          && is_multigraph (add_nodes_from (_prep_create_using create_using)
                              (seq 0 n))
          && parallel_edges = false) as ->.
  { destruct Hplain as [Hm | [-> | Hk]].
    - simpl. rewrite Hm. by rewrite andb_false_r.
    - by rewrite andb_false_r.
    - by rewrite bool_decide_eq_false_2. }
  unfold py_ret. simpl. by destruct create_using.
Qed.

(** Decoding a sparse matrix into a multigraph without expansion makes one
    edge of every stored triple, in storage order, weighing the stored
    value: an explicitly stored zero and a repeated position give edges
    too.  An undirected target keeps only the triples whose row is at
    most their column. *)
Theorem sparse_decode_multigraph (S : spmatrix) (parallel_edges : bool)
    (create_using : option graph) (attr : string) (n : nat)
    (ts : list (nat * nat * Z)) :
  sp_shape S = (n, n) →
  run (_generate_weighted_edges S) = (0%nat, Ok ts) →
  target_multigraph create_using = true →
  parallel_edges = false ∨ ¬ (sp_kind S = kind_i ∨ sp_kind S = kind_u) →
  ∃ G, run (from_scipy_sparse_matrix S parallel_edges create_using attr)
       = (0%nat, Ok G)
       ∧ edges G
         = map (λ t : nat * nat * Z, (t.1.1, t.1.2, {[attr := t.2]}))
               (if target_directed create_using then ts
                else filter (λ t : nat * nat * Z, (t.1.1 ≤ t.1.2)%nat) ts).
Proof.
  intros Hshape Hts Hm Hplain.
  rewrite (from_scipy_sparse_matrix_run S parallel_edges create_using attr n ts)
    by tauto.
  eexists. split; [reflexivity|]. unfold add_weighted_edges_from.
  match goal with
  | |- context [add_edges_from ?G ?l] =>
      destruct (add_edges_from_multigraph G l) as (-> & _ & _); [done|]
  end.
  rewrite Hm. simpl. by destruct (target_directed create_using).
Qed.

Lemma sparse_decode_multigraph_witness :
  ∃ G, run (from_scipy_sparse_matrix
              (Spmatrix (2, 2)%nat kind_i
                 (COO [0; 1; 0; 0]%nat [1; 0; 1; 0]%nat [0; 4; 5; 0]))
              false (Some MultiGraph) "weight") = (0%nat, Ok G)
       ∧ edges G
         = map (λ t : nat * nat * Z, (t.1.1, t.1.2, {["weight" := t.2]}))
               (if target_directed (Some MultiGraph)
                then [(0%nat, 1%nat, 0); (1%nat, 0%nat, 4); (0%nat, 1%nat, 5);
                 (0%nat, 0%nat, 0)]
                else filter (λ t : nat * nat * Z, (t.1.1 ≤ t.1.2)%nat)
                       [(0%nat, 1%nat, 0); (1%nat, 0%nat, 4); (0%nat, 1%nat, 5);
                 (0%nat, 0%nat, 0)]).
Proof.
  refine (sparse_decode_multigraph
            (Spmatrix (2, 2)%nat kind_i
               (COO [0; 1; 0; 0]%nat [1; 0; 1; 0]%nat [0; 4; 5; 0]))
            false (Some MultiGraph) "weight" 2%nat
            [(0%nat, 1%nat, 0); (1%nat, 0%nat, 4); (0%nat, 1%nat, 5);
                 (0%nat, 0%nat, 0)] _ _ _ _).
  - reflexivity.
  - reflexivity.
  - reflexivity.
  - left. reflexivity.
Defined.

Lemma add_edges_from_flags G (l : list edge) :
  is_directed (add_edges_from G l) = is_directed G
  ∧ is_multigraph (add_edges_from G l) = is_multigraph G.
Proof.
  unfold add_edges_from. revert G.
  induction l as [|t l IH]; intros G; [done|]. cbn [foldl].
  destruct (IH (add_edge G t)) as [-> ->]. apply add_edge_flags.
Qed.

Lemma singleton_union_same (k : string) (x y : Z) :
  ({[k := x]} : gmap string Z) ∪ {[k := y]} = {[k := x]}.
Proof.
  apply map_eq. intros k'. rewrite lookup_union.
  destruct (decide (k = k')) as [->|Hne].
  - by rewrite !lookup_singleton_eq.
  - by rewrite !lookup_singleton_ne.
Qed.

Lemma stored_at_snoc ts (t : nat * nat * Z) i j :
  stored_at (ts ++ [t]) i j
  = stored_at ts i j ++ (if decide (t.1.1 = i ∧ t.1.2 = j) then [t] else []).
Proof.
  unfold stored_at. by rewrite filter_app.
Qed.

Lemma add_weighted_edges_digraph_last G0 (ts : list (nat * nat * Z)) attr i j :
  is_multigraph G0 = false → is_directed G0 = true → edges G0 = [] →
  edges_at (add_weighted_edges_from G0 ts attr) i j
  = match last (stored_at ts i j) with
    | Some t => [(i, j, {[attr := t.2]})]
    | None => []
    end.
Proof.
  intros Hm Hd He. revert i j.
  induction ts as [|[[u v] x] ts IH] using rev_ind; intros i j.
  - unfold edges_at, add_weighted_edges_from, add_edges_from. simpl.
    by rewrite He.
  - rewrite stored_at_snoc. cbn [fst snd].
    unfold add_weighted_edges_from in *.
    rewrite map_app. unfold add_edges_from in *. rewrite foldl_app.
    cbn [map foldl fst snd].
    set (G := foldl add_edge G0 _) in *.
    destruct (add_edges_from_flags G0
                (map (λ t : nat * nat * Z, (t.1.1, t.1.2, {[attr := t.2]})) ts))
      as [HdG HmG].
    unfold add_edges_from in HdG, HmG. fold G in HdG, HmG.
    rewrite Hd in HdG. rewrite Hm in HmG.
    unfold add_edge. rewrite HmG, HdG.
    destruct (existsb (joins true u v) (edges G)) eqn:Hex.
    + unfold edges_at. cbn [edges].
      assert (∀ es : list edge,
                filter (λ e : edge, e.1.1 = i ∧ e.1.2 = j)
                  (map (λ e : edge, if joins true u v e
                                    then (e.1.1, e.1.2,
                                          ({[attr := x]} : gmap string Z) ∪ e.2)
                                    else e) es)
                = map (λ e : edge, if joins true u v e
                                   then (e.1.1, e.1.2,
                                         ({[attr := x]} : gmap string Z) ∪ e.2)
                                   else e)
                      (filter (λ e : edge, e.1.1 = i ∧ e.1.2 = j) es)) as Hfm.
      { induction es as [|e es IHes]; [done|].
        cbn [map]. rewrite !filter_cons, IHes.
        destruct (joins true u v e) eqn:Hj; cbn [fst snd];
          destruct (decide (e.1.1 = i ∧ e.1.2 = j)); cbn [map];
          by rewrite ?Hj. }
      rewrite Hfm. fold (edges_at G i j). rewrite IH.
      destruct (decide (u = i ∧ v = j)) as [[-> ->]|Hne].
      * apply existsb_exists in Hex as (e & Hin & Hj).
        apply list_elem_of_In in Hin.
        unfold joins in Hj. simpl in Hj. rewrite orb_false_r in Hj.
        apply bool_decide_eq_true in Hj.
        assert (e ∈ edges_at G i j) as Hat.
        { unfold edges_at. by apply list_elem_of_filter. }
        rewrite IH in Hat. rewrite last_snoc.
        destruct (last (stored_at ts i j)) as [t|];
          [|by apply elem_of_nil in Hat].
        cbn [map]. unfold joins. cbn [fst snd negb andb].
        rewrite bool_decide_eq_true_2 by done. cbn [orb].
        by rewrite singleton_union_same.
      * rewrite app_nil_r.
        destruct (last (stored_at ts i j)) as [t|]; [|done].
        cbn [map]. unfold joins. cbn [fst snd negb andb].
        rewrite bool_decide_eq_false_2; [done|].
        intros [<- <-]. by apply Hne.
    + unfold edges_at. cbn [edges]. rewrite filter_app.
      fold (edges_at G i j). rewrite IH.
      rewrite filter_cons, filter_nil. cbn [fst snd].
      destruct (decide (u = i ∧ v = j)) as [[-> ->]|Hne].
      * rewrite last_snoc.
        assert (edges_at G i j = []) as Hnone.
        { unfold edges_at. apply filter_none. intros e Hin Hj.
          apply not_true_iff_false in Hex. apply Hex.
          apply existsb_exists. exists e.
          split; [by apply list_elem_of_In|].
          unfold joins. by rewrite bool_decide_eq_true_2. }
        rewrite IH in Hnone. by rewrite Hnone.
      * by rewrite !app_nil_r.
Qed.

(** Decoding a sparse matrix into a [DiGraph]: a position that is stored
    gives one edge from its row to its column, and when the position is
    stored more than once the edge weighs the value stored last (the
    values are not added up); a position that is not stored gives no
    edge. *)
Theorem sparse_decode_digraph_last_wins (S : spmatrix) (parallel_edges : bool)
    (create_using : option graph) (attr : string) (n : nat)
    (ts : list (nat * nat * Z)) :
  sp_shape S = (n, n) →
  run (_generate_weighted_edges S) = (0%nat, Ok ts) →
  target_directed create_using = true →
  target_multigraph create_using = false →
  ∃ G, run (from_scipy_sparse_matrix S parallel_edges create_using attr)
       = (0%nat, Ok G)
       ∧ ∀ i j, edges_at G i j
                = match last (stored_at ts i j) with
                  | Some t => [(i, j, {[attr := t.2]})]
                  | None => []
                  end.
Proof.
  intros Hshape Hts Hd Hm.
  rewrite (from_scipy_sparse_matrix_run S parallel_edges create_using attr n ts)
    by tauto.
  eexists. split; [reflexivity|]. intros i j.
  rewrite Hm, Hd. simpl.
  by apply add_weighted_edges_digraph_last.
Qed.

Lemma sparse_decode_digraph_last_wins_witness :
  ∃ G, run (from_scipy_sparse_matrix
              (Spmatrix (2, 2)%nat kind_i
                 (COO [0; 1; 0]%nat [1; 0; 1]%nat [3; 4; 5]))
              true (Some (Graph true false [] [])) "weight") = (0%nat, Ok G)
       ∧ ∀ i j, edges_at G i j
                = match last (stored_at [(0%nat, 1%nat, 3); (1%nat, 0%nat, 4); (0%nat, 1%nat, 5)] i j)
                  with
                  | Some t => [(i, j, {["weight" := t.2]})]
                  | None => []
                  end.
Proof.
  refine (sparse_decode_digraph_last_wins
            (Spmatrix (2, 2)%nat kind_i
               (COO [0; 1; 0]%nat [1; 0; 1]%nat [3; 4; 5]))
            true (Some (Graph true false [] [])) "weight" 2%nat
            [(0%nat, 1%nat, 3); (1%nat, 0%nat, 4); (0%nat, 1%nat, 5)] _ _ _ _); reflexivity.
Defined.

(** ** Structured arrays: missing fields *)

Lemma field_values_cases (attrs : gmap string Z) (names : list string) k :
  (∃ vs, field_values attrs names k = (k, Ok vs)
         ∧ ∀ n, n ∈ names → is_Some (attrs !! n))
  ∨ (∃ n, n ∈ names ∧ attrs !! n = None
          ∧ field_values attrs names k = (k, Raise (KeyError n))).
Proof.
  induction names as [|n names IH]; cbn [field_values].
  - left. exists []. split; [done|]. by intros n ?%elem_of_nil.
  - destruct (attrs !! n) as [x|] eqn:Hn.
    + unfold py_bind. destruct IH as [(vs & -> & Hall) | (n' & Hin & Hnone & ->)].
      * left. exists (x :: vs). split; [done|].
        intros n' [->|?]%elem_of_cons; [by exists x|by apply Hall].
      * right. exists n'. split; [by right|done].
    + right. exists n. split; [by left|done].
Qed.

Lemma py_for_all_ok {A S} (l : list A) (body : S → A → py S) :
  (∀ a, a ∈ l → ∀ s k, ∃ s', body s a k = (k, Ok s')) →
  ∀ s k, ∃ s', py_for l body s k = (k, Ok s').
Proof.
  induction l as [|a l IH]; intros Hl s k; cbn [py_for].
  - by exists s.
  - unfold py_bind. destruct (Hl a ltac:(left) s k) as [s' ->].
    apply IH. intros b Hb. apply Hl. by right.
Qed.

Lemma py_for_raises {A S} (l : list A) (body : S → A → py S)
    (P : exn → Prop) (a : A) :
  (∀ b s k, (∃ s', body s b k = (k, Ok s'))
            ∨ (∃ e, P e ∧ body s b k = (k, Raise e))) →
  a ∈ l →
  (∀ s k, ∃ e, P e ∧ body s a k = (k, Raise e)) →
  ∀ s k, ∃ e, P e ∧ py_for l body s k = (k, Raise e).
Proof.
  intros Hcases Ha Hbad.
  induction l as [|b l IH]; intros s k; [by apply elem_of_nil in Ha|].
  cbn [py_for]. unfold py_bind.
  destruct (Hcases b s k) as [[s' Hs'] | (e & He & ->)]; [|by exists e].
  apply elem_of_cons in Ha as [->|Ha].
  - destruct (Hbad s k) as (e & _ & Heq). congruence.
  - rewrite Hs'. by apply IH.
Qed.

Lemma edges_iter_reports G a b d :
  (a, b, d) ∈ edges G → a ∈ nodes G → b ∈ nodes G →
  (a, b, d) ∈ edges_iter G None ∨ (b, a, d) ∈ edges_iter G None.
Proof.
  intros He Ha Hb. unfold edges_iter. simpl.
  destruct (is_directed G) eqn:Hd.
  - left. apply elem_of_flat_map. exists a. split; [done|].
    apply list_elem_of_fmap. exists (b, d). split; [done|].
    unfold adj. apply elem_of_flat_map. exists (a, b, d). split; [done|].
    unfold nbrs. rewrite decide_True by done. left.
  - apply edges_seen_reports; try done; set_solver.
Qed.

(** A structured encode substitutes no default for a missing field.  If
    some stored edge with both endpoints in the ordering lacks one of the
    requested fields, the call raises [KeyError] for a requested field;
    if every such edge has all of them, the call returns a matrix.  Edges
    with an endpoint outside the ordering are never looked at. *)
Theorem recarray_missing_field (G : graph) (nl : list node)
    (names : list string) :
  is_multigraph G = false →
  NoDup nl →
  graph_wf G →
  ((∃ a b d name, (a, b, d) ∈ edges G ∧ a ∈ nl ∧ b ∈ nl
                  ∧ name ∈ names ∧ d !! name = None) →
   ∃ name', name' ∈ names
            ∧ run (to_numpy_recarray G (Some nl) names)
              = (1%nat, Raise (KeyError name')))
  ∧ ((∀ a b d, (a, b, d) ∈ edges G → a ∈ nl → b ∈ nl →
               ∀ name, name ∈ names → is_Some (d !! name)) →
     ∃ M, run (to_numpy_recarray G (Some nl) names) = (1%nat, Ok M)).
Proof.
  intros Hm Hnd [_ Hwf].
  unfold to_numpy_recarray, not_implemented_for_multigraph. rewrite Hm.
  rewrite decide_False by by apply dup_check_false.
  unfold run, py_bind, py_alloc.
  set (index := dict_zip nl (seq 0 (length nl))).
  set (nodeset := (list_to_set nl : gset node)).
  assert (∀ u, u ∈ nodeset ↔ is_Some (index !! u)) as Hset
    by (intros u; by apply index_nodeset).
  assert (∀ u, u ∈ nodeset ↔ u ∈ nl) as Hnl
    by (intros u; apply elem_of_list_to_set).
  split.
  - intros (a & b & d & name & He & Ha & Hb & Hname & Hnone).
    assert (∃ e : edge, e ∈ edges_iter G None ∧ e.1.1 ∈ nl ∧ e.1.2 ∈ nl
                        ∧ e.2 = d) as (e & Hin & Hu & Hv & Hd).
    { destruct (Hwf _ He) as [Han Hbn]. simpl in Han, Hbn.
      destruct (edges_iter_reports G a b d He Han Hbn) as [H|H].
      - by exists (a, b, d).
      - by exists (b, a, d). }
    match goal with
    | |- context [py_for ?l ?body ?s0 ?k0] =>
        destruct (py_for_raises l body
                    (λ x, ∃ n, x = KeyError n ∧ n ∈ names) e)
          with (s := s0) (k := k0) as (x & (n & -> & Hn) & Hrun)
    end.
    + intros [[u v] attrs] s k.
      destruct (decide (u ∈ nodeset ∧ v ∈ nodeset)); [|left; by eexists].
      destruct (index !! u); [|left; by eexists].
      destruct (index !! v); [|left; by eexists].
      destruct (field_values_cases attrs names k)
        as [(vs & -> & _) | (n' & Hn' & _ & ->)].
      * left. by eexists.
      * right. exists (KeyError n'). split; [by exists n'|done].
    + done.
    + intros s k. destruct e as [[u v] attrs]. simpl in *. subst attrs.
      rewrite decide_True by (by rewrite !Hnl).
      destruct (proj1 (Hset u)) as [i ->]; [by apply Hnl|].
      destruct (proj1 (Hset v)) as [j ->]; [by apply Hnl|].
      destruct (field_values_cases d names k)
        as [(vs & _ & Hall) | (n' & Hn' & _ & ->)].
      * destruct (Hall name Hname) as [y Hy]. congruence.
      * exists (KeyError n'). split; [by exists n'|done].
    + by exists n.
  - intros Hall.
    match goal with
    | |- context [py_for ?l ?body ?s0 ?k0] =>
        destruct (py_for_all_ok l body) with (s := s0) (k := k0) as [M HM]
    end; [|by exists M].
    intros [[u v] attrs] Hin s k.
    destruct (decide (u ∈ nodeset ∧ v ∈ nodeset)) as [[Hu Hv]|];
      [|by eexists].
    destruct (index !! u); [|by eexists].
    destruct (index !! v); [|by eexists].
    destruct (field_values_cases attrs names k)
      as [(vs & -> & _) | (n' & Hn' & Hnone & _)]; [by eexists|].
    exfalso. apply Hnl in Hu, Hv.
    destruct (edges_iter_stored G None _ Hin) as [He|He]; simpl in He.
    + destruct (Hall u v attrs He Hu Hv n' Hn') as [x Hx]. congruence.
    + destruct (Hall v u attrs He Hv Hu n' Hn') as [x Hx]. congruence.
Qed.

Lemma recarray_missing_field_witness :
  (∃ name', name' ∈ ["weight"; "cost"]
            ∧ run (to_numpy_recarray
                     (Graph false false [0; 1; 2]%nat
                        [(0%nat, 1%nat, {["weight" := 7]});
                         (1%nat, 2%nat, ∅)])
                     (Some [1; 0]%nat) ["weight"; "cost"])
              = (1%nat, Raise (KeyError name')))
  ∧ ∃ M, run (to_numpy_recarray
                (Graph false false [0; 1; 2]%nat
                   [(0%nat, 1%nat, {["weight" := 7]}); (1%nat, 2%nat, ∅)])
                (Some [1; 0]%nat) ["weight"])
         = (1%nat, Ok M).
Proof.
  assert (graph_wf (Graph false false [0; 1; 2]%nat
                      [(0%nat, 1%nat, {["weight" := 7]}); (1%nat, 2%nat, ∅)]))
    as Hwf.
  { split; simpl.
    - repeat constructor; set_solver.
    - intros e He. set_solver. }
  assert (NoDup [1; 0]%nat) as Hnd by (repeat constructor; set_solver).
  split.
  - apply (proj1 (recarray_missing_field
                    (Graph false false [0; 1; 2]%nat
                       [(0%nat, 1%nat, {["weight" := 7]}); (1%nat, 2%nat, ∅)])
                    [1; 0]%nat ["weight"; "cost"] eq_refl Hnd Hwf)).
    exists 0%nat, 1%nat, {["weight" := 7]}, "cost".
    split; [set_solver|]. split; [set_solver|]. split; [set_solver|].
    split; [set_solver|]. reflexivity.
  - apply (proj2 (recarray_missing_field
                    (Graph false false [0; 1; 2]%nat
                       [(0%nat, 1%nat, {["weight" := 7]}); (1%nat, 2%nat, ∅)])
                    [1; 0]%nat ["weight"] eq_refl Hnd Hwf)).
    intros a b d He Ha Hb name Hname.
    apply list_elem_of_singleton in Hname as ->.
    simpl in He. apply elem_of_cons in He as [[= -> -> ->]|He].
    + by exists 7.
    + apply list_elem_of_singleton in He as [= -> -> ->]. set_solver.
Defined.

(** ** Decoding into an undirected simple graph *)

Lemma joins_undirected_iff u v (e : edge) :
  joins false u v e = true
  ↔ (e.1.1 = u ∧ e.1.2 = v) ∨ (e.1.1 = v ∧ e.1.2 = u).
Proof.
  unfold joins. cbn [negb andb]. rewrite orb_true_iff.
  by rewrite !bool_decide_eq_true.
Qed.

Lemma stored_between_snoc ts (t : nat * nat * Z) i j :
  stored_between (ts ++ [t]) i j
  = stored_between ts i j
    ++ (if decide ((t.1.1 = i ∧ t.1.2 = j) ∨ (t.1.1 = j ∧ t.1.2 = i))
        then [t] else []).
Proof. unfold stored_between. by rewrite filter_app. Qed.

Lemma add_weighted_edges_graph_last G0 (ts : list (nat * nat * Z)) attr i j :
  is_multigraph G0 = false → is_directed G0 = false → edges G0 = [] →
  map snd (edges_between (add_weighted_edges_from G0 ts attr) i j)
  = match last (stored_between ts i j) with
    | Some t => [{[attr := t.2]}]
    | None => []
    end.
Proof.
  intros Hm Hd He. revert i j.
  induction ts as [|[[u v] x] ts IH] using rev_ind; intros i j.
  - unfold edges_between, add_weighted_edges_from, add_edges_from. simpl.
    by rewrite He.
  - rewrite stored_between_snoc. cbn [fst snd].
    unfold add_weighted_edges_from in *.
    rewrite map_app. unfold add_edges_from in *. rewrite foldl_app.
    cbn [map foldl fst snd].
    set (G := foldl add_edge G0 _) in *.
    destruct (add_edges_from_flags G0
                (map (λ t : nat * nat * Z, (t.1.1, t.1.2, {[attr := t.2]})) ts))
      as [HdG HmG].
    unfold add_edges_from in HdG, HmG. fold G in HdG, HmG.
    rewrite Hd in HdG. rewrite Hm in HmG.
    assert (∀ G' : graph, is_directed G' = false →
              edges_between G' i j
              = filter (λ e : edge, joins false i j e = true) (edges G')) as Hbetw.
    { intros G' HG'. unfold edges_between. by rewrite HG'. }
    specialize (IH i j). rewrite (Hbetw G HdG) in IH.
    unfold add_edge. rewrite HmG, HdG.
    destruct (existsb (joins false u v) (edges G)) eqn:Hex.
    + rewrite Hbetw by done. cbn [edges].
      assert (∀ es : list edge,
                filter (λ e : edge, joins false i j e = true)
                  (map (λ e : edge, if joins false u v e
                                    then (e.1.1, e.1.2,
                                          ({[attr := x]} : gmap string Z) ∪ e.2)
                                    else e) es)
                = map (λ e : edge, if joins false u v e
                                   then (e.1.1, e.1.2,
                                         ({[attr := x]} : gmap string Z) ∪ e.2)
                                   else e)
                      (filter (λ e : edge, joins false i j e = true) es)) as Hfm.
      { induction es as [|e es IHes]; [done|].
        cbn [map]. rewrite !filter_cons, IHes.
        destruct (joins false u v e) eqn:Hj; cbn [fst snd];
          [|destruct (decide (joins false i j e = true)); cbn [map];
            by rewrite ?Hj].
        change (joins false i j (e.1.1, e.1.2, {[attr := x]} ∪ e.2))
          with (joins false i j e).
        destruct (decide (joins false i j e = true)); cbn [map];
          by rewrite ?Hj. }
      rewrite Hfm.
      destruct (decide ((u = i ∧ v = j) ∨ (u = j ∧ v = i))) as [Heq|Hne].
      * rewrite last_snoc.
        apply existsb_exists in Hex as (e & Hin & Hj).
        apply list_elem_of_In in Hin.
        assert (joins false i j e = true) as Hj'.
        { apply joins_undirected_iff. apply joins_undirected_iff in Hj.
          naive_solver. }
        assert (e ∈ filter (λ e : edge, joins false i j e = true) (edges G))
          as Hat by by apply list_elem_of_filter.
        destruct (filter (λ e : edge, joins false i j e = true) (edges G))
          as [|e1 [|e2 es]] eqn:Hf.
        { by apply elem_of_nil in Hat. }
        2: { destruct (last (stored_between ts i j)); discriminate IH. }
        assert (joins false u v e1 = true) as Hj1.
        { apply list_elem_of_singleton in Hat as ->. done. }
        cbn [map]. rewrite Hj1. cbn [snd].
        destruct (last (stored_between ts i j)) as [t|]; [|discriminate IH].
        injection IH as ->. by rewrite singleton_union_same.
      * rewrite app_nil_r, <- IH. rewrite map_map. apply map_ext_in.
        intros e [Hj _]%list_elem_of_In%list_elem_of_filter.
        destruct (joins false u v e) eqn:Hj2; [|done].
        exfalso. apply Hne.
        apply joins_undirected_iff in Hj. apply joins_undirected_iff in Hj2.
        naive_solver.
    + rewrite Hbetw by done. cbn [edges]. rewrite filter_app, map_app, IH.
      rewrite filter_cons, filter_nil.
      destruct (decide ((u = i ∧ v = j) ∨ (u = j ∧ v = i))) as [Heq|Hne].
      * rewrite last_snoc.
        rewrite decide_True by (by apply joins_undirected_iff).
        assert (filter (λ e : edge, joins false i j e = true) (edges G) = [])
          as Hnone.
        { apply filter_none. intros e Hin Hj.
          apply not_true_iff_false in Hex. apply Hex.
          apply existsb_exists. exists e.
          split; [by apply list_elem_of_In|].
          apply joins_undirected_iff. apply joins_undirected_iff in Hj.
          naive_solver. }
        rewrite Hnone in IH. simpl in IH. by rewrite <- IH.
      * rewrite decide_False; [by rewrite !app_nil_r|].
        intros Hj%joins_undirected_iff. by apply Hne.
Qed.

(** Decoding a sparse matrix into an undirected simple graph (the default
    target): two nodes are joined by one edge when a position between
    them is stored, in either order, and the edge weighs the value stored
    last among those positions; otherwise they are not joined. *)
Theorem sparse_decode_graph_last_wins (S : spmatrix) (parallel_edges : bool)
    (create_using : option graph) (attr : string) (n : nat)
    (ts : list (nat * nat * Z)) :
  sp_shape S = (n, n) →
  run (_generate_weighted_edges S) = (0%nat, Ok ts) →
  target_directed create_using = false →
  target_multigraph create_using = false →
  ∃ G, run (from_scipy_sparse_matrix S parallel_edges create_using attr)
       = (0%nat, Ok G)
       ∧ ∀ i j, map snd (edges_between G i j)
                = match last (stored_between ts i j) with
                  | Some t => [{[attr := t.2]}]
                  | None => []
                  end.
Proof.
  intros Hshape Hts Hd Hm.
  rewrite (from_scipy_sparse_matrix_run S parallel_edges create_using attr n ts)
    by tauto.
  eexists. split; [reflexivity|]. intros i j.
  rewrite Hm, Hd. simpl.
  by apply add_weighted_edges_graph_last.
Qed.

Lemma sparse_decode_graph_last_wins_witness :
  ∃ G, run (from_scipy_sparse_matrix
              (Spmatrix (2, 2)%nat kind_i
                 (COO [0; 1; 0]%nat [1; 0; 1]%nat [3; 4; 5]))
              false None "weight") = (0%nat, Ok G)
       ∧ ∀ i j, map snd (edges_between G i j)
                = match last (stored_between
                                [(0%nat, 1%nat, 3); (1%nat, 0%nat, 4);
                                 (0%nat, 1%nat, 5)] i j)
                  with
                  | Some t => [{["weight" := t.2]}]
                  | None => []
                  end.
Proof.
  refine (sparse_decode_graph_last_wins
            (Spmatrix (2, 2)%nat kind_i
               (COO [0; 1; 0]%nat [1; 0; 1]%nat [3; 4; 5]))
            false None "weight" 2%nat
            [(0%nat, 1%nat, 3); (1%nat, 0%nat, 4); (0%nat, 1%nat, 5)]
            _ _ _ _); reflexivity.
Defined.

Lemma filter_nonzero_pair A n i j :
  shape A = (n, n) → (i < j)%nat → (j < n)%nat →
  filter (λ uv : nat * nat, (uv.1 = i ∧ uv.2 = j) ∨ (uv.1 = j ∧ uv.2 = i))
         (nonzero A)
  = (if decide (entry A i j = 0) then [] else [(i, j)])
    ++ (if decide (entry A j i = 0) then [] else [(j, i)]).
Proof.
  intros Hshape Hij Hjn. unfold nonzero. rewrite Hshape. cbn [fst snd].
  rewrite filter_flat_map.
  replace n with (j + (n - j))%nat at 1 by lia.
  rewrite seq_app, flat_map_app. cbn [Nat.add]. f_equal.
  - rewrite (flat_map_select _ _ i).
    + rewrite decide_True by (apply elem_of_seq; lia).
      rewrite filter_flat_map. rewrite (flat_map_seq_select _ j).
      * rewrite decide_True by lia. case_decide; [done|].
        rewrite filter_cons_True; [done|]. by left.
      * intros v Hv. case_decide; [done|].
        rewrite filter_cons_False; [done|]. simpl. lia.
    + apply NoDup_seq.
    + intros u Hu%elem_of_seq Hne. rewrite filter_flat_map.
      apply flat_map_nil. intros v _. case_decide; [done|].
      rewrite filter_cons_False; [done|]. simpl. lia.
  - rewrite (flat_map_select _ _ j).
    + rewrite decide_True by (apply elem_of_seq; lia).
      rewrite filter_flat_map. rewrite (flat_map_seq_select _ i).
      * rewrite decide_True by lia. case_decide; [done|].
        rewrite filter_cons_True; [done|]. by right.
      * intros v Hv. case_decide; [done|].
        rewrite filter_cons_False; [done|]. simpl. lia.
    + apply NoDup_seq.
    + intros u Hu%elem_of_seq Hne. rewrite filter_flat_map.
      apply flat_map_nil. intros v _. case_decide; [done|].
      rewrite filter_cons_False; [done|]. simpl. lia.
Qed.

(** Decoding a dense matrix into an undirected simple graph (the default
    target) reads the cells row by row, so for two nodes [i < j] the cell
    below the diagonal is read last: the edge weighs [A[j, i]] when that
    cell is nonzero, [A[i, j]] when only that one is nonzero, and the
    nodes are not joined when both are zero. *)
Theorem from_numpy_matrix_graph_lower_wins (A : ndarray) (parallel_edges : bool)
    (create_using : option graph) (n : nat) (t : python_type) (i j : nat) :
  shape A = (n, n) →
  kind_to_python_type (kind A) = Some t →
  target_directed create_using = false →
  target_multigraph create_using = false →
  (i < j)%nat → (j < n)%nat →
  ∃ G, run (from_numpy_matrix A parallel_edges create_using) = (0%nat, Ok G)
       ∧ map snd (edges_between G i j)
         = if decide (entry A j i = 0)
           then if decide (entry A i j = 0) then []
                else [{["weight" := cast t (entry A i j)]}]
           else [{["weight" := cast t (entry A j i)]}].
Proof.
  intros Hshape Hkind Hd Hm Hij Hjn.
  rewrite (from_numpy_matrix_run A parallel_edges create_using n t) by done.
  eexists. split; [reflexivity|].
  rewrite Hm, Hd, decoded_triples_simple.
  pose proof (add_weighted_edges_graph_last (Graph false false (seq 0 n) [])
                (map (λ uv : nat * nat, (uv.1, uv.2, cast t (entry A uv.1 uv.2)))
                     (nonzero A))
                "weight" i j eq_refl eq_refl eq_refl) as Hlast.
  unfold add_weighted_edges_from in Hlast. rewrite map_map in Hlast.
  cbn [fst snd] in Hlast. rewrite Hlast. clear Hlast.
  assert (∀ l : list (nat * nat),
            stored_between
              (map (λ uv : nat * nat, (uv.1, uv.2, cast t (entry A uv.1 uv.2))) l)
              i j
            = map (λ uv : nat * nat, (uv.1, uv.2, cast t (entry A uv.1 uv.2)))
                  (filter (λ uv : nat * nat,
                             (uv.1 = i ∧ uv.2 = j) ∨ (uv.1 = j ∧ uv.2 = i)) l))
    as Hfm.
  { unfold stored_between. induction l as [|uv l IH]; [done|].
    cbn [map]. rewrite !filter_cons, IH. cbn [fst snd].
    destruct (decide ((uv.1 = i ∧ uv.2 = j) ∨ (uv.1 = j ∧ uv.2 = i))); done. }
  rewrite Hfm, (filter_nonzero_pair A n i j) by done.
  destruct (decide (entry A j i = 0)), (decide (entry A i j = 0)); done.
Qed.

Lemma from_numpy_matrix_graph_lower_wins_witness :
  ∃ G, run (from_numpy_matrix (Ndarray kind_i [[0; 2]; [7; 0]]) false None)
       = (0%nat, Ok G)
       ∧ map snd (edges_between G 0 1)
         = if decide (entry (Ndarray kind_i [[0; 2]; [7; 0]]) 1 0 = 0)
           then if decide (entry (Ndarray kind_i [[0; 2]; [7; 0]]) 0 1 = 0)
                then []
                else [{["weight" :=
                          cast py_int (entry (Ndarray kind_i [[0; 2]; [7; 0]]) 0 1)]}]
           else [{["weight" :=
                     cast py_int (entry (Ndarray kind_i [[0; 2]; [7; 0]]) 1 0)]}].
Proof.
  refine (from_numpy_matrix_graph_lower_wins (Ndarray kind_i [[0; 2]; [7; 0]])
            false None 2%nat py_int 0%nat 1%nat _ _ _ _ _ _);
    try reflexivity; lia.
Defined.

(** ** Structured arrays: what a cell holds *)

Lemma rec_square_setitem n M i j x :
  rec_square n M → rec_square n (rec_setitem M i j x).
Proof.
  intros [Hlen Hrows]. split; [unfold rec_setitem; by rewrite length_alter|].
  intros i' row. unfold rec_setitem.
  destruct (decide (i = i')) as [<-|Hne].
  - rewrite list_lookup_alter_eq.
    destruct (M !! i) as [row0|] eqn:Hrow; [|done].
    intros [= <-]. rewrite length_insert. by eapply Hrows.
  - rewrite list_lookup_alter_ne by done. apply Hrows.
Qed.

Lemma rec_getitem_setitem n M i j x i' j' :
  rec_square n M → (i < n)%nat → (j < n)%nat →
  rec_getitem (rec_setitem M i j x) i' j'
  = if decide (i = i' ∧ j = j') then x else rec_getitem M i' j'.
Proof.
  intros [Hlen Hrows] Hi Hj. unfold rec_getitem, rec_setitem.
  destruct (decide (i = i')) as [<-|Hne].
  - rewrite list_lookup_alter_eq.
    destruct (M !! i) as [row|] eqn:Hrow.
    + simpl. destruct (decide (j = j')) as [<-|Hnej].
      * rewrite decide_True by done.
        rewrite list_lookup_insert_eq; [done|]. by rewrite (Hrows i row).
      * rewrite decide_False by (by intros [_ ?]).
        by rewrite list_lookup_insert_ne.
    + apply lookup_ge_None in Hrow. lia.
  - rewrite list_lookup_alter_ne by done.
    by rewrite decide_False by (by intros [? _]).
Qed.

Lemma rec_getitem_zeros n (z : list Z) i j :
  (i < n)%nat → (j < n)%nat →
  rec_getitem (replicate n (replicate n z)) i j = z.
Proof.
  intros Hi Hj. unfold rec_getitem.
  rewrite lookup_replicate_2 by done. by rewrite lookup_replicate_2.
Qed.

Lemma field_values_fields (attrs : gmap string Z) (names : list string) k :
  (∀ n, n ∈ names → is_Some (attrs !! n)) →
  field_values attrs names k = (k, Ok (fields names attrs)).
Proof.
  induction names as [|n names IH]; intros Hall; [done|].
  cbn [field_values fields map].
  destruct (Hall n ltac:(left)) as [x Hx]. rewrite Hx.
  unfold py_bind. rewrite IH by (intros n' Hn'; apply Hall; by right). done.
Qed.

Lemma py_for_pure {A S} (l : list A) (body : S → A → py S) (step : S → A → S) :
  (∀ a, a ∈ l → ∀ s k, body s a k = (k, Ok (step s a))) →
  ∀ s k, py_for l body s k = (k, Ok (foldl step s l)).
Proof.
  induction l as [|a l IH]; intros Hl s k; [done|].
  cbn [py_for foldl]. unfold py_bind. rewrite (Hl a) by left.
  apply IH. intros b Hb. apply Hl. by right.
Qed.

Lemma foldl_last_hit {A C} (P : A → Prop) `{!∀ x, Decision (P x)}
    (f : A → C) (c0 : C) (l : list A) :
  foldl (λ c e, if decide (P e) then f e else c) c0 l
  = match last (filter P l) with Some e => f e | None => c0 end.
Proof.
  induction l as [|e l IH] using rev_ind; [done|].
  rewrite foldl_app, filter_app. cbn [foldl]. rewrite filter_cons, filter_nil.
  destruct (decide (P e)).
  - by rewrite last_snoc.
  - by rewrite app_nil_r.
Qed.

Section rec_step.
Variable nl : list node.
Hypothesis nl_nodup : NoDup nl.
Variables (names : list string) (undirected : bool).

Let n := length nl.
Let index : gmap node nat := dict_zip nl (seq 0 n).
Let nodeset : gset node := list_to_set nl.
Let step := rec_step index nodeset names undirected.

Lemma rec_step_square M e : rec_square n M → rec_square n (step M e).
Proof.
  intros HM. destruct e as [[u v] d]. unfold step, rec_step.
  case_decide; [|done].
  destruct (index !! u) as [i|]; [|done].
  destruct (index !! v) as [j|]; [|done].
  destruct undirected; by repeat apply rec_square_setitem.
Qed.

Lemma rec_step_getitem M e i j :
  rec_square n M → (undirected = true → rec_symmetric M) →
  rec_getitem (step M e) i j
  = rec_cell index names undirected i j (rec_getitem M i j) e.
Proof.
  intros HM Hsym. destruct e as [[u v] d].
  unfold step, rec_step, rec_cell. simpl.
  case_decide as Hin.
  - destruct Hin as [Hu%index_nodeset Hv%index_nodeset]; [|done..].
    destruct Hu as [iu Hu], Hv as [iv Hv].
    fold n index in Hu, Hv. rewrite Hu, Hv.
    pose proof (index_lt nl nl_nodup u iu Hu) as Hiu.
    pose proof (index_lt nl nl_nodup v iv Hv) as Hiv.
    fold n in Hiu, Hiv.
    destruct undirected eqn:Hund.
    + rewrite !(rec_getitem_setitem n) by (done || by apply rec_square_setitem).
      rewrite (decide_True (P := iu = iu ∧ iv = iv)) by done.
      destruct (decide (iv = i ∧ iu = j)) as [[-> ->]|Hne1].
      * by rewrite decide_True by (right; done).
      * destruct (decide (iu = i ∧ iv = j)) as [[-> ->]|Hne2].
        -- by rewrite decide_True by (left; done).
        -- rewrite decide_False; [done|].
           intros [[[= ->] [= ->]]|(_ & [= ->] & [= ->])];
             [by apply Hne2|by apply Hne1].
    + rewrite !(rec_getitem_setitem n) by done.
      destruct (decide (iu = i ∧ iv = j)) as [[-> ->]|Hne].
      * by rewrite decide_True by (left; done).
      * rewrite decide_False; [done|].
        intros [[[= ->] [= ->]]|(? & _)]; [by apply Hne|done].
  - rewrite decide_False; [done|].
    intros [[Hu Hv]|(_ & Hu & Hv)]; apply Hin;
      split; apply (index_nodeset nl nl_nodup); by eapply mk_is_Some.
Qed.

Lemma rec_step_symmetric M e :
  rec_square n M → rec_symmetric M → undirected = true →
  rec_symmetric (step M e).
Proof.
  intros HM Hsym Hund i j.
  rewrite !rec_step_getitem by done.
  unfold rec_cell. rewrite (Hsym i j).
  apply decide_ext. rewrite Hund. naive_solver.
Qed.

Lemma rec_fold_getitem es M i j :
  rec_square n M → (undirected = true → rec_symmetric M) →
  rec_getitem (foldl step M es) i j
  = foldl (rec_cell index names undirected i j) (rec_getitem M i j) es.
Proof.
  revert M. induction es as [|e es IH]; intros M HM Hsym; [done|].
  simpl. rewrite IH.
  - by rewrite rec_step_getitem.
  - by apply rec_step_square.
  - intros Hund. apply rec_step_symmetric; auto.
Qed.
End rec_step.

(** A structured encode of a simple graph whose listed edges have every
    requested field: the cell of two listed nodes holds the fields of the
    edge joining them that the graph reports last, and zeros in every
    field when no edge joins them.  For an undirected graph an edge joins
    its endpoints in both orders, so the matrix is mirrored. *)
Theorem recarray_cell (G : graph) (nl : list node) (names : list string)
    (i j : nat) (a b : node) :
  is_multigraph G = false →
  NoDup nl →
  nl !! i = Some a → nl !! j = Some b →
  (∀ e : edge, e ∈ edges_iter G None → e.1.1 ∈ nl → e.1.2 ∈ nl →
               ∀ name, name ∈ names → is_Some (e.2 !! name)) →
  ∃ M, run (to_numpy_recarray G (Some nl) names) = (1%nat, Ok M)
       ∧ rec_getitem M i j
         = match last (filter (λ e : edge, joins (is_directed G) a b e = true)
                              (edges_iter G None)) with
           | Some e => fields names e.2
           | None => replicate (length names) 0
           end.
Proof.
  intros Hm Hnd Hi Hj Hall.
  unfold to_numpy_recarray, not_implemented_for_multigraph. rewrite Hm.
  rewrite decide_False by by apply dup_check_false.
  unfold run, py_bind at 1, py_alloc.
  rewrite (py_for_pure _ _
             (rec_step (dict_zip nl (seq 0 (length nl))) (list_to_set nl) names
                       (negb (is_directed G)))).
  - eexists. split; [reflexivity|].
    assert (i < length nl)%nat as Hil by by eapply lookup_lt_Some.
    assert (j < length nl)%nat as Hjl by by eapply lookup_lt_Some.
    assert (rec_square (length nl)
              (replicate (length nl)
                 (replicate (length nl) (replicate (length names) 0)))) as Hsq.
    { split; [apply length_replicate|].
      intros i' row [-> _]%lookup_replicate. apply length_replicate. }
    rewrite (rec_fold_getitem nl Hnd) by
      (done || (intros _ i' j'; unfold rec_getitem;
                destruct (replicate _ _ !! i') as [row|] eqn:Hr;
                destruct (replicate _ _ !! j') as [row'|] eqn:Hr';
                repeat match goal with
                       | H : replicate _ _ !! _ = Some _ |- _ =>
                           apply lookup_replicate in H as [-> ?]
                       end; try done;
                repeat match goal with
                       | |- context [replicate ?n ?x !! ?k] =>
                           destruct (replicate n x !! k) eqn:?
                       end;
                repeat match goal with
                       | H : replicate _ _ !! _ = Some _ |- _ =>
                           apply lookup_replicate in H as [-> ?]
                       | H : replicate _ _ !! _ = None |- _ =>
                           apply lookup_replicate_None in H
                       end; try done; lia)).
    rewrite rec_getitem_zeros by done.
    rewrite <- (foldl_last_hit
                  (λ e : edge, joins (is_directed G) a b e = true)
                  (λ e : edge, fields names e.2)).
    apply foldl_ext_in. intros c e _. unfold rec_cell.
    apply decide_ext. rewrite joins_spec.
    rewrite !(index_at_i nl a i Hnd Hi), !(index_at_i nl b j Hnd Hj). tauto.
  - intros [[u v] attrs] Hin s k. unfold rec_step.
    destruct (decide (u ∈ (list_to_set nl : gset node)
                      ∧ v ∈ (list_to_set nl : gset node))) as [[Hu Hv]|];
      [|done].
    destruct (dict_zip nl (seq 0 (length nl)) !! u) as [iu|]; [|done].
    destruct (dict_zip nl (seq 0 (length nl)) !! v) as [iv|]; [|done].
    unfold py_bind. rewrite field_values_fields; [done|].
    apply elem_of_list_to_set in Hu, Hv. by apply (Hall _ Hin).
Qed.

Lemma recarray_cell_witness :
  ∃ M, run (to_numpy_recarray
              (Graph false false [0; 1; 2]%nat
                 [(0%nat, 1%nat, <["weight" := 7]> {["cost" := 2]});
                  (1%nat, 2%nat, ∅)])
              (Some [1; 0]%nat) ["weight"; "cost"]) = (1%nat, Ok M)
       ∧ rec_getitem M 0 1
         = match last (filter (λ e : edge, joins false 1%nat 0%nat e = true)
                         (edges_iter
                            (Graph false false [0; 1; 2]%nat
                               [(0%nat, 1%nat, <["weight" := 7]> {["cost" := 2]});
                                (1%nat, 2%nat, ∅)]) None)) with
           | Some e => fields ["weight"; "cost"] e.2
           | None => replicate (length ["weight"; "cost"]) 0
           end.
Proof.
  refine (recarray_cell
            (Graph false false [0; 1; 2]%nat
               [(0%nat, 1%nat, <["weight" := 7]> {["cost" := 2]});
                (1%nat, 2%nat, ∅)])
            [1; 0]%nat ["weight"; "cost"] 0%nat 1%nat 1%nat 0%nat
            eq_refl _ eq_refl eq_refl _).
  - repeat constructor; set_solver.
  - intros e He Hu Hv name Hname.
    change (e ∈ [((0%nat, 1%nat, <["weight" := 7]> {["cost" := 2]}) : edge);
                 (1%nat, 2%nat, ∅)]) in He.
    apply elem_of_cons in He as [->|He].
    + apply elem_of_cons in Hname as [->|Hname]; [by exists 7|].
      apply list_elem_of_singleton in Hname as ->. by exists 2.
    + apply list_elem_of_singleton in He as ->. simpl in Hv. set_solver.
Defined.

(** ** Decoding a sparse matrix of counts *)

Lemma expanded_triples_at (ts : list (nat * nat * Z)) (attr : string) i j :
  filter (λ e : edge, e.1.1 = i ∧ e.1.2 = j)
    (map (λ t : nat * nat * Z, (t.1.1, t.1.2, {[attr := t.2]}))
       (flat_map (λ t : nat * nat * Z,
                    replicate (Z.to_nat t.2) (t.1.1, t.1.2, 1)) ts))
  = replicate (sum_list (map (λ t : nat * nat * Z, Z.to_nat t.2)
                             (stored_at ts i j)))
              (i, j, {[attr := 1]}).
Proof.
  unfold stored_at. induction ts as [|[[u v] x] ts IH]; [done|].
  cbn [flat_map fst snd]. rewrite map_app, filter_app, IH.
  change (map ?f (replicate ?k ?y)) with (f <$> replicate k y).
  rewrite fmap_replicate, filter_replicate, filter_cons. cbn [fst snd].
  destruct (decide (u = i ∧ v = j)) as [[-> ->]|Hne].
  - cbn [map sum_list sum_list_with snd]. by rewrite replicate_add.
  - done.
Qed.

Lemma expanded_triples_upper (ts : list (nat * nat * Z)) :
  filter (λ t : nat * nat * Z, (t.1.1 ≤ t.1.2)%nat)
    (flat_map (λ t : nat * nat * Z,
                 replicate (Z.to_nat t.2) (t.1.1, t.1.2, 1)) ts)
  = flat_map (λ t : nat * nat * Z, replicate (Z.to_nat t.2) (t.1.1, t.1.2, 1))
      (filter (λ t : nat * nat * Z, (t.1.1 ≤ t.1.2)%nat) ts).
Proof.
  induction ts as [|[[u v] x] ts IH]; [done|].
  cbn [flat_map fst snd]. rewrite filter_app, IH, filter_replicate, filter_cons.
  cbn [fst snd]. by destruct (decide (u ≤ v)%nat).
Qed.

Lemma stored_at_upper (ts : list (nat * nat * Z)) i j :
  stored_at (filter (λ t : nat * nat * Z, (t.1.1 ≤ t.1.2)%nat) ts) i j
  = if decide (i ≤ j)%nat then stored_at ts i j else [].
Proof.
  unfold stored_at. induction ts as [|[[u v] x] ts IH].
  - by destruct (decide _).
  - rewrite !filter_cons. cbn [fst snd].
    destruct (decide (u ≤ v)%nat) as [Hle|Hgt].
    + rewrite filter_cons, IH. cbn [fst snd].
      destruct (decide (u = i ∧ v = j)) as [[-> ->]|Hne];
        destruct (decide (i ≤ j)%nat); done.
    + rewrite IH.
      destruct (decide (u = i ∧ v = j)) as [[-> ->]|Hne];
        destruct (decide (i ≤ j)%nat); done.
Qed.

(** Decoding a sparse matrix of integers into a multigraph with
    [parallel_edges=True]: the edges from [i] to [j] are unit edges, as
    many as the values stored for the position [(i, j)] add up to, a
    negative value counting as 0.  An undirected target takes them from
    the positions with [i <= j] only. *)
Theorem sparse_decode_parallel_edges (S : spmatrix)
    (create_using : option graph) (attr : string) (n : nat)
    (ts : list (nat * nat * Z)) :
  sp_shape S = (n, n) →
  sp_kind S = kind_i ∨ sp_kind S = kind_u →
  target_multigraph create_using = true →
  run (_generate_weighted_edges S) = (0%nat, Ok ts) →
  ∃ G, run (from_scipy_sparse_matrix S true create_using attr) = (0%nat, Ok G)
       ∧ ∀ i j,
           edges_at G i j
           = if target_directed create_using || bool_decide (i ≤ j)%nat
             then replicate
                    (sum_list (map (λ t : nat * nat * Z, Z.to_nat t.2)
                                   (stored_at ts i j)))
                    (i, j, {[attr := 1]})
             else [].
Proof.
  intros Hshape Hkind Hm Hts.
  unfold from_scipy_sparse_matrix. rewrite Hshape.
  rewrite decide_False by (intros ?; done).
  rewrite (py_bind_run_ok _ _ _ _ Hts).
  rewrite bool_decide_eq_true_2 by done.
  unfold target_multigraph, target_directed in *.
  cbn [add_nodes_from is_multigraph is_directed]. rewrite Hm. cbn [andb].
  eexists. split; [reflexivity|]. intros i j.
  unfold edges_at, add_weighted_edges_from.
  match goal with
  | |- context [add_edges_from ?G ?l] =>
      destruct (add_edges_from_multigraph G l) as (-> & _ & _); [done|]
  end.
  assert (edges (add_nodes_from (_prep_create_using create_using) (seq 0 n))
          = []) as -> by by destruct create_using.
  cbn [app].
  destruct (is_directed (_prep_create_using create_using)); cbn [negb orb].
  - apply expanded_triples_at.
  - rewrite expanded_triples_upper, expanded_triples_at, stored_at_upper.
    destruct (decide (i ≤ j)%nat).
    + by rewrite bool_decide_eq_true_2.
    + by rewrite bool_decide_eq_false_2.
Qed.

Lemma sparse_decode_parallel_edges_witness :
  ∃ G, run (from_scipy_sparse_matrix
              (Spmatrix (2, 2)%nat kind_i
                 (COO [0; 1; 0]%nat [1; 0; 1]%nat [2; -4; 1]))
              true (Some MultiGraph) "weight") = (0%nat, Ok G)
       ∧ ∀ i j,
           edges_at G i j
           = if target_directed (Some MultiGraph) || bool_decide (i ≤ j)%nat
             then replicate
                    (sum_list (map (λ t : nat * nat * Z, Z.to_nat t.2)
                                 (stored_at [(0%nat, 1%nat, 2); (1%nat, 0%nat, -4);
                                             (0%nat, 1%nat, 1)] i j)))
                    (i, j, {["weight" := 1]})
             else [].
Proof.
  refine (sparse_decode_parallel_edges
            (Spmatrix (2, 2)%nat kind_i
               (COO [0; 1; 0]%nat [1; 0; 1]%nat [2; -4; 1]))
            (Some MultiGraph) "weight" 2%nat
            [(0%nat, 1%nat, 2); (1%nat, 0%nat, -4); (0%nat, 1%nat, 1)]
            _ _ _ _).
  - reflexivity.
  - left. reflexivity.
  - reflexivity.
  - reflexivity.
Defined.

(** ** Partial orderings: the matrix of the induced subgraph *)

Lemma graph_wf_induced G nl : graph_wf G → graph_wf (induced G nl).
Proof.
  intros [Hnd Hends]. split.
  - by apply NoDup_filter.
  - intros e [[Hu Hv] He]%list_elem_of_filter.
    destruct (Hends e He) as [Hun Hvn].
    split; by apply list_elem_of_filter.
Qed.

Lemma foldl_fin_last {A} (w : A → Z) (l : list A) :
  foldl (λ (c : cell) e, fin (w e)) nan l
  = match last l with Some e => fin (w e) | None => nan end.
Proof.
  induction l as [|e l IH] using rev_ind; [done|].
  by rewrite foldl_app, last_snoc.
Qed.

(** C6.  For every graph and every duplicate-free ordering [nl], omitting
    nodes of the graph or not, dense encode raises no error and returns
    the adjacency matrix of the subgraph induced by the nodes of [nl].
    It is the matrix the encode of that subgraph returns, and the cell of
    two listed nodes is read off the edges of that subgraph alone: for a
    multigraph the nonedge value when none of them joins the two nodes
    and else their weights combined by the reducer, for another graph the
    nonedge value or the weight of the edge joining them.  An edge with an
    endpoint outside [nl] is not an edge of that subgraph. *)
Theorem partial_ordering_induced_subgraph (G : graph) (nl : list node)
    (f : pyfun) (weight : option string) (nonedge : cell) :
  NoDup nl →
  (is_multigraph G = true → is_Some (operator f)) →
  ∃ M, run (to_numpy_matrix G (Some nl) f weight nonedge) = (1%nat, Ok M)
       ∧ run (to_numpy_matrix (induced G nl) (Some nl) f weight nonedge)
         = (1%nat, Ok M)
       ∧ ∀ (op : list cell → cell) (i j : nat) (a b : node),
           (is_multigraph G = true → operator f = Some op) →
           (is_multigraph G = false → graph_wf G) →
           nl !! i = Some a → nl !! j = Some b →
           getitem M i j
           = if is_multigraph G then
               match map (λ e : edge, attrs_get e.2 weight 1)
                         (filter (λ e : edge,
                                    joins (is_directed G) a b e = true)
                                 (edges_iter (induced G nl) None)) with
               | [] => nonedge
               | ws => combine op ws
               end
             else
               match last (edges_between (induced G nl) a b) with
               | Some e => fin (attrs_get e.2 weight 1)
               | None => nonedge
               end.
Proof.
  intros Hnd Hop.
  destruct (to_numpy_matrix_induced G nl f weight nonedge Hnd Hop)
    as (M & HM & HM').
  exists M. split; [done|]. split; [done|].
  intros op i j a b Hop' Hwf Hi Hj.
  destruct (to_numpy_matrix_run (induced G nl) (Some nl) f weight nonedge)
    as (M' & HM2 & Hcell); [done | done |].
  rewrite HM' in HM2. injection HM2 as <-.
  rewrite (Hcell op i j); [| done | by eapply lookup_lt_Some..].
  cbn [ordering]. cbv zeta.
  change (is_multigraph (induced G nl)) with (is_multigraph G) in *.
  destruct (is_multigraph G) eqn:Hm.
  - rewrite (raw_cell_multigraph (induced G nl) nl op weight i j a b) by done.
    change (is_directed (induced G nl)) with (is_directed G).
    unfold edge_weight.
    destruct (map _ _) as [|x ws] eqn:Hws; [done|].
    by rewrite (combine_not_nan f op x ws (Hop' eq_refl)).
  - rewrite (raw_cell_simple (induced G nl) nl op weight i j a b);
      [| done | done | by apply graph_wf_induced, Hwf | done | done].
    rewrite foldl_fin_last. unfold edge_weight.
    by destruct (last _).
Qed.

Lemma partial_ordering_induced_subgraph_witness :
  ∃ M, run (to_numpy_matrix
              (Graph false false [1; 2; 3]%nat
                     [(1, 2, weighted 5); (2, 3, weighted 7)]%nat)
              (Some [3; 2]%nat) py_sum (Some "weight") (fin 0))
       = (1%nat, Ok M)
       ∧ run (to_numpy_matrix
                (induced (Graph false false [1; 2; 3]%nat
                                [(1, 2, weighted 5); (2, 3, weighted 7)]%nat)
                         [3; 2]%nat)
                (Some [3; 2]%nat) py_sum (Some "weight") (fin 0))
         = (1%nat, Ok M)
       ∧ getitem M 0 1 = fin 7
       ∧ getitem M 1 1 = fin 0.
Proof.
  destruct (partial_ordering_induced_subgraph
              (Graph false false [1; 2; 3]%nat
                     [(1, 2, weighted 5); (2, 3, weighted 7)]%nat)
              [3; 2]%nat py_sum (Some "weight") (fin 0))
    as (M & HM & HM' & Hcell).
  - apply NoDup_cons. split; [set_solver|]. apply NoDup_singleton.
  - discriminate.
  - assert (graph_wf (Graph false false [1; 2; 3]%nat
                        [(1, 2, weighted 5); (2, 3, weighted 7)]%nat)) as Hwf.
    { split; simpl.
      - repeat (apply NoDup_cons; split; [set_solver|]). constructor.
      - intros e He. set_solver. }
    exists M. split; [exact HM|]. split; [exact HM'|]. split.
    + rewrite (Hcell nansum 0%nat 1%nat 3%nat 2%nat);
        [vm_compute; reflexivity | discriminate | done | reflexivity
         | reflexivity].
    + rewrite (Hcell nansum 1%nat 1%nat 2%nat 2%nat);
        [vm_compute; reflexivity | discriminate | done | reflexivity
         | reflexivity].
Defined.

(** ** Sparse encode of an undirected graph over a partial ordering *)

Lemma index_triples_listed (index : gmap node nat) weight
    (P : edge → Prop) `{!∀ e, Decision (P e)} (es : list edge) :
  (∀ e : edge, P e ↔ is_Some (index !! e.1.1) ∧ is_Some (index !! e.1.2)) →
  index_triples index weight es
  = map (λ e : edge, (index !!! e.1.1, index !!! e.1.2, edge_weight weight e))
        (filter P es).
Proof.
  intros HP. rewrite <- index_triples_covered.
  - unfold index_triples. induction es as [|[[u v] d] es IH]; [done|].
    cbn [flat_map]. rewrite filter_cons, IH.
    destruct (decide (P (u, v, d))) as [Hl|Hl].
    + done.
    + destruct (index !! u) as [i|] eqn:Hu; [|done].
      destruct (index !! v) as [j|] eqn:Hv; [|done].
      exfalso. apply Hl, HP. simpl. rewrite Hu, Hv. split; by eexists.
  - intros e [He _]%list_elem_of_filter. by apply HP.
Qed.

Lemma diag_pairs_listed (index : gmap node nat) weight
    (P : edge → Prop) `{!∀ e, Decision (P e)} (es : list edge) :
  (∀ e : edge, P e ↔ is_Some (index !! e.1.1) ∧ is_Some (index !! e.1.2)) →
  diag_pairs index weight es
  = map (λ e : edge, (index !!! e.1.1, - edge_weight weight e)) (filter P es).
Proof.
  intros HP. rewrite <- diag_pairs_covered.
  - unfold diag_pairs. induction es as [|[[u v] d] es IH]; [done|].
    cbn [flat_map]. rewrite filter_cons, IH.
    destruct (decide (P (u, v, d))) as [Hl|Hl].
    + done.
    + destruct (index !! u) as [i|] eqn:Hu; [|done].
      destruct (index !! v) as [j|] eqn:Hv; [|done].
      exfalso. apply Hl, HP. simpl. rewrite Hu, Hv. split; by eexists.
  - intros e [He _]%list_elem_of_filter. by apply HP.
Qed.

Section sparse_undirected_listed.
Variables (G : graph) (nodelist : option (list node)) (weight : option string).
Hypothesis G_undirected : is_directed G = false.
Hypothesis G_wf : graph_wf G.

Let nl := ordering G nodelist.
Hypothesis nl_nodup : NoDup nl.

Let index : gmap node nat := dict_zip nl (seq 0 (length nl)).
Let es := filter (λ e : edge, e.1.1 ∈ nl ∧ e.1.2 ∈ nl) (edges_iter G (Some nl)).
Let sl := filter (λ e : edge, e.1.1 ∈ nl ∧ e.1.2 ∈ nl) (selfloop_edges G).

Lemma listed_index (e : edge) :
  e.1.1 ∈ nl ∧ e.1.2 ∈ nl
  ↔ is_Some (index !! e.1.1) ∧ is_Some (index !! e.1.2).
Proof. unfold index. by rewrite !(index_is_Some nl nl_nodup). Qed.

Lemma listed_edge_enumerated a b d :
  (a, b, d) ∈ edges G → a ∈ nl → b ∈ nl → es ≠ [].
Proof.
  intros He Ha Hb Hnil.
  destruct G_wf as [_ Hends]. destruct (Hends _ He) as [Han Hbn].
  simpl in Han, Hbn.
  assert ((a, b, d) ∈ edges_iter G (Some nl)
          ∨ (b, a, d) ∈ edges_iter G (Some nl)) as Hin.
  { unfold edges_iter. rewrite G_undirected.
    apply edges_seen_reports; try done.
    - unfold nbunch_iter. by apply list_elem_of_filter.
    - unfold nbunch_iter. by apply list_elem_of_filter. }
  assert (∃ e : edge, e ∈ es) as [e Hes].
  { destruct Hin as [Hin|Hin]; eexists; apply list_elem_of_filter;
      (split; [|exact Hin]); done. }
  rewrite Hnil in Hes. by apply elem_of_nil in Hes.
Qed.

Lemma listed_selfloop_enumerated u d :
  (u, u, d) ∈ edges G → u ∈ nl → sl ≠ [].
Proof.
  intros He Hu Hnil.
  assert ((u, u, d) ∈ filter (λ e : edge, e.1.1 = u) (selfloop_edges G)) as Hin.
  { rewrite (sl_selfloops G G_wf u). by apply list_elem_of_filter. }
  apply list_elem_of_filter in Hin as [_ Hin].
  assert ((u, u, d) ∈ sl) as Hsl by by apply list_elem_of_filter.
  rewrite Hnil in Hsl. by apply elem_of_nil in Hsl.
Qed.

Lemma to_scipy_sparse_coo_undirected_listed :
  es ≠ [] →
  (selfloop_edges G = [] ∨ sl ≠ []) →
  run (to_scipy_sparse_coo G nodelist weight)
  = (1%nat,
     Ok (Coo (length nl, length nl)
             ((edge_rows index es ++ edge_cols index es) ++ edge_rows index sl)
             ((edge_cols index es ++ edge_rows index es) ++ edge_rows index sl)
             ((edge_data weight es ++ edge_data weight es)
              ++ map Z.opp (edge_data weight sl)))).
Proof.
  intros Hes Hsl.
  assert (nl ≠ []) as Hnl.
  { intros Hnil. apply Hes. unfold es. apply filter_none.
    intros e _ [He _]. rewrite Hnil in He. by apply elem_of_nil in He. }
  assert (edges G ≠ []) as Hedges.
  { intros He. apply Hes. unfold es.
    by rewrite (edges_iter_no_edges G (Some nl) He). }
  unfold to_scipy_sparse_coo. fold (ordering G nodelist). fold nl. fold index.
  rewrite decide_False by (by destruct nl).
  rewrite decide_False by by apply dup_check_false.
  rewrite G_undirected.
  rewrite decide_False
    by (unfold number_of_edges; by destruct (edges G)).
  rewrite (index_triples_listed index weight _ _ listed_index).
  rewrite (diag_pairs_listed index weight _ _ listed_index).
  fold es sl. unfold edge_rows, edge_cols, edge_data.
  destruct es as [|e0 es0]; [done|].
  destruct (selfloop_edges G) as [|s0 sl0] eqn:Hsl0.
  - assert (sl = []) as -> by (unfold sl; by rewrite ?Hsl0).
    unfold run, py_bind, unzip3, py_ret, sparse_coo_matrix, py_alloc.
    cbn [map]. rewrite !map_map. simpl. by rewrite !app_nil_r.
  - destruct Hsl as [?|Hsl]; [done|].
    destruct sl as [|s1 sl1]; [done|].
    unfold run, py_bind, unzip3, unzip2, py_ret, sparse_coo_matrix, py_alloc.
    cbn [map]. rewrite !map_map. simpl. reflexivity.
Qed.

Lemma listed_diagonal u i :
  nl !! i = Some u →
  coo_sum ((edge_rows index es ++ edge_cols index es) ++ edge_rows index sl)
          ((edge_cols index es ++ edge_rows index es) ++ edge_rows index sl)
          ((edge_data weight es ++ edge_data weight es)
           ++ map Z.opp (edge_data weight sl)) i i
  = zsum (edge_data weight (edges_at G u u)).
Proof.
  intros Hi.
  assert (u ∈ nl) as Hu by (by eapply list_elem_of_lookup_2).
  assert (∀ e : edge, e ∈ es →
            is_Some (index !! e.1.1) ∧ is_Some (index !! e.1.2)) as Hes
    by (intros e [He _]%list_elem_of_filter; by apply listed_index).
  assert (∀ e : edge, e ∈ sl →
            is_Some (index !! e.1.1) ∧ is_Some (index !! e.1.2)) as Hsl
    by (intros e [He _]%list_elem_of_filter; by apply listed_index).
  unfold edge_rows, edge_cols, edge_data.
  rewrite !coo_sum_app by (by rewrite ?length_app, ?length_map).
  rewrite map_map, !coo_sum_map.
  rewrite (filter_ext_in _ (λ e : edge, e.1.1 = u ∧ e.1.2 = u) es).
  2:{ intros e [H1 H2]%Hes. unfold index, nl in *.
      by rewrite (index_total_at G nodelist nl_nodup e u i),
                 (index_total_at_2 G nodelist nl_nodup e u i). }
  rewrite (filter_ext_in (λ e : edge, index !!! e.1.2 = i ∧ index !!! e.1.1 = i)
                         (λ e : edge, e.1.1 = u ∧ e.1.2 = u) es).
  2:{ intros e [H1 H2]%Hes. unfold index, nl in *.
      rewrite (index_total_at G nodelist nl_nodup e u i),
              (index_total_at_2 G nodelist nl_nodup e u i) by done. tauto. }
  rewrite (filter_ext_in _ (λ e : edge, e.1.1 = u) sl).
  2:{ intros e [H1 H2]%Hsl. unfold index, nl in *.
      rewrite (index_total_at G nodelist nl_nodup e u i) by done. tauto. }
  assert (filter (λ e : edge, e.1.1 = u ∧ e.1.2 = u) es = edges_at G u u) as ->.
  { unfold es. rewrite list_filter_filter.
    rewrite <- (es_selfloops G nodelist G_undirected G_wf nl_nodup u Hu).
    apply list_filter_iff. intros e. fold nl. split; [tauto|].
    intros [H1 H2]. rewrite H1, H2. tauto. }
  assert (filter (λ e : edge, e.1.1 = u) sl = edges_at G u u) as ->.
  { unfold sl. rewrite list_filter_filter.
    rewrite <- (sl_selfloops G G_wf u).
    apply filter_ext_in. intros e [Heq _]%selfloop_edges_spec.
    split; [tauto|]. intros He. split; [done|]. rewrite <- Heq, He. done. }
  change (λ x : edge, - edge_weight weight x)
    with (λ x : edge, - (edge_weight weight) x).
  rewrite (zsum_map_opp (edge_weight weight)). lia.
Qed.
End sparse_undirected_listed.

(** Sparse encode of an undirected graph over a duplicate-free ordering
    that lists both endpoints of some edge and, when the graph has
    self-loops, the node of one of them.  The call returns the triples of
    the enumerated edges with both endpoints listed, followed by the same
    triples with row and column swapped, followed by one triple
    [(index[u], index[u], -weight)] per self-loop at a listed node.
    Materialized, the diagonal position of a listed node holds the weights
    of its self-loops once: [w], not [2w], for a single self-loop of
    weight [w]. *)
Theorem sparse_encode_undirected (has_converter : string → bool)
    (G : graph) (nodelist : option (list node)) (weight : option string)
    (fmt : string) (a b : node) (d : gmap string Z) :
  is_directed G = false →
  graph_wf G →
  NoDup (ordering G nodelist) →
  (a, b, d) ∈ edges G →
  a ∈ ordering G nodelist → b ∈ ordering G nodelist →
  ((∀ e : edge, e ∈ edges G → e.1.1 ≠ e.1.2)
   ∨ ∃ u d', (u, u, d') ∈ edges G ∧ u ∈ ordering G nodelist) →
  has_converter fmt = true →
  ∃ M index es sl,
    index = dict_zip (ordering G nodelist) (seq 0 (length (ordering G nodelist)))
    ∧ es = filter (λ e : edge, e.1.1 ∈ ordering G nodelist
                               ∧ e.1.2 ∈ ordering G nodelist)
                  (edges_iter G (Some (ordering G nodelist)))
    ∧ sl = filter (λ e : edge, e.1.1 ∈ ordering G nodelist
                               ∧ e.1.2 ∈ ordering G nodelist)
                  (selfloop_edges G)
    ∧ run (to_scipy_sparse_matrix has_converter G nodelist weight fmt)
      = (1%nat, Ok (Sparse fmt M))
    ∧ coo_shape M = (length (ordering G nodelist), length (ordering G nodelist))
    ∧ coo_row M = (edge_rows index es ++ edge_cols index es) ++ edge_rows index sl
    ∧ coo_col M = (edge_cols index es ++ edge_rows index es) ++ edge_rows index sl
    ∧ coo_data M = (edge_data weight es ++ edge_data weight es)
                   ++ map Z.opp (edge_data weight sl)
    ∧ ∀ u i, ordering G nodelist !! i = Some u →
        todense M i i = zsum (edge_data weight (edges_at G u u))
        ∧ ∀ d', edges_at G u u = [(u, u, d')] →
                todense M i i = attrs_get d' weight 1.
Proof.
  intros Hund Hwf Hnd Hab Ha Hb Hloops Hfmt.
  pose proof (listed_edge_enumerated G nodelist Hund Hwf a b d Hab Ha Hb)
    as Hes.
  assert (selfloop_edges G = []
          ∨ filter (λ e : edge, e.1.1 ∈ ordering G nodelist
                                ∧ e.1.2 ∈ ordering G nodelist)
                   (selfloop_edges G) ≠ []) as Hsl.
  { destruct Hloops as [Hno | (u & d' & Hu & Hul)].
    - left. destruct (selfloop_edges G) as [|e l] eqn:Hsl; [done|].
      exfalso.
      destruct (selfloop_edges_spec G e) as [Heq He]; [rewrite Hsl; left|].
      by apply (Hno e He).
    - right. by apply (listed_selfloop_enumerated G nodelist Hwf u d'). }
  pose proof (to_scipy_sparse_coo_undirected_listed G nodelist weight Hund Hnd
                Hes Hsl) as Hrun.
  eexists _, _, _, _. split; [reflexivity|]. split; [reflexivity|].
  split; [reflexivity|].
  split.
  { unfold to_scipy_sparse_matrix. rewrite (py_bind_run_ok _ _ _ _ Hrun).
    rewrite Hfmt. reflexivity. }
  split; [reflexivity|]. split; [reflexivity|]. split; [reflexivity|].
  split; [reflexivity|].
  intros u i Hi.
  assert (todense
            (Coo (length (ordering G nodelist), length (ordering G nodelist))
                 _ _ _) i i
          = zsum (edge_data weight (edges_at G u u))) as Hsum
    by exact (listed_diagonal G nodelist weight Hund Hwf Hnd u i Hi).
  split; [exact Hsum|].
  intros d' Hd. rewrite Hsum, Hd. unfold edge_data, edge_weight, zsum.
  simpl. lia.
Qed.

Lemma sparse_encode_undirected_witness :
  ∃ M, run (to_scipy_sparse_matrix documented_formats
              (Graph false false [1; 2; 3]%nat
                 [(1%nat, 2%nat, ∅); (3%nat, 3%nat, weighted 4);
                  (1%nat, 3%nat, weighted 2)])
              (Some [3; 1]%nat) (Some "weight") "csr")
       = (1%nat, Ok (Sparse "csr" M))
       ∧ coo_row M = [0; 0; 0; 1; 0]%nat
       ∧ coo_col M = [0; 1; 0; 0; 0]%nat
       ∧ coo_data M = [4; 2; 4; 2; -4]
       ∧ todense M 0 0 = 4.
Proof.
  destruct (sparse_encode_undirected documented_formats
              (Graph false false [1; 2; 3]%nat
                 [(1%nat, 2%nat, ∅); (3%nat, 3%nat, weighted 4);
                  (1%nat, 3%nat, weighted 2)])
              (Some [3; 1]%nat) (Some "weight") "csr"
              1%nat 3%nat (weighted 2))
    as (M & index & es & sl & -> & -> & -> & Hrun & _ & Hr & Hc & Hd & Hdiag).
  - reflexivity.
  - split; simpl.
    + repeat (apply NoDup_cons; split; [set_solver|]). constructor.
    + intros e He. set_solver.
  - simpl. apply NoDup_cons. split; [set_solver|]. apply NoDup_singleton.
  - simpl. set_solver.
  - simpl. set_solver.
  - simpl. set_solver.
  - right. exists 3%nat, (weighted 4). split; simpl; set_solver.
  - reflexivity.
  - exists M. split; [exact Hrun|]. split; [exact Hr|]. split; [exact Hc|].
    split; [exact Hd|].
    exact (proj2 (Hdiag 3%nat 0%nat eq_refl) (weighted 4) eq_refl).
Defined.

(** C3.  The self-loop correction of sparse encode breaks on a partial
    ordering.  The undirected graph with the edge (1, 2) and the self-loop
    (3, 3), encoded over the ordering [1; 2], has a self-loop, so the
    correction step runs; no self-loop is at a listed node, so the step
    unpacks an empty sequence and the call raises [ValueError] where the
    symmetrized triples of the edge (1, 2) were due.  Dense encode of the
    same graph over the same ordering returns [[0,1],[1,0]]. *)
Theorem sparse_selfloop_correction_unlisted_selfloop :
  is_directed (Graph false false [1; 2; 3]%nat
                 [(1%nat, 2%nat, ∅); (3%nat, 3%nat, ∅)]) = false
  ∧ selfloop_edges (Graph false false [1; 2; 3]%nat
                      [(1%nat, 2%nat, ∅); (3%nat, 3%nat, ∅)])
    = [(3%nat, 3%nat, ∅)]
  ∧ index_triples (dict_zip [1; 2]%nat (seq 0 2)) (Some "weight")
      (edges_iter (Graph false false [1; 2; 3]%nat
                     [(1%nat, 2%nat, ∅); (3%nat, 3%nat, ∅)])
                  (Some [1; 2]%nat))
    = [(0%nat, 1%nat, 1)]
  ∧ run (to_scipy_sparse_matrix documented_formats
           (Graph false false [1; 2; 3]%nat
              [(1%nat, 2%nat, ∅); (3%nat, 3%nat, ∅)])
           (Some [1; 2]%nat) (Some "weight") "csr")
    = (0%nat, Raise (ValueError msg_unpack))
  ∧ run (to_numpy_matrix
           (Graph false false [1; 2; 3]%nat
              [(1%nat, 2%nat, ∅); (3%nat, 3%nat, ∅)])
           (Some [1; 2]%nat) py_sum (Some "weight") (fin 0))
    = (1%nat, Ok (mat [[0; 1]; [1; 0]])).
Proof.
  split; [reflexivity|]. split; [vm_compute; reflexivity|].
  split; [vm_compute; reflexivity|]. split; [vm_compute; reflexivity|].
  vm_compute. reflexivity.
Qed.
